(** * Rate-limited invocation governors of miovo: [debounce] and [throttle]

    A shallow embedding of [src/debounce.ts] and of the [throttle]
    implementation, together with the host facilities they rely on
    ([Date.now], [setTimeout], [clearTimeout]); [hash] and [toArray] come
    after them.

    Modelling conventions.
    - Timestamps and delays are integers ([Date.now] returns whole
      milliseconds); the [wait] and [maxWait] options are taken to be
      integers as well.
    - The closure variables of one wrapper ([timeout], [lastArgs], ...)
      are the fields of a record; every source function is a function on
      that record, taking the value read from [Date.now] as an argument.
    - The host timer queue is part of the state: [setTimeout] appends a
      timer with a fresh handle, [clearTimeout] removes the timer with the
      given handle, firing a timer removes it and runs its callback.
    - The wrapped callable either returns a value or throws; every call of
      it is recorded in the [journal] field, which is how the theorems
      observe invocations.  The callable is assumed not to call the wrapper
      it is wrapped by.  It is given as a function of its receiver and
      arguments; since a JavaScript callable may also depend on when it
      runs, no statement compares the values returned by two runs made at
      different times.
    - The [clock] field remembers the time of the latest event; the code
      never reads it, it serves to say that time does not run backwards
      and that no timer is overdue.
    - Delays beyond the range the host accepts for [setTimeout] are not
      modelled. *)

From Stdlib Require Import ZArith List Bool Lia.
Import ListNotations.
Local Open Scope Z_scope.

(** ** Host runtime: one-shot timers *)

(** The two closures the governors hand to [setTimeout]. *)
Inductive callback : Type :=
| TimerExpired
| MaxTimerExpired.

Record timer : Type := Timer {
  handle : nat;      (* value returned by [setTimeout] *)
  action : callback; (* closure to run *)
  due : Z            (* earliest time at which the host may run it *)
}.

Definition callback_eqb (a b : callback) : bool :=
  match a, b with
  | TimerExpired, TimerExpired => true
  | MaxTimerExpired, MaxTimerExpired => true
  | _, _ => false
  end.

(** [setTimeout(cb, delay)] called at time [now]; a negative delay counts
    as zero.  [next] is the handle the host hands out. *)
Definition setTimeout (cb : callback) (delay now : Z) (next : nat)
  (q : list timer) : list timer :=
  q ++ [Timer next cb (now + Z.max 0 delay)].

(** [clearTimeout(h)]: idempotent, harmless on a handle that is not live. *)
Definition clearTimeout (h : nat) (q : list timer) : list timer :=
  filter (fun tm => negb (Nat.eqb (handle tm) h)) q.

Definition lookupTimer (h : nat) (q : list timer) : option timer :=
  find (fun tm => Nat.eqb (handle tm) h) q.

(** The live timers running [timerExpired]: the primary timers. *)
Definition primaryTimers (q : list timer) : list timer :=
  filter (fun tm => callback_eqb (action tm) TimerExpired) q.

(** No live timer is overdue at time [t]. *)
Definition noneOverdue (t : Z) (q : list timer) : bool :=
  forallb (fun tm => t <=? due tm) q.

(** The timer the host runs next when nothing else happens: the one due
    first, and among those due together the one scheduled first. *)
Fixpoint earliest (q : list timer) : option timer :=
  match q with
  | [] => None
  | tm :: q' =>
      match earliest q' with
      | Some tm' => if due tm' <? due tm then Some tm' else Some tm
      | None => Some tm
      end
  end.

(** [x || 0] on an optional timestamp: [null] and [0] both give [0]. *)
Definition orZero (o : option Z) : Z :=
  match o with
  | Some t => t
  | None => 0
  end.

Definition isNull {A : Type} (o : option A) : bool :=
  match o with
  | Some _ => false
  | None => true
  end.

(** ** What both governors share *)

Section Observations.

(** [V]: argument values, [This]: receivers, [Res]: results,
    [Exn]: thrown values. *)
Context {V This Res Exn : Type}.

(** One recorded application [func.apply(thisArg, args)]. *)
Record invocation : Type := Invocation {
  at_time : Z;
  receiver : option This;
  arguments : list V
}.

(** What a source function hands back to its caller. *)
Inductive outcome : Type :=
| Returned (r : option Res)
| Threw (e : Exn).

(** What the caller gets when the callable runs. *)
Definition outcomeOf (x : Res + Exn) : outcome :=
  match x with
  | inl r => Returned (Some r)
  | inr e => Threw e
  end.

(** [func.apply(thisArg, args)] with [args] being [null] passes no
    arguments. *)
Definition applied (args : option (list V)) : list V :=
  match args with
  | Some a => a
  | None => []
  end.

(** What can happen to a wrapper: it is called, the host runs one of the
    live timers, [cancel()] or [flush()] is called.  [time] is what
    [Date.now()] returns during the event. *)
Inductive event : Type :=
| Call (time : Z) (this : This) (args : list V)
| Fire (h : nat) (time : Z)
| Cancel
| Flush (time : Z).

Definition eventTime (e : event) : option Z :=
  match e with
  | Call time _ _ | Fire _ time | Flush time => Some time
  | Cancel => None
  end.

Definition isCancel (e : event) : bool :=
  match e with
  | Cancel => true
  | _ => false
  end.

(** Only calls of the wrapper and timer firings. *)
Definition isCallOrFire (e : event) : bool :=
  match e with
  | Call _ _ _ | Fire _ _ => true
  | _ => false
  end.

(** One call of the wrapper. *)
Record request : Type := Request {
  req_time : Z;
  req_this : This;
  req_args : list V
}.

(** The calls of a schedule, in order. *)
Fixpoint callsOf (es : list event) : list request :=
  match es with
  | [] => []
  | Call time this args :: es' => Request time this args :: callsOf es'
  | _ :: es' => callsOf es'
  end.

(** Each call comes no earlier than the one before it and less than
    [gap] after it. *)
Fixpoint spaced (gap : Z) (cs : list request) : Prop :=
  match cs with
  | c :: (c' :: _) as rest =>
      req_time c <= req_time c' < req_time c + gap /\ spaced gap rest
  | _ => True
  end.

(** The invocation that serves request [c], [delay] after it. *)
Definition served (delay : Z) (c : request) : invocation :=
  Invocation (req_time c + delay) (Some (req_this c)) (req_args c).

End Observations.

Arguments invocation : clear implicits.
Arguments outcome : clear implicits.
Arguments event : clear implicits.
Arguments request : clear implicits.

(** ** Debounce *)

Module Debounce.

Section Wrapper.

Context {V This Res Exn : Type}.

(** [debounce(func, wait, { leading, trailing, maxWait })]. *)
Variable func : option This -> list V -> Res + Exn.
Variable wait : Z.
Variable leading trailing : bool.
Variable maxWait : option Z.

Record state : Type := State {
  (* closure variables *)
  timeout : option nat;
  maxTimeout : option nat;
  lastArgs : option (list V);
  lastThis : option This;
  result : option Res;
  lastCallTime : option Z;
  lastInvokeTime : Z;
  (* host *)
  queue : list timer;
  fresh : nat;
  clock : Z;
  (* observation *)
  journal : list (invocation V This)
}.

Definition initial : state :=
  State None None None None None None 0 [] 0%nat 0 [].

Definition set_timeout (v : option nat) (s : state) : state :=
  State v (maxTimeout s) (lastArgs s) (lastThis s) (result s)
    (lastCallTime s) (lastInvokeTime s) (queue s) (fresh s) (clock s)
    (journal s).

Definition set_maxTimeout (v : option nat) (s : state) : state :=
  State (timeout s) v (lastArgs s) (lastThis s) (result s)
    (lastCallTime s) (lastInvokeTime s) (queue s) (fresh s) (clock s)
    (journal s).

Definition set_lastArgs (v : option (list V)) (s : state) : state :=
  State (timeout s) (maxTimeout s) v (lastThis s) (result s)
    (lastCallTime s) (lastInvokeTime s) (queue s) (fresh s) (clock s)
    (journal s).

Definition set_lastThis (v : option This) (s : state) : state :=
  State (timeout s) (maxTimeout s) (lastArgs s) v (result s)
    (lastCallTime s) (lastInvokeTime s) (queue s) (fresh s) (clock s)
    (journal s).

Definition set_result (v : option Res) (s : state) : state :=
  State (timeout s) (maxTimeout s) (lastArgs s) (lastThis s) v
    (lastCallTime s) (lastInvokeTime s) (queue s) (fresh s) (clock s)
    (journal s).

Definition set_lastCallTime (v : option Z) (s : state) : state :=
  State (timeout s) (maxTimeout s) (lastArgs s) (lastThis s) (result s)
    v (lastInvokeTime s) (queue s) (fresh s) (clock s) (journal s).

Definition set_lastInvokeTime (v : Z) (s : state) : state :=
  State (timeout s) (maxTimeout s) (lastArgs s) (lastThis s) (result s)
    (lastCallTime s) v (queue s) (fresh s) (clock s) (journal s).

Definition set_queue (v : list timer) (s : state) : state :=
  State (timeout s) (maxTimeout s) (lastArgs s) (lastThis s) (result s)
    (lastCallTime s) (lastInvokeTime s) v (fresh s) (clock s) (journal s).

Definition set_clock (v : Z) (s : state) : state :=
  State (timeout s) (maxTimeout s) (lastArgs s) (lastThis s) (result s)
    (lastCallTime s) (lastInvokeTime s) (queue s) (fresh s) v (journal s).

Definition record (i : invocation V This) (s : state) : state :=
  State (timeout s) (maxTimeout s) (lastArgs s) (lastThis s) (result s)
    (lastCallTime s) (lastInvokeTime s) (queue s) (fresh s) (clock s)
    (journal s ++ [i]).

(** [setTimeout(cb, delay)] at time [now], returning the new handle. *)
Definition schedule (cb : callback) (delay now : Z) (s : state)
  : state * nat :=
  (State (timeout s) (maxTimeout s) (lastArgs s) (lastThis s) (result s)
     (lastCallTime s) (lastInvokeTime s)
     (setTimeout cb delay now (fresh s) (queue s)) (S (fresh s)) (clock s)
     (journal s),
   fresh s).

Definition unschedule (h : nat) (s : state) : state :=
  set_queue (clearTimeout h (queue s)) s.

(** [invokeFunc]: the bookkeeping is written before [func.apply] runs, so
    it stays written when the callable throws; only [result] is assigned
    after the callable returned. *)
Definition invokeFunc (time : Z) (s : state) : state * outcome Res Exn :=
  let args := applied (lastArgs s) in
  let thisArg := lastThis s in
  let s1 := set_lastInvokeTime time (set_lastThis None (set_lastArgs None s)) in
  let s2 := record (Invocation time thisArg args) s1 in
  match func thisArg args with
  | inl r => (set_result (Some r) s2, Returned (Some r))
  | inr e => (s2, Threw e)
  end.

Definition shouldInvoke (time : Z) (s : state) : bool :=
  let timeSinceLastCall := time - orZero (lastCallTime s) in
  let timeSinceLastInvoke := time - lastInvokeTime s in
  isNull (lastCallTime s)
  || (wait <=? timeSinceLastCall)
  || (timeSinceLastCall <? 0)
  || match maxWait with
     | Some mw => mw <=? timeSinceLastInvoke
     | None => false
     end.

Definition leadingEdge (time : Z) (s : state) : state * outcome Res Exn :=
  let s1 := set_lastInvokeTime time s in
  let (s2, h) := schedule TimerExpired wait time s1 in
  let s3 := set_timeout (Some h) s2 in
  let s4 :=
    match maxWait with
    | Some mw =>
        let (s', m) := schedule MaxTimerExpired mw time s3 in
        set_maxTimeout (Some m) s'
    | None => s3
    end in
  if leading then invokeFunc time s4 else (s4, Returned (result s4)).

Definition remainingWait (time : Z) (s : state) : Z :=
  let timeSinceLastCall := time - orZero (lastCallTime s) in
  let timeSinceLastInvoke := time - lastInvokeTime s in
  let timeWaiting := wait - timeSinceLastCall in
  match maxWait with
  | Some mw => Z.min timeWaiting (mw - timeSinceLastInvoke)
  | None => timeWaiting
  end.

(** [trailingEdge] forgets the primary handle without clearing it; the
    escape timer is cleared.  An array is truthy even when empty, so
    [trailing && lastArgs] tests [lastArgs] against [null]. *)
Definition trailingEdge (time : Z) (s : state) : state * outcome Res Exn :=
  let s1 := set_timeout None s in
  let s2 :=
    match maxTimeout s1 with
    | Some m => set_maxTimeout None (unschedule m s1)
    | None => s1
    end in
  if trailing && negb (isNull (lastArgs s2)) then invokeFunc time s2
  else
    let s3 := set_lastThis None (set_lastArgs None s2) in
    (s3, Returned (result s3)).

Definition timerExpired (time : Z) (s : state) : state * outcome Res Exn :=
  if shouldInvoke time s then
    match trailingEdge time s with
    | (s', Returned _) => (s', Returned None)
    | (s', Threw e) => (s', Threw e)
    end
  else
    let (s1, h) := schedule TimerExpired (remainingWait time s) time s in
    (set_timeout (Some h) s1, Returned None).

Definition maxTimerExpired (time : Z) (s : state) : state * outcome Res Exn :=
  if negb (isNull (lastArgs s)) && trailing then
    match trailingEdge time s with
    | (s', Returned _) => (s', Returned None)
    | (s', Threw e) => (s', Threw e)
    end
  else (s, Returned None).

Definition cancel (s : state) : state * outcome Res Exn :=
  let s1 := match timeout s with Some h => unschedule h s | None => s end in
  let s2 := match maxTimeout s1 with Some m => unschedule m s1 | None => s1 end in
  let s3 := set_lastInvokeTime 0 s2 in
  let s4 := set_lastArgs None s3 in
  let s5 := set_lastThis None s4 in
  let s6 := set_lastCallTime None s5 in
  let s7 := set_timeout None s6 in
  (set_maxTimeout None s7, Returned None).

Definition flush (time : Z) (s : state) : state * outcome Res Exn :=
  if isNull (timeout s) && isNull (maxTimeout s) then (s, Returned (result s))
  else trailingEdge time s.

Definition pending (s : state) : bool := negb (isNull (timeout s)).

Definition debounced (time : Z) (this : This) (args : list V) (s : state)
  : state * outcome Res Exn :=
  let isInvoking := shouldInvoke time s in
  let s1 := set_lastArgs (Some args) s in
  let s2 := set_lastThis (Some this) s1 in
  let s3 := set_lastCallTime (Some time) s2 in
  let fallThrough :=
    let s4 :=
      if isNull (timeout s3) then
        let (s', h) := schedule TimerExpired wait time s3 in
        set_timeout (Some h) s'
      else s3 in
    (s4, Returned (result s4)) in
  if isInvoking then
    if isNull (timeout s3) then leadingEdge time s3
    else if negb (isNull maxWait) then
      (* the [maxWait] branch: the old handle is overwritten, not cleared *)
      let (s4, h) := schedule TimerExpired wait time s3 in
      invokeFunc time (set_timeout (Some h) s4)
    else fallThrough
  else fallThrough.

(** *** Events *)

(** The host only runs a timer that is live and due; the timer leaves
    the queue before its callback runs. *)
Definition fire (h : nat) (time : Z) (s : state) : option (state * outcome Res Exn) :=
  match lookupTimer h (queue s) with
  | Some tm =>
      if due tm <=? time then
        let s1 := set_clock time (unschedule h s) in
        Some match action tm with
             | TimerExpired => timerExpired time s1
             | MaxTimerExpired => maxTimerExpired time s1
             end
      else None
  | None => None
  end.

Definition step (s : state) (e : event V This) : option (state * outcome Res Exn) :=
  match e with
  | Call time this args => Some (debounced time this args (set_clock time s))
  | Fire h time => fire h time s
  | Cancel => Some (cancel s)
  | Flush time => Some (flush time (set_clock time s))
  end.

(** A thrown exception reaches the caller (or the host's error hook); the
    closure variables keep what was written before the throw. *)
Fixpoint run (s : state) (es : list (event V This)) : option state :=
  match es with
  | [] => Some s
  | e :: es' =>
      match step s e with
      | Some (s', _) => run s' es'
      | None => None
      end
  end.

(** The state without the cached result: what the governor decides
    on. *)
Definition bookkeeping (s : state) : state := set_result None s.

(** *** Conditions on schedules

    [clock] remembers the time of the latest event.  A schedule is
    chronological when time never runs backwards, and punctual when in
    addition no timer is ever left overdue: the host runs every timer at
    the very time it is due. *)
Definition chronological (s : state) (e : event V This) : bool :=
  match eventTime e with
  | Some t => clock s <=? t
  | None => true
  end.

Definition punctual (s : state) (e : event V This) : bool :=
  chronological s e &&
  match e with
  | Call time _ _ | Flush time => noneOverdue time (queue s)
  | Fire h time =>
      noneOverdue time (queue s) &&
      match lookupTimer h (queue s) with
      | Some tm => due tm =? time
      | None => false
      end
  | Cancel => true
  end.

(** [run], refusing every event that does not meet [ok]. *)
Fixpoint runWhere (ok : state -> event V This -> bool) (s : state)
  (es : list (event V This)) : option state :=
  match es with
  | [] => Some s
  | e :: es' =>
      if ok s e then
        match step s e with
        | Some (s', _) => runWhere ok s' es'
        | None => None
        end
      else None
  end.

(** Letting time pass with no further call: the host runs the timers
    one after the other, each when it is due (at once when it is overdue
    already), until none is left.  [fuel] bounds the number of firings. *)
Fixpoint settle (fuel : nat) (s : state) : option state :=
  match earliest (queue s) with
  | None => Some s
  | Some tm =>
      match fuel with
      | O => None
      | S fuel' =>
          match step s (Fire (handle tm) (Z.max (clock s) (due tm))) with
          | Some (s', _) => settle fuel' s'
          | None => None
          end
      end
  end.

End Wrapper.

Arguments state : clear implicits.

End Debounce.

(** ** Throttle *)

Module Throttle.

Section Wrapper.

Context {V This Res Exn : Type}.

(** [throttle(func, wait, { leading, trailing })]. *)
Variable func : option This -> list V -> Res + Exn.
Variable wait : Z.
Variable leading trailing : bool.

Record state : Type := State {
  (* closure variables *)
  timeout : option nat;
  lastArgs : option (list V);
  lastThis : option This;
  result : option Res;
  lastCallTime : option Z;
  lastInvokeTime : Z;
  (* host *)
  queue : list timer;
  fresh : nat;
  clock : Z;
  (* observation *)
  journal : list (invocation V This)
}.

Definition initial : state :=
  State None None None None None 0 [] 0%nat 0 [].

Definition set_timeout (v : option nat) (s : state) : state :=
  State v (lastArgs s) (lastThis s) (result s) (lastCallTime s)
    (lastInvokeTime s) (queue s) (fresh s) (clock s) (journal s).

Definition set_lastArgs (v : option (list V)) (s : state) : state :=
  State (timeout s) v (lastThis s) (result s) (lastCallTime s)
    (lastInvokeTime s) (queue s) (fresh s) (clock s) (journal s).

Definition set_lastThis (v : option This) (s : state) : state :=
  State (timeout s) (lastArgs s) v (result s) (lastCallTime s)
    (lastInvokeTime s) (queue s) (fresh s) (clock s) (journal s).

Definition set_result (v : option Res) (s : state) : state :=
  State (timeout s) (lastArgs s) (lastThis s) v (lastCallTime s)
    (lastInvokeTime s) (queue s) (fresh s) (clock s) (journal s).

Definition set_lastCallTime (v : option Z) (s : state) : state :=
  State (timeout s) (lastArgs s) (lastThis s) (result s) v
    (lastInvokeTime s) (queue s) (fresh s) (clock s) (journal s).

Definition set_lastInvokeTime (v : Z) (s : state) : state :=
  State (timeout s) (lastArgs s) (lastThis s) (result s) (lastCallTime s)
    v (queue s) (fresh s) (clock s) (journal s).

Definition set_queue (v : list timer) (s : state) : state :=
  State (timeout s) (lastArgs s) (lastThis s) (result s) (lastCallTime s)
    (lastInvokeTime s) v (fresh s) (clock s) (journal s).

Definition set_clock (v : Z) (s : state) : state :=
  State (timeout s) (lastArgs s) (lastThis s) (result s) (lastCallTime s)
    (lastInvokeTime s) (queue s) (fresh s) v (journal s).

Definition record (i : invocation V This) (s : state) : state :=
  State (timeout s) (lastArgs s) (lastThis s) (result s) (lastCallTime s)
    (lastInvokeTime s) (queue s) (fresh s) (clock s) (journal s ++ [i]).

Definition schedule (cb : callback) (delay now : Z) (s : state)
  : state * nat :=
  (State (timeout s) (lastArgs s) (lastThis s) (result s) (lastCallTime s)
     (lastInvokeTime s) (setTimeout cb delay now (fresh s) (queue s))
     (S (fresh s)) (clock s) (journal s),
   fresh s).

Definition unschedule (h : nat) (s : state) : state :=
  set_queue (clearTimeout h (queue s)) s.

Definition invokeFunc (time : Z) (s : state) : state * outcome Res Exn :=
  let args := applied (lastArgs s) in
  let thisArg := lastThis s in
  let s1 := set_lastInvokeTime time (set_lastThis None (set_lastArgs None s)) in
  let s2 := record (Invocation time thisArg args) s1 in
  match func thisArg args with
  | inl r => (set_result (Some r) s2, Returned (Some r))
  | inr e => (s2, Threw e)
  end.

Definition shouldInvoke (time : Z) (s : state) : bool :=
  let timeSinceLastCall := time - orZero (lastCallTime s) in
  let timeSinceLastInvoke := time - lastInvokeTime s in
  isNull (lastCallTime s)
  || (wait <=? timeSinceLastCall)
  || (timeSinceLastCall <? 0)
  || (wait <=? timeSinceLastInvoke).

Definition leadingEdge (time : Z) (s : state) : state * outcome Res Exn :=
  let s1 := set_lastInvokeTime time s in
  let (s2, h) := schedule TimerExpired wait time s1 in
  let s3 := set_timeout (Some h) s2 in
  if leading then invokeFunc time s3 else (s3, Returned (result s3)).

Definition remainingWait (time : Z) (s : state) : Z :=
  let timeSinceLastCall := time - orZero (lastCallTime s) in
  let timeSinceLastInvoke := time - lastInvokeTime s in
  let timeWaiting := wait - timeSinceLastCall in
  Z.min timeWaiting (wait - timeSinceLastInvoke).

Definition trailingEdge (time : Z) (s : state) : state * outcome Res Exn :=
  let s1 := set_timeout None s in
  if trailing && negb (isNull (lastArgs s1)) then invokeFunc time s1
  else
    let s2 := set_lastThis None (set_lastArgs None s1) in
    (s2, Returned (result s2)).

Definition timerExpired (time : Z) (s : state) : state * outcome Res Exn :=
  if shouldInvoke time s then
    match trailingEdge time s with
    | (s', Returned _) => (s', Returned None)
    | (s', Threw e) => (s', Threw e)
    end
  else
    let (s1, h) := schedule TimerExpired (remainingWait time s) time s in
    (set_timeout (Some h) s1, Returned None).

Definition cancel (s : state) : state * outcome Res Exn :=
  let s1 := match timeout s with Some h => unschedule h s | None => s end in
  let s2 := set_lastInvokeTime 0 s1 in
  let s3 := set_lastArgs None s2 in
  let s4 := set_lastThis None s3 in
  let s5 := set_lastCallTime None s4 in
  (set_timeout None s5, Returned None).

Definition flush (time : Z) (s : state) : state * outcome Res Exn :=
  if isNull (timeout s) then (s, Returned (result s))
  else trailingEdge time s.

Definition throttled (time : Z) (this : This) (args : list V) (s : state)
  : state * outcome Res Exn :=
  let isInvoking := shouldInvoke time s in
  let s1 := set_lastArgs (Some args) s in
  let s2 := set_lastThis (Some this) s1 in
  let s3 := set_lastCallTime (Some time) s2 in
  let fallThrough :=
    let s4 :=
      if isNull (timeout s3) then
        let (s', h) := schedule TimerExpired wait time s3 in
        set_timeout (Some h) s'
      else s3 in
    (s4, Returned (result s4)) in
  if isInvoking then
    if isNull (timeout s3) then leadingEdge time s3
    else fallThrough
  else fallThrough.

(** *** Events *)

(** The only closure a throttled wrapper schedules is [timerExpired]. *)
Definition fire (h : nat) (time : Z) (s : state)
  : option (state * outcome Res Exn) :=
  match lookupTimer h (queue s) with
  | Some tm =>
      if due tm <=? time then
        Some (timerExpired time (set_clock time (unschedule h s)))
      else None
  | None => None
  end.

Definition step (s : state) (e : event V This)
  : option (state * outcome Res Exn) :=
  match e with
  | Call time this args => Some (throttled time this args (set_clock time s))
  | Fire h time => fire h time s
  | Cancel => Some (cancel s)
  | Flush time => Some (flush time (set_clock time s))
  end.

Fixpoint run (s : state) (es : list (event V This)) : option state :=
  match es with
  | [] => Some s
  | e :: es' =>
      match step s e with
      | Some (s', _) => run s' es'
      | None => None
      end
  end.

Definition bookkeeping (s : state) : state := set_result None s.

Definition chronological (s : state) (e : event V This) : bool :=
  match eventTime e with
  | Some t => clock s <=? t
  | None => true
  end.

Fixpoint runWhere (ok : state -> event V This -> bool) (s : state)
  (es : list (event V This)) : option state :=
  match es with
  | [] => Some s
  | e :: es' =>
      if ok s e then
        match step s e with
        | Some (s', _) => runWhere ok s' es'
        | None => None
        end
      else None
  end.

End Wrapper.

Arguments state : clear implicits.

End Throttle.

(** ** Vocabulary of the statements *)

Section Timely.

Context {V This Res : Type}.

(** The clock is never negative and [lastInvokeTime] never ahead of
    it. *)
Definition debounceTimely (s : Debounce.state V This Res) : Prop :=
  0 <= Debounce.clock s /\ Debounce.lastInvokeTime s <= Debounce.clock s.

Definition throttleTimely (s : Throttle.state V This Res) : Prop :=
  0 <= Throttle.clock s /\ Throttle.lastInvokeTime s <= Throttle.clock s.

End Timely.

Section BurstStates.

Context {V This Res : Type}.
Variable wait : Z.

(** A burst is under way and [c] is its latest call: [c] is what is
    pending, nothing has been invoked, and the one live timer is the
    primary timer [timeout] names, due no later than [wait] after
    [c]. *)
Definition bursting (c : request V This) (s : Debounce.state V This Res)
  : Prop :=
  exists h d,
    Debounce.timeout s = Some h
    /\ Debounce.maxTimeout s = None
    /\ Debounce.lastArgs s = Some (req_args c)
    /\ Debounce.lastThis s = Some (req_this c)
    /\ Debounce.lastCallTime s = Some (req_time c)
    /\ Debounce.queue s = [Timer h TimerExpired d]
    /\ Debounce.clock s <= d
    /\ req_time c <= d <= req_time c + wait
    /\ Debounce.journal s = [].

(** The burst that ended with call [c] has been served: one invocation,
    [wait] after [c], and no timer is left. *)
Definition settled (c : request V This) (s : Debounce.state V This Res)
  : Prop :=
  Debounce.queue s = []
  /\ Debounce.clock s = req_time c + wait
  /\ Debounce.journal s = [served wait c].

End BurstStates.

Section CallsThenCancel.

Context {V This Res : Type}.
Variable wait : Z.
Variable maxWait : option Z.

Definition asCall (c : request V This) : event V This :=
  Call (req_time c) (req_this c) (req_args c).

(** When [maxWait] is set: the calls [cs] that follow [c0] are spaced
    less than [wait] apart and all come less than [maxWait] after [c0],
    so that [shouldInvoke] holds for none of them.  Without [maxWait]
    nothing is asked of the calls. *)
Definition unhurried (c0 : request V This) (cs : list (request V This))
  : Prop :=
  match maxWait with
  | None => True
  | Some mw =>
      spaced wait (c0 :: cs)
      /\ Forall (fun c => req_time c < req_time c0 + mw) cs
  end.

(** The timers the first call, made at [t0], leaves behind. *)
Definition firstCallTimers (t0 : Z) : list timer :=
  Timer 0 TimerExpired (t0 + Z.max 0 wait)
  :: match maxWait with
     | Some mw => [Timer 1 MaxTimerExpired (t0 + Z.max 0 mw)]
     | None => []
     end.

(** Calls since [t0] have only been recorded: [c] is the latest, nothing
    was invoked, and the timers are those of the first call. *)
Definition heldBack (t0 : Z) (c : request V This)
  (s : Debounce.state V This Res) : Prop :=
  Debounce.timeout s = Some 0%nat
  /\ Debounce.maxTimeout s
     = match maxWait with Some _ => Some 1%nat | None => None end
  /\ Debounce.lastCallTime s = Some (req_time c)
  /\ Debounce.lastInvokeTime s = t0
  /\ Debounce.queue s = firstCallTimers t0
  /\ Debounce.journal s = [].

End CallsThenCancel.

Section PendingStates.

Context {V This Res : Type}.

(** What an invocation was made with. *)
Definition madeWith (i : invocation V This) : option This * list V :=
  (receiver i, arguments i).

(** The pending state: a call is waiting to be served, the primary timer
    [timeout] names is live, no timer is overdue, and the queue holds
    that timer and at most the escape timer [maxTimeout] names. *)
Definition pendingState (s : Debounce.state V This Res) : Prop :=
  exists h d a,
    Debounce.timeout s = Some h
    /\ Debounce.lastArgs s = Some a
    /\ noneOverdue (Debounce.clock s) (Debounce.queue s) = true
    /\ (h < Debounce.fresh s)%nat
    /\ match Debounce.maxTimeout s with
       | None => Debounce.queue s = [Timer h TimerExpired d]
       | Some m =>
           m <> h /\ (m < Debounce.fresh s)%nat
           /\ (Debounce.queue s = [Timer h TimerExpired d]
               \/ exists e,
                    Debounce.queue s
                    = [Timer h TimerExpired d; Timer m MaxTimerExpired e]
                    \/ Debounce.queue s
                       = [Timer m MaxTimerExpired e; Timer h TimerExpired d])
       end.

(** What [flush()] leaves and what waiting leaves have in common: the
    receivers and arguments of all invocations made, and every closure
    variable but [lastInvokeTime] and [result].  The cached [result] is
    what the callable returned when it ran, which is at another time after
    [flush()] than after waiting, so nothing is said about it. *)
Definition agree (sf sw : Debounce.state V This Res) : Prop :=
  map madeWith (Debounce.journal sf) = map madeWith (Debounce.journal sw)
  /\ Debounce.timeout sf = Debounce.timeout sw
  /\ Debounce.maxTimeout sf = Debounce.maxTimeout sw
  /\ Debounce.lastArgs sf = Debounce.lastArgs sw
  /\ Debounce.lastThis sf = Debounce.lastThis sw
  /\ Debounce.lastCallTime sf = Debounce.lastCallTime sw.

(** What waiting from state [s] leaves in [sw].  With [trailing] set the
    callable has run once more, for the pending call, when some timer
    fired at a time [tw], and [lastInvokeTime] is [tw]; without it nothing
    has run and [lastInvokeTime] is what it was. *)
Definition waited (trailing : bool) (s sw : Debounce.state V This Res)
  : Prop :=
  if trailing then
    exists tw,
      Debounce.clock s <= tw
      /\ Debounce.journal sw
         = Debounce.journal s
           ++ [Invocation tw (Debounce.lastThis s)
                 (applied (Debounce.lastArgs s))]
      /\ Debounce.lastInvokeTime sw = tw
  else
    Debounce.journal sw = Debounce.journal s
    /\ Debounce.lastInvokeTime sw = Debounce.lastInvokeTime s.

(** What [flush()] at time [t] in state [s] leaves in [sf]: the same, the
    callable having run at [t]. *)
Definition flushed (trailing : bool) (t : Z)
  (s sf : Debounce.state V This Res) : Prop :=
  if trailing then
    Debounce.journal sf
    = Debounce.journal s
      ++ [Invocation t (Debounce.lastThis s) (applied (Debounce.lastArgs s))]
    /\ Debounce.lastInvokeTime sf = t
  else
    Debounce.journal sf = Debounce.journal s
    /\ Debounce.lastInvokeTime sf = Debounce.lastInvokeTime s.

End PendingStates.

Section PeriodicCalls.

Context {V This Res : Type}.

(** When the callable last ran; [0], the start of time, when it has not
    run yet. *)
Definition lastInvoked (j : list (invocation V This)) : Z :=
  last (map at_time j) 0.

(** The handles the host has given out are distinct and below the next
    one. *)
Definition handlesFresh (next : nat) (q : list timer) : Prop :=
  Forall (fun tm => (handle tm < next)%nat) q /\ NoDup (map handle q).

(** Some live escape timer is due by [bound]. *)
Definition escapeBy (bound : Z) (q : list timer) : Prop :=
  exists tm, In tm q /\ action tm = MaxTimerExpired /\ due tm <= bound.

Variable period : Z.

(** Calls come every [period], the first one at [0]. *)
Definition nextCallTime (s : Debounce.state V This Res) : Z :=
  match Debounce.lastCallTime s with
  | Some c => c + period
  | None => 0
  end.

(** The next call comes exactly when it is due and no timer runs later
    than that before it; nothing else happens. *)
Definition periodic (s : Debounce.state V This Res) (e : event V This)
  : bool :=
  match e with
  | Call time _ _ => time =? nextCallTime s
  | Fire _ time => time <=? nextCallTime s
  | Cancel | Flush _ => false
  end.

Definition punctualPeriodic (s : Debounce.state V This Res)
  (e : event V This) : bool :=
  Debounce.punctual s e && periodic s e.

Variable maxWait : Z.

(** The invariant of periodic calls under [maxWait]: either nothing is
    pending and the callable ran no earlier than the latest call, or a
    call is pending, the primary handle is set, and either a live escape
    timer is due within [maxWait + period] of the latest invocation or
    the latest call came less than [maxWait] after it. *)
Definition paced (s : Debounce.state V This Res) : Prop :=
  let ran := lastInvoked (Debounce.journal s) in
  handlesFresh (Debounce.fresh s) (Debounce.queue s)
  /\ 0 <= Debounce.clock s
  /\ 0 <= ran
  /\ match Debounce.lastCallTime s with
     | Some c => c <= Debounce.clock s
     | None => True
     end
  /\ ((Debounce.lastArgs s = None
       /\ Debounce.lastInvokeTime s = ran
       /\ match Debounce.lastCallTime s with
          | Some c => c <= ran
          | None => True
          end)
      \/ (Debounce.lastArgs s <> None
          /\ Debounce.timeout s <> None
          /\ exists c,
               Debounce.lastCallTime s = Some c
               /\ (escapeBy (ran + maxWait + period) (Debounce.queue s)
                   \/ (Debounce.lastInvokeTime s = ran
                       /\ c - ran < maxWait)))).

(** The invariant of periodic calls under [maxWait] when only the leading
    edge invokes: [lastInvokeTime] is when the callable last ran, and the
    latest call came no more than [maxWait] after that. *)
Definition pacedLeading (s : Debounce.state V This Res) : Prop :=
  let ran := lastInvoked (Debounce.journal s) in
  Debounce.lastInvokeTime s = ran
  /\ match Debounce.lastCallTime s with
     | Some c => c <= ran + maxWait
     | None => ran = 0
     end.

End PeriodicCalls.

Section Schedulable.

Context {V This Res : Type}.

(** How much firing is left before time [t]: the sum, over the live
    timers, of the time by which each is due before [t]. *)
Fixpoint backlog (t : Z) (q : list timer) : nat :=
  match q with
  | [] => 0%nat
  | tm :: q' => (Z.to_nat (t - due tm) + backlog t q')%nat
  end.

Variable period : Z.

(** A state from which the periodic schedule can go on: handles are
    fresh, no timer is overdue, and the next call is not overdue
    either. *)
Definition schedulable (s : Debounce.state V This Res) : Prop :=
  handlesFresh (Debounce.fresh s) (Debounce.queue s)
  /\ noneOverdue (Debounce.clock s) (Debounce.queue s) = true
  /\ Debounce.clock s <= nextCallTime period s.

End Schedulable.

Section OneTimer.

Context {V This Res : Type}.

(** The queue holds the timer [timeout] names and nothing else. *)
Definition tidy (s : Debounce.state V This Res) : Prop :=
  Debounce.maxTimeout s = None
  /\ ((Debounce.timeout s = None /\ Debounce.queue s = [])
      \/ exists h d,
           Debounce.timeout s = Some h
           /\ Debounce.queue s = [Timer h TimerExpired d]).

End OneTimer.

(** ** Concrete callables and states for the scenarios *)

(** A callable on numbers that returns how many arguments it got. *)
Definition countArgs (_ : option unit) (args : list nat) : nat + unit :=
  inl (length args).

(** A callable that always throws. *)
Definition alwaysThrows (_ : option unit) (_ : list nat) : nat + unit :=
  inr tt.

(** A debounced wrapper with one call pending: called at [0] with
    [wait = 100]. *)
Definition debouncePending : Debounce.state nat unit nat :=
  Debounce.State (Some 0%nat) None (Some [7%nat]) (Some tt) None (Some 0) 0
    [Timer 0 TimerExpired 100] 1 0 [].

(** The same for a throttled wrapper with [leading = false]. *)
Definition throttlePending : Throttle.state nat unit nat :=
  Throttle.State (Some 0%nat) (Some [7%nat]) (Some tt) None (Some 0) 0
    [Timer 0 TimerExpired 100] 1 0 [].

(** [debounce(func, 100, { maxWait: 110 })] called every [50]: a punctual
    schedule up to the call at [300]. *)
Definition every50 : list (event nat unit) :=
  [Call 0 tt [0%nat]; Call 50 tt [1%nat]; Fire 0 100; Call 100 tt [2%nat];
   Fire 1 110; Fire 2 110; Call 150 tt [3%nat]; Fire 3 200;
   Call 200 tt [4%nat]; Fire 4 220; Call 250 tt [5%nat]; Call 300 tt [6%nat]].

(** [debounce(func, 100, { leading: true, trailing: false, maxWait: 110 })]
    called every [50]: a punctual schedule up to the call at [250] and the
    timers that follow it. *)
Definition every50LeadingOnly : list (event nat unit) :=
  [Call 0 tt [0%nat]; Call 50 tt [1%nat]; Fire 0 100; Call 100 tt [2%nat];
   Fire 1 110; Fire 2 110; Call 150 tt [3%nat]; Call 200 tt [4%nat];
   Call 250 tt [5%nat]; Fire 3 250; Fire 4 260; Fire 5 260].

(** [debounce(func, 100, { trailing: false, maxWait: 100 })] called every
    [50]: a punctual schedule up to the call at [300], the primary timer
    running before the call that is due with it. *)
Definition every50NoTrailing : list (event nat unit) :=
  [Call 0 tt [0%nat]; Call 50 tt [1%nat]; Fire 0 100; Call 100 tt [2%nat];
   Call 150 tt [3%nat]; Fire 2 200; Call 200 tt [4%nat];
   Call 250 tt [5%nat]; Fire 4 300; Call 300 tt [6%nat]].

(** ** Vocabulary of the further properties *)

(** The handle in [timeout] names a primary timer that is live in the
    host queue. *)
Definition timerScheduled (timeout : option nat) (q : list timer) : Prop :=
  exists h tm,
    timeout = Some h /\ In tm q /\ handle tm = h
    /\ action tm = TimerExpired.

Section MoreObservations.

Context {V This Res Exn : Type}.

Definition isCall (e : event V This) : bool :=
  match e with
  | Call _ _ _ => true
  | _ => false
  end.

(** Events whose outcome goes to a caller of the wrapper's own surface:
    the call itself and [flush()], which both return a result. *)
Definition returnsResult (e : event V This) : bool :=
  match e with
  | Call _ _ _ | Flush _ => true
  | _ => false
  end.

(** What one event may do to the journal, to the cached result and to the
    caller, given the state before ([j], [r]) and after ([j'], [r']) and
    the outcome [o] of the event [e]: either the callable did not run,
    the cache is untouched and a call or [flush()] returns the cache; or
    it ran once, at the time of the event, and its return value went to
    the cache and to the caller, or its exception went to the caller and
    the cache stayed. *)
Definition oneInvocationAtMost
  (func : option This -> list V -> Res + Exn) (e : event V This)
  (j : list (invocation V This)) (r : option Res)
  (j' : list (invocation V This)) (r' : option Res)
  (o : outcome Res Exn) : Prop :=
  (j' = j /\ r' = r
   /\ (returnsResult e = true -> o = Returned r))
  \/ (exists this args t,
         eventTime e = Some t
         /\ j' = j ++ [Invocation t this args]
         /\ match func this args with
            | inl x =>
                r' = Some x
                /\ (returnsResult e = true -> o = Returned (Some x))
            | inr x => r' = r /\ o = Threw x
            end).

End MoreObservations.

Section ThrottleTimers.

Context {V This Res : Type}.

(** The queue of a throttled wrapper holds the timer [timeout] names and
    nothing else. *)
Definition throttleTidy (s : Throttle.state V This Res) : Prop :=
  (Throttle.timeout s = None /\ Throttle.queue s = [])
  \/ exists h d,
       Throttle.timeout s = Some h
       /\ Throttle.queue s = [Timer h TimerExpired d].

End ThrottleTimers.

Section QuietPeriod.

Context {V This Res : Type}.

(** Invocation [i] is run for the call [c] of [calls]: with its receiver
    and arguments, no sooner than [wait] after it, and before any later
    call is made. *)
Definition servesLatest (wait : Z) (calls : list (request V This))
  (i : invocation V This) : Prop :=
  exists before c after,
    calls = before ++ c :: after
    /\ receiver i = Some (req_this c)
    /\ arguments i = req_args c
    /\ req_time c + wait <= at_time i
    /\ Forall (fun c' => at_time i <= req_time c') after.

(** The state of a debounced wrapper that has seen the calls [calls]:
    what it has run so far served the latest call each time, and what it
    holds back is the last call. *)
Definition quiet (wait : Z) (calls : list (request V This))
  (s : Debounce.state V This Res) : Prop :=
  Forall (fun i => servesLatest wait calls i /\ at_time i <= Debounce.clock s)
    (Debounce.journal s)
  /\ match Debounce.lastCallTime s with
     | Some c => c <= Debounce.clock s
     | None => True
     end
  /\ forall a, Debounce.lastArgs s = Some a ->
       exists before c,
         calls = before ++ [c]
         /\ Debounce.lastCallTime s = Some (req_time c)
         /\ Debounce.lastThis s = Some (req_this c)
         /\ a = req_args c.

End QuietPeriod.

Section UnderPressure.

Context {V This Res : Type}.

(** Successive times are at least [gap] apart. *)
Fixpoint apart (gap : Z) (times : list Z) : Prop :=
  match times with
  | t :: (t' :: _) as rest => t + gap <= t' /\ apart gap rest
  | _ => True
  end.

(** Calls and timer firings in chronological order, each call less than
    [wait] after the call before it. *)
Definition pressed (wait : Z) (s : Throttle.state V This Res)
  (e : event V This) : bool :=
  Throttle.chronological s e &&
  match e with
  | Call time _ _ =>
      match Throttle.lastCallTime s with
      | Some c => time - c <? wait
      | None => true
      end
  | Fire _ _ => true
  | _ => false
  end.

(** What a throttled wrapper keeps under such a schedule. *)
Definition regular (wait : Z) (s : Throttle.state V This Res) : Prop :=
  apart wait (map at_time (Throttle.journal s))
  /\ Forall (fun i => at_time i <= Throttle.lastInvokeTime s)
       (Throttle.journal s)
  /\ Throttle.lastInvokeTime s <= Throttle.clock s
  /\ match Throttle.lastCallTime s with
     | Some c =>
         c <= Throttle.clock s
         /\ (Throttle.lastArgs s <> None -> Throttle.lastInvokeTime s <= c)
     | None => Throttle.journal s = [] /\ Throttle.lastArgs s = None
     end.

End UnderPressure.

Section BurstsWithEdges.

Context {V This Res : Type}.
Variable wait : Z.

(** A burst is under way and [c] is its latest call; [log] is what has
    been invoked so far, and [held] tells whether [c] is still pending
    (it is not when the leading edge has served it). *)
Definition burstingWith (log : list (invocation V This)) (held : bool)
  (c : request V This) (s : Debounce.state V This Res) : Prop :=
  exists h d,
    Debounce.timeout s = Some h
    /\ Debounce.maxTimeout s = None
    /\ Debounce.lastArgs s = (if held then Some (req_args c) else None)
    /\ Debounce.lastThis s = (if held then Some (req_this c) else None)
    /\ Debounce.lastCallTime s = Some (req_time c)
    /\ Debounce.queue s = [Timer h TimerExpired d]
    /\ Debounce.clock s <= d
    /\ req_time c <= d <= req_time c + wait
    /\ Debounce.journal s = log.

(** The burst that ended with call [c] is over: no timer is left. *)
Definition settledWith (log : list (invocation V This))
  (c : request V This) (s : Debounce.state V This Res) : Prop :=
  Debounce.queue s = []
  /\ Debounce.clock s = req_time c + wait
  /\ Debounce.journal s = log.

(** Whether a call is pending after the calls [cs], given whether one was
    before them. *)
Definition heldAfter (held : bool) (cs : list (request V This)) : bool :=
  match cs with
  | [] => held
  | _ :: _ => true
  end.

(** What the trailing edge adds for the latest call [c]. *)
Definition trailingLog (trailing held : bool) (c : request V This)
  : list (invocation V This) :=
  if trailing && held then [served wait c] else [].

(** What a burst of calls makes the callable run: the leading edge serves
    the first call at once, the trailing edge serves the last call [wait]
    after it, unless that call is the first one and the leading edge has
    served it already. *)
Definition burstLog (leading trailing : bool)
  (calls : list (request V This)) : list (invocation V This) :=
  match calls with
  | [] => []
  | first :: rest =>
      (if leading then [served 0 first] else [])
      ++ trailingLog trailing (heldAfter (negb leading) rest)
           (last rest first)
  end.

End BurstsWithEdges.

Section ThrottlePeriodicCalls.

Context {V This Res : Type}.

(** No timer of a throttled wrapper is ever left overdue: the host runs
    each at the very time it is due. *)
Definition throttlePunctual (s : Throttle.state V This Res)
  (e : event V This) : bool :=
  Throttle.chronological s e &&
  match e with
  | Call time _ _ | Flush time => noneOverdue time (Throttle.queue s)
  | Fire h time =>
      noneOverdue time (Throttle.queue s) &&
      match lookupTimer h (Throttle.queue s) with
      | Some tm => due tm =? time
      | None => false
      end
  | Cancel => true
  end.

Variable period : Z.

(** Calls come every [period], the first one at [0], and timers run in
    between. *)
Definition throttlePeriodic (s : Throttle.state V This Res)
  (e : event V This) : bool :=
  let next := match Throttle.lastCallTime s with
              | Some c => c + period
              | None => 0
              end in
  throttlePunctual s e &&
  match e with
  | Call time _ _ => time =? next
  | Fire _ time => time <=? next
  | Cancel | Flush _ => false
  end.

Variable wait : Z.

(** The invariant of periodic calls of a throttled wrapper: the one live
    timer is due within [wait + period] of the latest invocation, and
    either nothing is pending and the callable ran no earlier than the
    latest call, or a call is pending and a timer is live. *)
Definition throttlePaced (s : Throttle.state V This Res) : Prop :=
  let ran := lastInvoked (Throttle.journal s) in
  0 <= ran
  /\ 0 <= Throttle.clock s
  /\ match Throttle.lastCallTime s with
     | Some c => c <= Throttle.clock s
     | None => True
     end
  /\ ((Throttle.timeout s = None /\ Throttle.queue s = [])
      \/ exists h d,
           Throttle.timeout s = Some h
           /\ Throttle.queue s = [Timer h TimerExpired d]
           /\ d <= ran + wait + period)
  /\ ((Throttle.lastArgs s = None
       /\ Throttle.lastInvokeTime s = ran
       /\ match Throttle.lastCallTime s with
          | Some c => c <= ran
          | None => True
          end)
      \/ (Throttle.lastArgs s <> None
          /\ Throttle.timeout s <> None
          /\ Throttle.lastInvokeTime s <= ran + period)).

End ThrottlePeriodicCalls.

(** [l1] is [l2] with some elements left out. *)
Inductive subsequence {A : Type} : list A -> list A -> Prop :=
| subsequence_nil : subsequence [] []
| subsequence_skip (x : A) (l1 l2 : list A) :
    subsequence l1 l2 -> subsequence l1 (x :: l2)
| subsequence_take (x : A) (l1 l2 : list A) :
    subsequence l1 l2 -> subsequence (x :: l1) (x :: l2).

Section ServedCalls.

Context {V This : Type}.

(** The receivers and arguments the callable was run with, in order. *)
Definition ranFor (j : list (invocation V This))
  : list (option This * list V) :=
  map (fun i => (receiver i, arguments i)) j.

(** The receivers and arguments the wrapper was called with, in order. *)
Definition askedFor (cs : list (request V This))
  : list (option This * list V) :=
  map (fun c => (Some (req_this c), req_args c)) cs.

(** After the calls [calls]: either the last of them is pending, with its
    receiver and arguments in [lastThis] and [lastArgs], and the callable
    has run for some of the calls before it, or nothing is pending and
    the callable has run for some of the calls; each at most once and in
    the order of the calls. *)
Definition awaiting (calls : list (request V This))
  (lastArgs : option (list V)) (lastThis : option This)
  (j : list (invocation V This)) : Prop :=
  match lastArgs with
  | Some a =>
      exists before c,
        calls = before ++ [c]
        /\ a = req_args c
        /\ lastThis = Some (req_this c)
        /\ subsequence (ranFor j) (askedFor before)
  | None => subsequence (ranFor j) (askedFor calls)
  end.

End ServedCalls.

(** ** [hash] and [toArray]

    [hash] (src/unnamed/part_006) works on the UTF-16 code units of its
    argument, which are modelled as a [list Z].  The JavaScript [^] converts
    both operands with [ToInt32] and [>>> 0] converts with [ToUint32]; every
    intermediate product [hash * 33] has magnitude below [2^37], so the
    double-precision arithmetic of the source is exact and [Z] models it. *)

Definition toInt32 (x : Z) : Z := (x + 2 ^ 31) mod 2 ^ 32 - 2 ^ 31.

Definition toUint32 (x : Z) : Z := x mod 2 ^ 32.

Definition xor32 (a b : Z) : Z := Z.lxor (toInt32 a) (toInt32 b).

(** [str.charCodeAt(i)]; out of range it is [NaN], which [ToInt32] maps
    to [0]. *)
Definition charCodeAt (str : list Z) (i : nat) : Z := nth i str 0.

(** The [while (i)] loop, with [i] counting down from [str.length]. *)
Fixpoint hashLoop (str : list Z) (i : nat) (hash : Z) : Z :=
  match i with
  | O => hash
  | S i' => hashLoop str i' (xor32 (hash * 33) (charCodeAt str i'))
  end.

Definition hash (str : list Z) : Z :=
  toUint32 (hashLoop str (length str) 5381).

(** The argument of [toArray] (src/src/debounce.ts, lines 313-323): [null],
    [undefined], an array, or any other value. *)
Inductive value (T : Type) : Type :=
| Null : value T
| Undefined : value T
| Array : list T -> value T
| Other : T -> value T.

Arguments Null {T}.
Arguments Undefined {T}.
Arguments Array {T} _.
Arguments Other {T} _.

Definition toArray {T : Type} (v : value T) : list T :=
  match v with
  | Null | Undefined => []
  | Array l => l
  | Other x => [x]
  end.

(** ** Further schedules for the scenarios *)

(** Two calls [50] apart and the timers that follow them, run on time. *)
Definition twoCallsAndTimers : list (event nat unit) :=
  [Call 0 tt [1%nat]; Call 50 tt [2%nat]; Fire 0 100; Fire 1 150].

(** Calls that keep a throttled wrapper under pressure, with the timers
    that run in between. *)
Definition steadyCalls : list (event nat unit) :=
  [Call 0 tt [0%nat]; Call 50 tt [1%nat]; Fire 0 100; Call 140 tt [2%nat];
   Call 230 tt [3%nat]; Fire 1 240].

(** [throttle(func, 100, { leading: false })] called every [50]: a punctual
    schedule up to the call at [150]. *)
Definition throttleEvery50 : list (event nat unit) :=
  [Call 0 tt [0%nat]; Call 50 tt [1%nat]; Fire 0 100; Call 100 tt [2%nat];
   Call 150 tt [3%nat]].

(** * Properties *)

(** Case analysis on the innermost scrutinee of the goal, as long as it is
    a boolean, an option, a sum or a callback. *)
Ltac split_on x :=
  lazymatch x with
  | context [match _ with _ => _ end] => fail
  | _ => idtac
  end;
  lazymatch type of x with
  | bool => destruct x eqn:?
  | option _ => destruct x eqn:?
  | sum _ _ => destruct x eqn:?
  | callback => destruct x eqn:?
  end.

Ltac split_cases :=
  repeat match goal with
         | |- context [match ?x with _ => _ end] => split_on x; cbn
         end.

(** Boolean comparisons in the context, as propositions. *)
Ltac reflect_comparisons :=
  repeat match goal with
         | H : Nat.eqb _ _ = true |- _ => apply Nat.eqb_eq in H
         | H : Nat.eqb _ _ = false |- _ => apply Nat.eqb_neq in H
         | H : (_ <=? _) = true |- _ => apply Z.leb_le in H
         | H : (_ <=? _) = false |- _ => apply Z.leb_gt in H
         | H : (_ <? _) = true |- _ => apply Z.ltb_lt in H
         | H : (_ <? _) = false |- _ => apply Z.ltb_ge in H
         | H : (_ =? _) = true |- _ => apply Z.eqb_eq in H
         | H : (_ =? _) = false |- _ => apply Z.eqb_neq in H
         end.

Ltac unfold_debounce :=
  cbv [Debounce.step Debounce.fire Debounce.debounced Debounce.flush
       Debounce.cancel Debounce.timerExpired Debounce.maxTimerExpired
       Debounce.leadingEdge Debounce.trailingEdge Debounce.shouldInvoke
       Debounce.remainingWait orZero applied
       Debounce.schedule Debounce.unschedule Debounce.invokeFunc
       Debounce.record
       Debounce.set_clock Debounce.set_queue Debounce.set_timeout
       Debounce.set_maxTimeout Debounce.set_lastArgs Debounce.set_lastThis
       Debounce.set_lastCallTime Debounce.set_lastInvokeTime
       Debounce.set_result
       Debounce.timeout Debounce.maxTimeout Debounce.lastArgs
       Debounce.lastThis Debounce.result Debounce.lastCallTime
       Debounce.lastInvokeTime Debounce.queue Debounce.fresh
       Debounce.clock Debounce.journal isNull negb andb orb option_map
       fst snd].

Ltac unfold_throttle :=
  cbv [Throttle.step Throttle.fire Throttle.throttled Throttle.flush
       Throttle.cancel Throttle.timerExpired
       Throttle.leadingEdge Throttle.trailingEdge Throttle.shouldInvoke
       Throttle.remainingWait orZero applied
       Throttle.schedule Throttle.unschedule Throttle.invokeFunc
       Throttle.record
       Throttle.set_clock Throttle.set_queue Throttle.set_timeout
       Throttle.set_lastArgs Throttle.set_lastThis
       Throttle.set_lastCallTime Throttle.set_lastInvokeTime
       Throttle.set_result
       Throttle.timeout Throttle.lastArgs
       Throttle.lastThis Throttle.result Throttle.lastCallTime
       Throttle.lastInvokeTime Throttle.queue Throttle.fresh
       Throttle.clock Throttle.journal isNull negb andb orb option_map
       fst snd].

(** ** Throttle: the window scenario *)

Section ThrottleScenario.

Context {V This Res Exn : Type}.
Variable func : option This -> list V -> Res + Exn.

(** C6.  [throttle(func, 100)] with default options: three calls at
    [t = 0], one call at [t = 50], the timer running at [t = 100].  The
    callable has run once (first call's receiver and arguments, at
    [t = 0]) after the three calls, still once after the call at
    [t = 50], which leaves the single timer due at [100], and exactly
    twice after that timer has run, the second time at [t = 100] with the
    receiver and arguments of the call at [t = 50]. *)
Theorem throttle_window_scenario :
  forall (th1 th2 th3 th4 : This) (a1 a2 a3 a4 : list V),
    let burst := [Call 0 th1 a1; Call 0 th2 a2; Call 0 th3 a3] in
    let go := Throttle.run func 100 true true Throttle.initial in
    option_map Throttle.journal (go burst)
      = Some [Invocation 0 (Some th1) a1]
    /\ option_map Throttle.journal (go (burst ++ [Call 50 th4 a4]))
      = Some [Invocation 0 (Some th1) a1]
    /\ option_map Throttle.queue (go (burst ++ [Call 50 th4 a4]))
      = Some [Timer 0 TimerExpired 100]
    /\ option_map Throttle.journal
         (go (burst ++ [Call 50 th4 a4; Fire 0 100]))
      = Some [Invocation 0 (Some th1) a1; Invocation 100 (Some th4) a4].
Proof.
  intros th1 th2 th3 th4 a1 a2 a3 a4.
  vm_compute.
  destruct (func (Some th1) a1) as [r1 | e1];
    destruct (func (Some th4) a4) as [r4 | e4]; auto.
Qed.

End ThrottleScenario.

(** ** The first call after [cancel()] *)

Section AfterCancel.

Context {V This Res Exn : Type}.
Variable func : option This -> list V -> Res + Exn.
Variable wait : Z.
Variable trailing : bool.
Variable maxWait : option Z.

Lemma debounce_cancel_resets (s : Debounce.state V This Res) :
  let s' := fst (Debounce.cancel (Exn := Exn) s) in
  Debounce.timeout s' = None /\ Debounce.maxTimeout s' = None /\
  Debounce.lastArgs s' = None /\ Debounce.lastThis s' = None /\
  Debounce.lastCallTime s' = None /\ Debounce.lastInvokeTime s' = 0 /\
  Debounce.journal s' = Debounce.journal s /\
  Debounce.result s' = Debounce.result s.
Proof.
  destruct s as [to mto la lt r lc li q n c j].
  destruct to, mto; cbn; repeat split; reflexivity.
Qed.

Lemma throttle_cancel_resets (s : Throttle.state V This Res) :
  let s' := fst (Throttle.cancel (Exn := Exn) s) in
  Throttle.timeout s' = None /\
  Throttle.lastArgs s' = None /\ Throttle.lastThis s' = None /\
  Throttle.lastCallTime s' = None /\ Throttle.lastInvokeTime s' = 0 /\
  Throttle.journal s' = Throttle.journal s /\
  Throttle.result s' = Throttle.result s.
Proof.
  destruct s as [to la lt r lc li q n c j].
  destruct to; cbn; repeat split; reflexivity.
Qed.

(** C10.  Whatever the state of either governor, right after [cancel()]
    the closure variables are those of a new wrapper ([lastCallTime] is
    [null], [lastInvokeTime] is [0], nothing pending), [shouldInvoke]
    holds at every time, and with [leading = true] the next call runs
    the callable at once with its own receiver and arguments and hands
    the callable's outcome to the caller. *)
Theorem call_after_cancel_is_a_first_call :
  forall (sd : Debounce.state V This Res) (st : Throttle.state V This Res)
         (time : Z) (this : This) (args : list V),
    let sd' := fst (Debounce.cancel (Exn := Exn) sd) in
    let st' := fst (Throttle.cancel (Exn := Exn) st) in
    (Debounce.lastCallTime sd' = None /\ Debounce.lastInvokeTime sd' = 0
     /\ Debounce.timeout sd' = None /\ Debounce.lastArgs sd' = None
     /\ Debounce.shouldInvoke wait maxWait time sd' = true
     /\ option_map (fun p => (Debounce.journal (fst p), snd p))
          (Debounce.step func wait true trailing maxWait sd'
             (Call time this args))
        = Some (Debounce.journal sd ++ [Invocation time (Some this) args],
                outcomeOf (func (Some this) args)))
    /\
    (Throttle.lastCallTime st' = None /\ Throttle.lastInvokeTime st' = 0
     /\ Throttle.timeout st' = None /\ Throttle.lastArgs st' = None
     /\ Throttle.shouldInvoke wait time st' = true
     /\ option_map (fun p => (Throttle.journal (fst p), snd p))
          (Throttle.step func wait true trailing st'
             (Call time this args))
        = Some (Throttle.journal st ++ [Invocation time (Some this) args],
                outcomeOf (func (Some this) args))).
Proof.
  intros sd st time this args sd' st'.
  split.
  - destruct sd as [to mto la lt r lc li q n c j].
    subst sd'.
    destruct to, mto; cbn; repeat split; try reflexivity;
      unfold Debounce.debounced, Debounce.leadingEdge; cbn;
      destruct maxWait; cbn; unfold Debounce.invokeFunc; cbn;
      destruct (func (Some this) args); reflexivity.
  - destruct st as [to la lt r lc li q n c j].
    subst st'.
    destruct to; cbn; repeat split; try reflexivity;
      unfold Throttle.throttled, Throttle.leadingEdge; cbn;
      unfold Throttle.invokeFunc; cbn;
      destruct (func (Some this) args); reflexivity.
Qed.

End AfterCancel.

(** ** A callable that throws *)

Section FailingCallable.

Context {V This Res Exn : Type}.

(** The callable's behaviour reaches the closure variables through
    [result] alone: two runs of one event under different callables, from
    states that agree up to [result], agree up to [result] again. *)
Lemma debounce_step_bookkeeping
  (f g : option This -> list V -> Res + Exn) wait leading trailing maxWait
  (s1 s2 : Debounce.state V This Res) (e : event V This) :
  Debounce.bookkeeping s1 = Debounce.bookkeeping s2 ->
  option_map (fun p => Debounce.bookkeeping (fst p))
    (Debounce.step f wait leading trailing maxWait s1 e)
  = option_map (fun p => Debounce.bookkeeping (fst p))
    (Debounce.step g wait leading trailing maxWait s2 e).
Proof.
  destruct s1 as [to mto la lt r lc li q n c j].
  destruct s2 as [to' mto' la' lt' r' lc' li' q' n' c' j'].
  unfold Debounce.bookkeeping; cbn.
  intros H; injection H as -> -> -> -> -> -> -> -> -> ->.
  destruct e as [time this args | h time | | time];
    unfold_debounce;
    split_cases; reflexivity.
Qed.

Lemma throttle_step_bookkeeping
  (f g : option This -> list V -> Res + Exn) wait leading trailing
  (s1 s2 : Throttle.state V This Res) (e : event V This) :
  Throttle.bookkeeping s1 = Throttle.bookkeeping s2 ->
  option_map (fun p => Throttle.bookkeeping (fst p))
    (Throttle.step f wait leading trailing s1 e)
  = option_map (fun p => Throttle.bookkeeping (fst p))
    (Throttle.step g wait leading trailing s2 e).
Proof.
  destruct s1 as [to la lt r lc li q n c j].
  destruct s2 as [to' la' lt' r' lc' li' q' n' c' j'].
  unfold Throttle.bookkeeping; cbn.
  intros H; injection H as -> -> -> -> -> -> -> -> ->.
  destruct e as [time this args | h time | | time];
    unfold_throttle;
    split_cases; reflexivity.
Qed.

(** C9.  When the callable throws during an invocation, in either
    governor, the exception reaches the caller and the bookkeeping is
    what a successful invocation leaves: [lastInvokeTime] is the
    invocation time, the pending arguments and receiver are cleared, the
    timer handle is untouched, and the whole state is the one any other
    callable would have left, up to the cached [result].  The same holds
    for every event of the wrapper as a whole. *)
Theorem throwing_callable_keeps_bookkeeping :
  forall (func : option This -> list V -> Res + Exn) (time : Z)
         (sd : Debounce.state V This Res) (st : Throttle.state V This Res) (ed et : Exn),
    func (Debounce.lastThis sd) (applied (Debounce.lastArgs sd)) = inr ed ->
    func (Throttle.lastThis st) (applied (Throttle.lastArgs st)) = inr et ->
    (let r := Debounce.invokeFunc func time sd in
     snd r = Threw ed
     /\ Debounce.lastInvokeTime (fst r) = time
     /\ Debounce.lastArgs (fst r) = None
     /\ Debounce.lastThis (fst r) = None
     /\ Debounce.timeout (fst r) = Debounce.timeout sd
     /\ (forall g : option This -> list V -> Res + Exn,
            Debounce.bookkeeping (fst (Debounce.invokeFunc g time sd))
                   = Debounce.bookkeeping (fst r))
     /\ (forall (g : option This -> list V -> Res + Exn)
                 wait leading trailing maxWait e,
            option_map (fun p => Debounce.bookkeeping (fst p))
              (Debounce.step func wait leading trailing maxWait sd e)
            = option_map (fun p => Debounce.bookkeeping (fst p))
                (Debounce.step g wait leading trailing maxWait sd e)))
    /\
    (let r := Throttle.invokeFunc func time st in
     snd r = Threw et
     /\ Throttle.lastInvokeTime (fst r) = time
     /\ Throttle.lastArgs (fst r) = None
     /\ Throttle.lastThis (fst r) = None
     /\ Throttle.timeout (fst r) = Throttle.timeout st
     /\ (forall g : option This -> list V -> Res + Exn,
            Throttle.bookkeeping (fst (Throttle.invokeFunc g time st))
                   = Throttle.bookkeeping (fst r))
     /\ (forall (g : option This -> list V -> Res + Exn)
                 wait leading trailing e,
            option_map (fun p => Throttle.bookkeeping (fst p))
              (Throttle.step func wait leading trailing st e)
            = option_map (fun p => Throttle.bookkeeping (fst p))
                (Throttle.step g wait leading trailing st e))).
Proof.
  intros func time sd st ed et Hd Ht.
  split.
  - unfold Debounce.invokeFunc.
    rewrite Hd.
    repeat split; try reflexivity.
    + intros g.
      destruct (g (Debounce.lastThis sd) (applied (Debounce.lastArgs sd)));
        reflexivity.
    + intros; now apply debounce_step_bookkeeping.
  - unfold Throttle.invokeFunc.
    rewrite Ht.
    repeat split; try reflexivity.
    + intros g.
      destruct (g (Throttle.lastThis st) (applied (Throttle.lastArgs st)));
        reflexivity.
    + intros; now apply throttle_step_bookkeeping.
Qed.

End FailingCallable.

(** [alwaysThrows] wrapped both ways, a call pending, the invocation made
    at [100]. *)
Lemma throwing_callable_keeps_bookkeeping_witness :
  alwaysThrows (Some tt) [7%nat] = inr tt
  /\ Debounce.lastInvokeTime
       (fst (Debounce.invokeFunc alwaysThrows 100 debouncePending)) = 100
  /\ Throttle.lastInvokeTime
       (fst (Throttle.invokeFunc alwaysThrows 100 throttlePending)) = 100.
Proof.
  split; [reflexivity |].
  pose proof (throwing_callable_keeps_bookkeeping alwaysThrows 100
                debouncePending throttlePending tt tt eq_refl eq_refl)
    as [Hd Ht].
  split; [apply Hd | apply Ht].
Defined.

(** ** [lastInvokeTime] over time *)

Section LastInvokeTime.

Context {V This Res Exn : Type}.
Variable func : option This -> list V -> Res + Exn.
Variable wait : Z.
Variable leading trailing : bool.
Variable maxWait : option Z.

Lemma debounce_step_lastInvokeTime (s : Debounce.state V This Res) (e : event V This) :
  debounceTimely s ->
  Debounce.chronological s e = true ->
  match Debounce.step func wait leading trailing maxWait s e with
  | Some (s', _) =>
      debounceTimely s'
      /\ (isCancel e = false ->
          Debounce.lastInvokeTime s <= Debounce.lastInvokeTime s')
      /\ (isCancel e = true -> Debounce.lastInvokeTime s' = 0)
  | None => True
  end.
Proof.
  destruct s as [to mto la lt r lc li q n c j].
  unfold debounceTimely, Debounce.chronological.
  destruct e as [time this args | h time | | time]; cbn;
    intros [Hc Hli] Ht; reflect_comparisons;
    unfold_debounce; split_cases;
    repeat split; intros; try discriminate; cbn; lia.
Qed.

Lemma throttle_step_lastInvokeTime (s : Throttle.state V This Res) (e : event V This) :
  throttleTimely s ->
  Throttle.chronological s e = true ->
  match Throttle.step func wait leading trailing s e with
  | Some (s', _) =>
      throttleTimely s'
      /\ (isCancel e = false ->
          Throttle.lastInvokeTime s <= Throttle.lastInvokeTime s')
      /\ (isCancel e = true -> Throttle.lastInvokeTime s' = 0)
  | None => True
  end.
Proof.
  destruct s as [to la lt r lc li q n c j].
  unfold throttleTimely, Throttle.chronological.
  destruct e as [time this args | h time | | time]; cbn;
    intros [Hc Hli] Ht; reflect_comparisons;
    unfold_throttle; split_cases;
    repeat split; intros; try discriminate; cbn; lia.
Qed.

Lemma debounce_run_timely (es : list (event V This)) :
  forall s s',
    debounceTimely s ->
    Debounce.runWhere func wait leading trailing maxWait
      Debounce.chronological s es = Some s' ->
    debounceTimely s'.
Proof.
  induction es as [| e es IH]; intros s s' Hs Hrun; cbn in Hrun.
  - now injection Hrun as <-.
  - destruct (Debounce.chronological s e) eqn:Hchr; [| discriminate].
    pose proof (debounce_step_lastInvokeTime s e Hs Hchr) as Hstep.
    destruct (Debounce.step func wait leading trailing maxWait s e)
      as [[s1 o] |]; [| discriminate].
    eapply IH; [apply Hstep | exact Hrun].
Qed.

Lemma debounce_run_lastInvokeTime (es : list (event V This)) :
  forall s s',
    debounceTimely s ->
    Debounce.runWhere func wait leading trailing maxWait
      Debounce.chronological s es = Some s' ->
    existsb isCancel es = false ->
    Debounce.lastInvokeTime s <= Debounce.lastInvokeTime s'.
Proof.
  induction es as [| e es IH]; intros s s' Hs Hrun Hnc; cbn in Hrun, Hnc.
  - injection Hrun as <-. lia.
  - apply orb_false_elim in Hnc as [He Hes].
    destruct (Debounce.chronological s e) eqn:Hchr; [| discriminate].
    pose proof (debounce_step_lastInvokeTime s e Hs Hchr) as Hstep.
    destruct (Debounce.step func wait leading trailing maxWait s e)
      as [[s1 o] |]; [| discriminate].
    destruct Hstep as (Hs1 & Hle & _).
    specialize (IH s1 s' Hs1 Hrun Hes).
    specialize (Hle He). lia.
Qed.

Lemma throttle_run_timely (es : list (event V This)) :
  forall s s',
    throttleTimely s ->
    Throttle.runWhere func wait leading trailing
      Throttle.chronological s es = Some s' ->
    throttleTimely s'.
Proof.
  induction es as [| e es IH]; intros s s' Hs Hrun; cbn in Hrun.
  - now injection Hrun as <-.
  - destruct (Throttle.chronological s e) eqn:Hchr; [| discriminate].
    pose proof (throttle_step_lastInvokeTime s e Hs Hchr) as Hstep.
    destruct (Throttle.step func wait leading trailing s e)
      as [[s1 o] |]; [| discriminate].
    eapply IH; [apply Hstep | exact Hrun].
Qed.

Lemma throttle_run_lastInvokeTime (es : list (event V This)) :
  forall s s',
    throttleTimely s ->
    Throttle.runWhere func wait leading trailing
      Throttle.chronological s es = Some s' ->
    existsb isCancel es = false ->
    Throttle.lastInvokeTime s <= Throttle.lastInvokeTime s'.
Proof.
  induction es as [| e es IH]; intros s s' Hs Hrun Hnc; cbn in Hrun, Hnc.
  - injection Hrun as <-. lia.
  - apply orb_false_elim in Hnc as [He Hes].
    destruct (Throttle.chronological s e) eqn:Hchr; [| discriminate].
    pose proof (throttle_step_lastInvokeTime s e Hs Hchr) as Hstep.
    destruct (Throttle.step func wait leading trailing s e)
      as [[s1 o] |]; [| discriminate].
    destruct Hstep as (Hs1 & Hle & _).
    specialize (IH s1 s' Hs1 Hrun Hes).
    specialize (Hle He). lia.
Qed.

(** C4, as amended.  Under a clock that starts at [0] and never runs
    backwards, in both governors, [lastInvokeTime] does not decrease
    over any stretch of calls, timer firings and flushes of a history of
    the wrapper; and [cancel()] sets it to [0]. *)
Theorem lastInvokeTime_monotone_between_cancels :
  (forall (before stretch : list (event V This)) (s1 s2 : Debounce.state V This Res),
      Debounce.runWhere func wait leading trailing maxWait
        Debounce.chronological Debounce.initial before = Some s1 ->
      Debounce.runWhere func wait leading trailing maxWait
        Debounce.chronological s1 stretch = Some s2 ->
      existsb isCancel stretch = false ->
      Debounce.lastInvokeTime s1 <= Debounce.lastInvokeTime s2)
  /\ (forall (before stretch : list (event V This)) (s1 s2 : Throttle.state V This Res),
      Throttle.runWhere func wait leading trailing
        Throttle.chronological Throttle.initial before = Some s1 ->
      Throttle.runWhere func wait leading trailing
        Throttle.chronological s1 stretch = Some s2 ->
      existsb isCancel stretch = false ->
      Throttle.lastInvokeTime s1 <= Throttle.lastInvokeTime s2)
  /\ (forall s : Debounce.state V This Res,
         Debounce.lastInvokeTime (fst (Debounce.cancel (Exn := Exn) s)) = 0)
  /\ (forall s : Throttle.state V This Res,
         Throttle.lastInvokeTime (fst (Throttle.cancel (Exn := Exn) s)) = 0).
Proof.
  split; [| split; [| split]].
  - intros before stretch s1 s2 H1 H2 Hnc.
    eapply debounce_run_lastInvokeTime; [| exact H2 | exact Hnc].
    eapply debounce_run_timely; [| exact H1].
    unfold debounceTimely; cbn; lia.
  - intros before stretch s1 s2 H1 H2 Hnc.
    eapply throttle_run_lastInvokeTime; [| exact H2 | exact Hnc].
    eapply throttle_run_timely; [| exact H1].
    unfold throttleTimely; cbn; lia.
  - intros s. apply (debounce_cancel_resets s).
  - intros s. apply (throttle_cancel_resets s).
Qed.

End LastInvokeTime.

(** [cancel()] lowers [lastInvokeTime]: a call at [100] sets it to [100]
    in both governors, the cancellation that follows sets it back to
    [0]. *)
Lemma cancel_lowers_lastInvokeTime :
  option_map Debounce.lastInvokeTime
    (Debounce.runWhere countArgs 100 false true None Debounce.chronological
       Debounce.initial [Call 100 tt [1%nat]]) = Some 100
  /\ option_map Debounce.lastInvokeTime
       (Debounce.runWhere countArgs 100 false true None Debounce.chronological
          Debounce.initial [Call 100 tt [1%nat]; Cancel]) = Some 0
  /\ option_map Throttle.lastInvokeTime
       (Throttle.runWhere countArgs 100 true true Throttle.chronological
          Throttle.initial [Call 100 tt [1%nat]]) = Some 100
  /\ option_map Throttle.lastInvokeTime
       (Throttle.runWhere countArgs 100 true true Throttle.chronological
          Throttle.initial [Call 100 tt [1%nat]; Cancel]) = Some 0.
Proof. vm_compute. repeat split; reflexivity. Qed.

(** A debounced wrapper called at [10] and at [60], whose timer then runs
    at [110] and at [160]. *)
Lemma lastInvokeTime_monotone_between_cancels_witness :
  exists s1 s2,
    Debounce.runWhere countArgs 100 false true None Debounce.chronological
      Debounce.initial [Call 10 tt [1%nat]; Call 60 tt [2%nat]] = Some s1
    /\ Debounce.runWhere countArgs 100 false true None Debounce.chronological
         s1 [Fire 0 110; Fire 1 160] = Some s2
    /\ Debounce.lastInvokeTime s1 <= Debounce.lastInvokeTime s2.
Proof.
  eexists. eexists.
  split; [vm_compute; reflexivity |].
  split; [vm_compute; reflexivity |].
  apply (proj1 (lastInvokeTime_monotone_between_cancels countArgs 100 false
                  true None)
           [Call 10 tt [1%nat]; Call 60 tt [2%nat]]
           [Fire 0 110; Fire 1 160]);
    vm_compute; reflexivity.
Defined.

(** ** Both edges switched off *)

Section NoEdges.

Context {V This Res Exn : Type}.
Variable func : option This -> list V -> Res + Exn.
Variable wait : Z.

Lemma debounce_no_edges_step (s : Debounce.state V This Res) (e : event V This) :
  match Debounce.step func wait false false None s e with
  | Some (s', _) => Debounce.journal s' = Debounce.journal s
  | None => True
  end.
Proof.
  destruct s as [to mto la lt r lc li q n c j].
  destruct e as [time this args | h time | | time];
    unfold_debounce; split_cases; reflexivity || exact I.
Qed.

(** C3, as amended.  A debounced wrapper with [leading = false],
    [trailing = false] and no [maxWait] never runs the callable: over
    every sequence of calls, timer firings, flushes and cancellations,
    from every state, the journal of invocations stays as it was. *)
Theorem debounce_no_edges_no_maxWait_never_invokes :
  forall (es : list (event V This)) (s s' : Debounce.state V This Res),
    Debounce.run func wait false false None s es = Some s' ->
    Debounce.journal s' = Debounce.journal s.
Proof.
  induction es as [| e es IH]; intros s s' Hrun; cbn in Hrun.
  - now injection Hrun as <-.
  - pose proof (debounce_no_edges_step s e) as Hstep.
    destruct (Debounce.step func wait false false None s e)
      as [[s1 o] |]; [| discriminate].
    rewrite (IH s1 s' Hrun). exact Hstep.
Qed.

End NoEdges.

(** With [maxWait] the callable does run although both edges are off:
    [debounce(countArgs, 100, { leading: false, trailing: false, maxWait: 50 })],
    a call at [0], the escape timer running on time at [50] (it does
    nothing), a call at [60]: the [maxWait] branch of [debounced] invokes. *)
Lemma debounce_no_edges_with_maxWait_invokes :
  option_map Debounce.journal
    (Debounce.runWhere countArgs 100 false false (Some 50) Debounce.punctual
       Debounce.initial
       [Call 0 tt [1%nat]; Fire 1 50; Call 60 tt [2%nat]])
  = Some [Invocation 60 (Some tt) [2%nat]].
Proof. vm_compute. reflexivity. Qed.

(** A call, the timer on time, a flush and a cancellation, with both edges
    off and no [maxWait]. *)
Lemma debounce_no_edges_no_maxWait_never_invokes_witness :
  exists s,
    Debounce.run countArgs 100 false false None Debounce.initial
      [Call 0 tt [1%nat]; Fire 0 100; Flush 150; Cancel] = Some s
    /\ Debounce.journal s = [].
Proof.
  eexists. split; [vm_compute; reflexivity |].
  apply (debounce_no_edges_no_maxWait_never_invokes countArgs 100
           [Call 0 tt [1%nat]; Fire 0 100; Flush 150; Cancel]
           Debounce.initial).
  vm_compute. reflexivity.
Defined.

(** ** How many primary timers are live *)

Section PrimaryTimers.

Context {V This Res Exn : Type}.
Variable func : option This -> list V -> Res + Exn.

(** C1 fails on the code when [maxWait] is set.
    [debounce(func, 100, { maxWait: 50 })]: a call at [0] schedules the
    primary timer (handle [0], due at [100]) and the escape timer
    (handle [1], due at [50]).
    - The escape timer runs on time; [trailingEdge] forgets the primary
      handle without clearing it, so the call at [60] finds [timeout]
      empty and schedules a second primary timer.
    - Or the second call comes at [50], before the escape timer has run;
      the [maxWait] branch of [debounced] overwrites [timeout] without
      clearing the old handle.
    Either way two primary timers are live, [cancel()] clears only the
    one [timeout] names, and the other is still live after it. *)
Theorem debounce_maxWait_two_primary_timers :
  forall (this : This) (a1 a2 : list V),
    let go := Debounce.runWhere func 100 false true (Some 50)
                Debounce.punctual Debounce.initial in
    option_map (fun s => (Debounce.timeout s, primaryTimers (Debounce.queue s)))
      (go [Call 0 this a1; Fire 1 50; Call 60 this a2])
    = Some (Some 2%nat,
            [Timer 0 TimerExpired 100; Timer 2 TimerExpired 160])
    /\ option_map (fun s => (Debounce.timeout s, primaryTimers (Debounce.queue s)))
         (go [Call 0 this a1; Call 50 this a2])
       = Some (Some 2%nat,
               [Timer 0 TimerExpired 100; Timer 2 TimerExpired 150])
    /\ option_map (fun s => (Debounce.timeout s, Debounce.queue s))
         (go [Call 0 this a1; Call 50 this a2; Cancel])
       = Some (None, [Timer 0 TimerExpired 100]).
Proof.
  intros this a1 a2.
  vm_compute.
  destruct (func (Some this) a1), (func (Some this) a2); auto.
Qed.

End PrimaryTimers.

Section WithoutMaxWait.

Context {V This Res Exn : Type}.
Variable func : option This -> list V -> Res + Exn.
Variable wait : Z.
Variable leading trailing : bool.

Lemma tidy_step (s : Debounce.state V This Res) (e : event V This) :
  tidy s ->
  isCallOrFire e || isCancel e = true ->
  match Debounce.step func wait leading trailing None s e with
  | Some (s', _) => tidy s'
  | None => True
  end.
Proof.
  destruct s as [to mto la lt r lc li q n ck j].
  unfold tidy. cbn.
  intros [-> [[-> ->] | (h & d & -> & ->)]] He;
    destruct e as [time this args | k time | | time]; try discriminate;
    unfold_debounce;
    cbv [lookupTimer clearTimeout setTimeout find filter app handle action
         due];
    rewrite ?Nat.eqb_refl; cbn [negb];
    split_cases; try exact I;
    (split; [reflexivity |]);
    first [ left; split; reflexivity
          | right; eexists; eexists; split; reflexivity ].
Qed.

(** Without [maxWait], calls, timer firings and cancellations keep at most
    one primary timer live. *)
Lemma debounce_one_primary_timer_without_maxWait (es : list (event V This)) :
  forall s s' : Debounce.state V This Res,
    tidy s ->
    forallb (fun e => isCallOrFire e || isCancel e) es = true ->
    Debounce.run func wait leading trailing None s es = Some s' ->
    tidy s' /\ (length (primaryTimers (Debounce.queue s')) <= 1)%nat.
Proof.
  induction es as [| e es IH]; intros s s' Hs Hes Hrun;
    cbn [forallb Debounce.run] in Hes, Hrun.
  - injection Hrun as <-. split; [exact Hs |].
    destruct Hs as [_ [[_ ->] | (h & d & _ & ->)]]; cbn; lia.
  - apply andb_prop in Hes as [He Hes].
    pose proof (tidy_step s e Hs He) as Hstep.
    destruct (Debounce.step func wait leading trailing None s e)
      as [[s1 o] |]; [| discriminate].
    exact (IH s1 s' Hstep Hes Hrun).
Qed.

End WithoutMaxWait.

(** ** A burst of calls, default options *)

Section Burst.

Context {V This Res Exn : Type}.
Variable func : option This -> list V -> Res + Exn.
Variable wait : Z.
Hypothesis wait_nonneg : 0 <= wait.

Local Abbreviation step := (Debounce.step func wait false true None).
Local Abbreviation punctualRun :=
  (Debounce.runWhere func wait false true None Debounce.punctual).

Ltac split_conditions :=
  repeat match goal with
         | H : _ && _ = true |- _ => apply andb_prop in H as [? ?]
         end.

Ltac unfold_host :=
  cbv [noneOverdue forallb lookupTimer clearTimeout setTimeout find filter
       app handle action due].

Ltac open_punctual H :=
  cbv [Debounce.punctual Debounce.chronological eventTime noneOverdue
       forallb lookupTimer find handle action due Debounce.queue
       Debounce.clock] in H.

Ltac open_burst H :=
  destruct H as (h & d & Hto & Hmto & Hla & Hlt & Hlc & Hq & Hck & Hd & Hj);
  cbn in Hto, Hmto, Hla, Hlt, Hlc, Hq, Hck, Hd, Hj; subst.

Lemma first_call (time : Z) (this : This) (args : list V) :
  0 <= time ->
  Debounce.punctual (@Debounce.initial V This Res) (Call time this args)
  = true
  /\ match step Debounce.initial (Call time this args) with
     | Some (s', _) =>
         bursting wait (Request time this args) s'
         /\ Debounce.clock s' = time
     | None => False
     end.
Proof.
  intros Ht. split.
  - cbv [Debounce.punctual Debounce.chronological eventTime noneOverdue
         forallb Debounce.initial Debounce.queue Debounce.clock].
    apply Z.leb_le in Ht. now rewrite Ht.
  - unfold_debounce. cbn. split; [| reflexivity].
    exists 0%nat, (time + Z.max 0 wait).
    cbn. repeat split; try reflexivity; lia.
Qed.

Lemma burst_call (c : request V This) (s : Debounce.state V This Res)
  (time : Z) (this : This) (args : list V) :
  bursting wait c s ->
  Debounce.punctual s (Call time this args) = true ->
  req_time c <= time < req_time c + wait ->
  match step s (Call time this args) with
  | Some (s', _) =>
      bursting wait (Request time this args) s'
      /\ Debounce.clock s' = time
  | None => False
  end.
Proof.
  destruct s as [to mto la lt r lc li q n ck j]; destruct c as [ct cth ca].
  intros Hb Hp Ht. open_burst Hb. cbn in Ht.
  open_punctual Hp. split_conditions. reflect_comparisons.
  unfold_debounce. cbn.
  split_cases; reflect_comparisons; try lia.
  all: split; [| reflexivity].
  all: exists h, d; cbn; repeat split; try reflexivity; lia.
Qed.

(** The timer of a burst can always be run on time. *)
Lemma burst_timer (c : request V This) (s : Debounce.state V This Res) :
  bursting wait c s ->
  exists h d,
    Debounce.queue s = [Timer h TimerExpired d]
    /\ Debounce.clock s <= d
    /\ d <= req_time c + wait
    /\ Debounce.punctual s (Fire h d) = true.
Proof.
  destruct s as [to mto la lt r lc li q n ck j]; destruct c as [ct cth ca].
  intros Hb. open_burst Hb.
  exists h, d. cbn in *. repeat split; try lia.
  cbv [Debounce.punctual Debounce.chronological eventTime noneOverdue
       forallb lookupTimer find handle action due Debounce.queue
       Debounce.clock].
  rewrite Nat.eqb_refl, Z.eqb_refl, Z.leb_refl.
  apply Z.leb_le in Hck. now rewrite Hck.
Qed.

(** Running the timer of a burst on time either serves the burst, when
    [wait] has passed since its latest call, or puts the timer back, due
    exactly [wait] after that call. *)
Lemma burst_fire (c : request V This) (s : Debounce.state V This Res)
  (k : nat) (time : Z) :
  bursting wait c s ->
  Debounce.punctual s (Fire k time) = true ->
  match step s (Fire k time) with
  | Some (s', _) =>
      (time = req_time c + wait /\ settled wait c s')
      \/ (time < req_time c + wait
          /\ bursting wait c s'
          /\ Debounce.clock s' = time
          /\ exists h', Debounce.queue s'
                        = [Timer h' TimerExpired (req_time c + wait)])
  | None => False
  end.
Proof.
  destruct s as [to mto la lt r lc li q n ck j]; destruct c as [ct cth ca].
  intros Hb Hp. open_burst Hb.
  open_punctual Hp.
  destruct (Nat.eqb h k) eqn:Hh; split_conditions; try discriminate.
  reflect_comparisons. subst.
  unfold_debounce. unfold_host. rewrite Nat.eqb_refl.
  rewrite Z.leb_refl. cbn.
  split_cases; reflect_comparisons; try lia.
  - left. assert (time = ct + wait) as -> by lia.
    repeat split; reflexivity.
  - left. assert (time = ct + wait) as -> by lia.
    repeat split; reflexivity.
  - right. split; [lia |].
    replace (time + Z.max 0 (wait - (time - ct))) with (ct + wait) by lia.
    split; [| split; [reflexivity | now exists n]].
    exists n, (ct + wait). cbn. repeat split; try reflexivity; lia.
Qed.

Lemma settled_is_final (c : request V This) (s s' : Debounce.state V This Res)
  (es : list (event V This)) :
  settled wait c s ->
  forallb isCallOrFire es = true ->
  spaced wait (c :: callsOf es) ->
  punctualRun s es = Some s' ->
  es = [].
Proof.
  destruct s as [to mto la lt r lc li q n ck j]; destruct c as [ct cth ca].
  intros (Hq & Hck & Hj) Hcf Hsp Hrun. cbn in Hq, Hck, Hj. subst.
  destruct es as [| [time this args | k time | | time] es];
    [reflexivity | | | discriminate | discriminate]; exfalso.
  - cbn in Hsp. cbn [Debounce.runWhere] in Hrun.
    destruct (Debounce.punctual _ _) eqn:Hp in Hrun; [| discriminate].
    open_punctual Hp. split_conditions. reflect_comparisons. lia.
  - cbn [Debounce.runWhere] in Hrun.
    destruct (Debounce.punctual _ _) eqn:Hp in Hrun; [| discriminate].
    open_punctual Hp. split_conditions. discriminate.
Qed.

Lemma last_cons_default {A : Type} (l : list A) (x d : A) :
  last (x :: l) d = last l x.
Proof.
  revert x d. induction l as [| y l IH]; intros x d; [reflexivity |].
  change (last (x :: y :: l) d) with (last (y :: l) d).
  now rewrite (IH y d), (IH y x).
Qed.

(** Every punctual schedule of calls and firings that continues a burst
    with spaced calls and ends with no timer left has served the last
    call, once. *)
Lemma burst_outcome (es : list (event V This)) :
  forall (c : request V This) (s s' : Debounce.state V This Res),
    bursting wait c s ->
    forallb isCallOrFire es = true ->
    spaced wait (c :: callsOf es) ->
    punctualRun s es = Some s' ->
    Debounce.queue s' = [] ->
    Debounce.journal s' = [served wait (last (callsOf es) c)].
Proof.
  induction es as [| e es IH]; intros c s s' Hb Hcf Hsp Hrun Hq.
  - cbn in Hrun. injection Hrun as <-.
    destruct Hb as (h & d & _ & _ & _ & _ & _ & Hq' & _).
    rewrite Hq in Hq'. discriminate.
  - cbn [forallb] in Hcf. apply andb_prop in Hcf as [He Hcf].
    cbn [Debounce.runWhere] in Hrun.
    destruct (Debounce.punctual s e) eqn:Hp; [| discriminate].
    destruct e as [time this args | k time | | time]; try discriminate.
    + cbn [callsOf] in Hsp |- *.
      destruct Hsp as [Ht Hsp].
      pose proof (burst_call c s time this args Hb Hp Ht) as Hstep.
      destruct (step s (Call time this args)) as [[s1 o] |]; [| contradiction].
      destruct Hstep as [Hb1 _].
      rewrite last_cons_default.
      exact (IH _ s1 s' Hb1 Hcf Hsp Hrun Hq).
    + cbn [callsOf] in Hsp |- *.
      pose proof (burst_fire c s k time Hb Hp) as Hstep.
      destruct (step s (Fire k time)) as [[s1 o] |]; [| contradiction].
      destruct Hstep as [[_ Hs1] | (_ & Hb1 & _)].
      * pose proof (settled_is_final c s1 s' es Hs1 Hcf Hsp Hrun) as ->.
        cbn in Hrun. injection Hrun as <-.
        apply Hs1.
      * exact (IH c s1 s' Hb1 Hcf Hsp Hrun Hq).
Qed.

Lemma call_punctual (s : Debounce.state V This Res) (h : nat) (d : Z)
  (time : Z) (this : This) (args : list V) :
  Debounce.queue s = [Timer h TimerExpired d] ->
  Debounce.clock s <= time -> time <= d ->
  Debounce.punctual s (Call time this args) = true.
Proof.
  intros Hq Hck Hd.
  cbv [Debounce.punctual Debounce.chronological eventTime noneOverdue].
  rewrite Hq. cbn [forallb due].
  apply Z.leb_le in Hck, Hd. now rewrite Hck, Hd.
Qed.

(** With no further call, the timers of a burst run out after at most
    two firings. *)
Lemma burst_drains (c : request V This) (s : Debounce.state V This Res) :
  bursting wait c s ->
  exists es s',
    callsOf es = [] /\ forallb isCallOrFire es = true
    /\ punctualRun s es = Some s' /\ Debounce.queue s' = [].
Proof.
  intros Hb.
  destruct (burst_timer c s Hb) as (h & d & Hq & Hck & Hd & Hp).
  pose proof (burst_fire c s h d Hb Hp) as Hstep.
  destruct (step s (Fire h d)) as [[s1 o1] |] eqn:Hs1; [| contradiction].
  destruct Hstep as [[_ Hset] | (Hlt & Hb1 & Hck1 & h' & Hq1)].
  - exists [Fire h d], s1.
    cbn [callsOf forallb isCallOrFire Debounce.runWhere].
    rewrite Hp, Hs1. repeat split. apply Hset.
  - destruct (burst_timer c s1 Hb1) as (h2 & d2 & Hq2 & _ & _ & Hp2).
    rewrite Hq1 in Hq2. injection Hq2 as <- <-.
    pose proof (burst_fire c s1 h' _ Hb1 Hp2) as Hstep2.
    destruct (step s1 (Fire h' (req_time c + wait))) as [[s2 o2] |] eqn:Hs2;
      [| contradiction].
    destruct Hstep2 as [[_ Hset] | (Hlt2 & _)]; [| lia].
    exists [Fire h d; Fire h' (req_time c + wait)], s2.
    cbn [callsOf forallb isCallOrFire Debounce.runWhere].
    rewrite Hp, Hs1, Hp2, Hs2. repeat split. apply Hset.
Qed.

(** Every spaced continuation of a burst has a punctual schedule that
    runs until no timer is left. *)
Lemma burst_schedule (cs : list (request V This)) :
  forall (c : request V This) (s : Debounce.state V This Res),
    bursting wait c s ->
    Debounce.clock s = req_time c ->
    spaced wait (c :: cs) ->
    exists es s',
      callsOf es = cs /\ forallb isCallOrFire es = true
      /\ punctualRun s es = Some s' /\ Debounce.queue s' = [].
Proof.
  induction cs as [| c' cs IH]; intros c s Hb Hclock Hsp.
  - now apply burst_drains with (c := c).
  - destruct Hsp as [Ht Hsp].
    destruct c' as [t' this' args']. cbn [req_time] in Ht.
    destruct (burst_timer c s Hb) as (h & d & Hq & Hck & Hd & Hp).
    destruct (Z_le_gt_dec t' d) as [Hle | Hgt].
    + assert (Hpc : Debounce.punctual s (Call t' this' args') = true)
        by (apply (call_punctual s h d); [exact Hq | lia | lia]).
      pose proof (burst_call c s t' this' args' Hb Hpc Ht) as Hstep.
      destruct (step s (Call t' this' args')) as [[s1 o1] |] eqn:Hs1;
        [| contradiction].
      destruct Hstep as [Hb1 Hck1].
      destruct (IH _ s1 Hb1 Hck1 Hsp) as (es & s' & Hcalls & Hcf & Hrun & Hq').
      exists (Call t' this' args' :: es), s'.
      cbn [callsOf forallb isCallOrFire Debounce.runWhere].
      rewrite Hpc, Hs1, Hcalls. repeat split; assumption.
    + pose proof (burst_fire c s h d Hb Hp) as Hstep.
      destruct (step s (Fire h d)) as [[s1 o1] |] eqn:Hs1; [| contradiction].
      destruct Hstep as [[Heq _] | (Hlt & Hb1 & Hck1 & h' & Hq1)]; [lia |].
      assert (Hpc : Debounce.punctual s1 (Call t' this' args') = true)
        by (apply (call_punctual s1 h' (req_time c + wait));
            [exact Hq1 | lia | lia]).
      pose proof (burst_call c s1 t' this' args' Hb1 Hpc Ht) as Hstep.
      destruct (step s1 (Call t' this' args')) as [[s2 o2] |] eqn:Hs2;
        [| contradiction].
      destruct Hstep as [Hb2 Hck2].
      destruct (IH _ s2 Hb2 Hck2 Hsp) as (es & s' & Hcalls & Hcf & Hrun & Hq').
      exists (Fire h d :: Call t' this' args' :: es), s'.
      cbn [callsOf forallb isCallOrFire Debounce.runWhere].
      rewrite Hp, Hs1, Hpc, Hs2, Hcalls. repeat split; assumption.
Qed.

(** C2.  [debounce(func, wait)] with [leading = false], [trailing = true]
    and no [maxWait], [wait] not negative, called from new by a sequence
    of one or more calls, each no earlier than the one before and less
    than [wait] after it.  Such calls have a punctual schedule on which
    the timers run out; and on every punctual schedule of these calls
    and of timer firings on which the timers run out, the callable has
    run exactly once, with the receiver and arguments of the last call,
    [wait] after that call. *)
Theorem debounce_burst_invokes_once_after_wait :
  forall (cs : list (request V This)) (c : request V This),
    0 <= req_time (hd c cs) ->
    spaced wait (cs ++ [c]) ->
    (exists es s,
        callsOf es = cs ++ [c] /\ forallb isCallOrFire es = true
        /\ punctualRun Debounce.initial es = Some s
        /\ Debounce.queue s = [])
    /\ (forall es s,
           callsOf es = cs ++ [c] ->
           forallb isCallOrFire es = true ->
           punctualRun Debounce.initial es = Some s ->
           Debounce.queue s = [] ->
           Debounce.journal s = [served wait c]).
Proof.
  intros cs c Hstart Hsp.
  assert (Hne : exists c0 rest, cs ++ [c] = c0 :: rest
                                /\ req_time c0 = req_time (hd c cs)).
  { destruct cs as [| c0 cs]; cbn; eauto. }
  destruct Hne as (c0 & rest & Hcs & Hc0).
  split.
  - rewrite Hcs in Hsp |- *.
    destruct c0 as [t0 this0 args0]. cbn [req_time] in Hc0.
    destruct (first_call t0 this0 args0) as [Hp Hstep]; [lia |].
    destruct (step Debounce.initial (Call t0 this0 args0))
      as [[s1 o1] |] eqn:Hs1; [| contradiction].
    destruct Hstep as [Hb1 Hck1].
    destruct (burst_schedule rest _ s1 Hb1 Hck1 Hsp)
      as (es & s' & Hcalls & Hcf & Hrun & Hq').
    exists (Call t0 this0 args0 :: es), s'.
    cbn [callsOf forallb isCallOrFire Debounce.runWhere].
    rewrite Hp, Hs1, Hcalls. repeat split; assumption.
  - intros es s Hcalls Hcf Hrun Hq.
    destruct es as [| e es]; [destruct cs; discriminate |].
    cbn [forallb] in Hcf. apply andb_prop in Hcf as [He Hcf].
    cbn [Debounce.runWhere] in Hrun.
    destruct (Debounce.punctual Debounce.initial e) eqn:Hp; [| discriminate].
    destruct e as [t0 this0 args0 | k time | | time]; try discriminate.
    cbn [callsOf] in Hcalls.
    assert (Ht0 : 0 <= t0).
    { open_punctual Hp. split_conditions. reflect_comparisons.
      assumption. }
    destruct (first_call t0 this0 args0 Ht0) as [_ Hstep].
    destruct (step Debounce.initial (Call t0 this0 args0))
      as [[s1 o1] |]; [| contradiction].
    destruct Hstep as [Hb1 _].
    rewrite <- Hcalls in Hsp.
    rewrite (burst_outcome es _ s1 s Hb1 Hcf Hsp Hrun Hq).
    rewrite <- (last_cons_default _ _ c), Hcalls.
    now rewrite last_last.
Qed.

End Burst.

(** [debounce(countArgs, 100)] called at [0] and at [50]. *)
Lemma debounce_burst_invokes_once_after_wait_witness :
  0 <= 100
  /\ spaced 100 ([Request 0 tt [1%nat]] ++ [Request 50 tt [2%nat]])
  /\ forall es s,
       callsOf es = [Request 0 tt [1%nat]] ++ [Request 50 tt [2%nat]] ->
       forallb isCallOrFire es = true ->
       Debounce.runWhere countArgs 100 false true None Debounce.punctual
         Debounce.initial es = Some s ->
       Debounce.queue s = [] ->
       Debounce.journal s = [Invocation 150 (Some tt) [2%nat]].
Proof.
  assert (H100 : 0 <= 100) by lia.
  assert (Hsp : spaced 100 ([Request 0 tt [1%nat]] ++ [Request 50 tt [2%nat]]))
    by (cbn; lia).
  split; [exact H100 |]. split; [exact Hsp |].
  apply (debounce_burst_invokes_once_after_wait countArgs 100 H100
           [Request 0 tt [1%nat]] (Request 50 tt [2%nat])).
  - cbn. lia.
  - exact Hsp.
Defined.

(** ** Calls followed by [cancel()] *)

Section CancelAfterCalls.

Context {V This Res Exn : Type}.
Variable func : option This -> list V -> Res + Exn.
Variable wait : Z.
Variable trailing : bool.
Variable maxWait : option Z.

Local Abbreviation step := (Debounce.step func wait false trailing maxWait).
Local Abbreviation run := (Debounce.run func wait false trailing maxWait).

Lemma run_app (es1 es2 : list (event V This)) :
  forall s : Debounce.state V This Res,
    run s (es1 ++ es2)
    = match run s es1 with
      | Some s' => run s' es2
      | None => None
      end.
Proof.
  induction es1 as [| e es1 IH]; intros s; cbn; [reflexivity |].
  destruct (step s e) as [[s1 o] |]; [apply IH | reflexivity].
Qed.

Lemma heldBack_first (c0 : request V This) :
  match step Debounce.initial (asCall c0) with
  | Some (s', _) => heldBack wait maxWait (req_time c0) c0 s'
  | None => False
  end.
Proof.
  destruct c0 as [t0 this0 args0].
  unfold heldBack, firstCallTimers, asCall.
  unfold_debounce. cbn.
  destruct maxWait; cbn; repeat split; reflexivity.
Qed.

Lemma heldBack_call (t0 : Z) (c c' : request V This)
  (s : Debounce.state V This Res) :
  heldBack wait maxWait t0 c s ->
  match maxWait with
  | Some mw => req_time c <= req_time c' < req_time c + wait
               /\ req_time c' < t0 + mw
  | None => True
  end ->
  match step s (asCall c') with
  | Some (s', _) => heldBack wait maxWait t0 c' s'
  | None => False
  end.
Proof.
  destruct s as [to mto la lt r lc li q n ck j].
  destruct c as [t this args], c' as [t' this' args'].
  unfold heldBack, firstCallTimers, asCall. cbn.
  intros (-> & -> & -> & -> & -> & ->) Hquiet.
  unfold_debounce. 
  destruct maxWait as [mw |]; split_cases; reflect_comparisons;
    try lia; repeat split; reflexivity.
Qed.

Lemma heldBack_run (cs : list (request V This)) :
  forall (t0 : Z) (c : request V This) (s : Debounce.state V This Res),
    heldBack wait maxWait t0 c s ->
    match maxWait with
    | Some mw => spaced wait (c :: cs)
                 /\ Forall (fun c' => req_time c' < t0 + mw) cs
    | None => True
    end ->
    exists s' c', run s (map asCall cs) = Some s'
                  /\ heldBack wait maxWait t0 c' s'.
Proof.
  induction cs as [| c' cs IH]; intros t0 c s Hs Hquiet.
  - exists s, c. split; [reflexivity | exact Hs].
  - assert (Hc' : match maxWait with
                  | Some mw => req_time c <= req_time c' < req_time c + wait
                               /\ req_time c' < t0 + mw
                  | None => True
                  end).
    { destruct maxWait; [| exact I].
      destruct Hquiet as [[Ht _] Hall]. split; [exact Ht |].
      now inversion Hall. }
    pose proof (heldBack_call t0 c c' s Hs Hc') as Hstep.
    cbn [map Debounce.run].
    destruct (step s (asCall c')) as [[s1 o1] |]; [| contradiction].
    destruct (IH t0 c' s1 Hstep) as (s' & c'' & Hrun & Hs').
    { destruct maxWait; [| exact I].
      destruct Hquiet as [[_ Hsp] Hall]. split; [exact Hsp |].
      now inversion Hall. }
    exists s', c''. split; [exact Hrun | exact Hs'].
Qed.

Lemma heldBack_cancel (t0 : Z) (c : request V This)
  (s : Debounce.state V This Res) :
  heldBack wait maxWait t0 c s ->
  let s' := fst (Debounce.cancel (Exn := Exn) s) in
  Debounce.journal s' = [] /\ Debounce.queue s' = [].
Proof.
  destruct s as [to mto la lt r lc li q n ck j].
  unfold heldBack, firstCallTimers. cbn.
  intros (-> & -> & -> & -> & -> & ->).
  destruct maxWait; cbn; split; reflexivity.
Qed.

(** C7, as amended.  A debounced wrapper with [leading = false], new,
    is called one or more times and then cancelled, no timer having
    run in between; when [maxWait] is set the calls are [unhurried].
    Then the callable has not run, [cancel()] leaves no timer live, so
    that no callback scheduled before it can run at all, and the closure
    variables are those of a new wrapper. *)
Theorem debounce_cancel_after_held_back_calls :
  forall (c0 : request V This) (cs : list (request V This)),
    unhurried wait maxWait c0 cs ->
    exists s,
      run Debounce.initial (map asCall (c0 :: cs) ++ [Cancel]) = Some s
      /\ Debounce.journal s = []
      /\ Debounce.queue s = []
      /\ (forall h time, step s (Fire h time) = None)
      /\ Debounce.timeout s = None /\ Debounce.maxTimeout s = None
      /\ Debounce.lastArgs s = None /\ Debounce.lastThis s = None
      /\ Debounce.lastCallTime s = None /\ Debounce.lastInvokeTime s = 0.
Proof.
  intros c0 cs Hquiet.
  pose proof (heldBack_first c0) as Hfirst.
  cbn [map app Debounce.run].
  destruct (step Debounce.initial (asCall c0)) as [[s1 o1] |];
    [| contradiction].
  destruct (heldBack_run cs (req_time c0) c0 s1 Hfirst)
    as (s2 & c2 & Hrun & Hs2).
  { exact Hquiet. }
  exists (fst (Debounce.cancel (Exn := Exn) s2)).
  split.
  - rewrite run_app, Hrun. cbn.
    now destruct (Debounce.cancel (Exn := Exn) s2).
  - destruct (heldBack_cancel _ _ _ Hs2) as [Hj Hq].
    destruct (@debounce_cancel_resets V This Res Exn s2)
      as (Hto & Hmto & Hla & Hlt & Hlc & Hli & _).
    repeat split; try assumption.
    intros h time. cbn [Debounce.step]. unfold Debounce.fire.
    cbn zeta in Hq. now rewrite Hq.
Qed.

End CancelAfterCalls.

(** With [leading = true] the first call runs the callable at once, and
    [cancel()] does not undo that: one invocation results from the
    call. *)
Lemma debounce_leading_call_survives_cancel :
  option_map Debounce.journal
    (Debounce.run countArgs 100 true true None Debounce.initial
       [Call 0 tt [1%nat]; Cancel])
  = Some [Invocation 0 (Some tt) [1%nat]].
Proof. vm_compute. reflexivity. Qed.

(** [debounce(countArgs, 100, { maxWait: 200 })] called at [0] and at [50],
    then cancelled. *)
Lemma debounce_cancel_after_held_back_calls_witness :
  unhurried 100 (Some 200) (Request 0 tt [1%nat]) [Request 50 tt [2%nat]]
  /\ exists s,
       Debounce.run countArgs 100 false true (Some 200) Debounce.initial
         (map asCall [Request 0 tt [1%nat]; Request 50 tt [2%nat]] ++ [Cancel])
       = Some s
       /\ Debounce.journal s = [] /\ Debounce.queue s = [].
Proof.
  assert (Hq : unhurried 100 (Some 200) (Request 0 tt [1%nat])
                 [Request 50 tt [2%nat]]).
  { cbn. split; [split; [lia | exact I] |].
    constructor; [cbn; lia | constructor]. }
  split; [exact Hq |].
  destruct (debounce_cancel_after_held_back_calls countArgs 100 true
              (Some 200) (Request 0 tt [1%nat]) [Request 50 tt [2%nat]] Hq)
    as (s & Hrun & Hj & Hqueue & _).
  exists s. split; [exact Hrun | split; [exact Hj | exact Hqueue]].
Defined.

(** ** [flush()] against waiting *)

Section FlushOrWait.

Context {V This Res Exn : Type}.
Variable func : option This -> list V -> Res + Exn.
Variable wait : Z.
Variable leading trailing : bool.
Variable maxWait : option Z.

Local Abbreviation step := (Debounce.step func wait leading trailing maxWait).
Local Abbreviation settle := (Debounce.settle func wait leading trailing maxWait).

Local Arguments Debounce.settle : simpl never.

Lemma settle_more (l t : bool) (m : option Z) (fuel : nat)
  (s : Debounce.state V This Res) :
  Debounce.settle func wait l t m (S fuel) s
  = match earliest (Debounce.queue s) with
    | None => Some s
    | Some tm =>
        match Debounce.step func wait l t m s
                (Fire (handle tm) (Z.max (Debounce.clock s) (due tm))) with
        | Some (s', _) => Debounce.settle func wait l t m fuel s'
        | None => None
        end
    end.
Proof. reflexivity. Qed.

Lemma settle_done (l t : bool) (m : option Z) (fuel : nat)
  (s : Debounce.state V This Res) :
  Debounce.queue s = [] -> Debounce.settle func wait l t m fuel s = Some s.
Proof.
  intros Hq. destruct fuel; cbn; unfold Debounce.settle; now rewrite Hq.
Qed.

Ltac unfold_host :=
  cbv [earliest noneOverdue forallb lookupTimer clearTimeout setTimeout
       find filter handle action due];
  cbn [app].

Ltac reflect_all :=
  repeat match goal with
         | H : negb _ = true |- _ => apply negb_true_iff in H
         | H : negb _ = false |- _ => apply negb_false_iff in H
         end;
  reflect_comparisons.

Ltac prune :=
  try discriminate; reflect_all; try lia; try congruence.

Ltac finish :=
  cbv beta iota; split; [reflexivity |];
  unfold agree; cbv [applied]; cbn; rewrite ?map_app;
  repeat split; (reflexivity || congruence).

Ltac split_step :=
  repeat match goal with
         | |- context [match ?x with _ => _ end] =>
             lazymatch x with
             | context [Debounce.settle] => fail
             | _ => split_on x; cbn [app]
             end
         end.

Ltac advance :=
  first [ rewrite settle_done by reflexivity; finish
        | rewrite settle_more; unfold_host; unfold_debounce; unfold_host;
          split_step; prune ].

Lemma flush_or_wait (s : Debounce.state V This Res) (t : Z) :
  pendingState s ->
  match Debounce.settle func wait leading trailing maxWait 4 s with
  | Some sw =>
      Debounce.queue sw = []
      /\ agree (fst (Debounce.flush func trailing t
                       (Debounce.set_clock t s))) sw
  | None => False
  end.
Proof.
  destruct s as [to mto la lt r lc li q n ck j].
  intros (h & d & a & Hto & Hla & Hdue & Hh & Hq).
  cbn in Hto, Hla, Hh, Hq. subst.
  destruct mto as [m |].
  - destruct Hq as (Hmh & Hm & [-> | (e & [-> | ->])]);
      cbv [noneOverdue forallb due Debounce.clock Debounce.queue] in Hdue;
      repeat match goal with
             | H : _ && _ = true |- _ => apply andb_prop in H as [? ?]
             end;
      reflect_comparisons;
      repeat advance.
  - subst.
    cbv [noneOverdue forallb due Debounce.clock Debounce.queue] in Hdue.
    apply andb_prop in Hdue as [Hdue _]. reflect_comparisons.
    repeat advance.
Qed.

Ltac finish_waited :=
  cbv beta iota; unfold waited; cbv [applied]; cbn;
  first [ split; reflexivity
        | eexists; (split; [| split; reflexivity]); lia ].

Ltac advance_waited :=
  first [ rewrite settle_done by reflexivity; finish_waited
        | rewrite settle_more; unfold_host; unfold_debounce; unfold_host;
          split_step; prune ].

Lemma wait_stamps (s : Debounce.state V This Res) :
  pendingState s ->
  match Debounce.settle func wait leading trailing maxWait 4 s with
  | Some sw => waited trailing s sw
  | None => False
  end.
Proof.
  destruct s as [to mto la lt r lc li q n ck j].
  intros (h & d & a & Hto & Hla & Hdue & Hh & Hq).
  cbn in Hto, Hla, Hh, Hq. subst.
  destruct mto as [m |].
  - destruct Hq as (Hmh & Hm & [-> | (e & [-> | ->])]);
      cbv [noneOverdue forallb due Debounce.clock Debounce.queue] in Hdue;
      repeat match goal with
             | H : _ && _ = true |- _ => apply andb_prop in H as [? ?]
             end;
      reflect_comparisons;
      repeat advance_waited.
  - subst.
    cbv [noneOverdue forallb due Debounce.clock Debounce.queue] in Hdue.
    apply andb_prop in Hdue as [Hdue _]. reflect_comparisons.
    repeat advance_waited.
Qed.

Lemma flush_stamps (s : Debounce.state V This Res) (t : Z) :
  pendingState s ->
  flushed trailing t s
    (fst (Debounce.flush func trailing t (Debounce.set_clock t s))).
Proof.
  destruct s as [to mto la lt r lc li q n ck j].
  intros (h & d & a & Hto & Hla & Hdue & Hh & Hq).
  cbn in Hto, Hla, Hh, Hq. subst.
  unfold flushed. unfold_debounce. split_cases; split; reflexivity.
Qed.


End FlushOrWait.

Lemma debouncePending_is_pending : pendingState debouncePending.
Proof.
  exists 0%nat, 100, [7%nat]. cbn. repeat split; lia.
Qed.



(** ** Periodic calls under [maxWait] *)

Section TimerQueue.

Lemma clearTimeout_In (k : nat) (q : list timer) (tm : timer) :
  In tm (clearTimeout k q) <-> In tm q /\ handle tm <> k.
Proof.
  unfold clearTimeout. rewrite filter_In, negb_true_iff, Nat.eqb_neq.
  reflexivity.
Qed.

Lemma setTimeout_In (cb : callback) (delay now : Z) (n : nat)
  (q : list timer) (tm : timer) :
  In tm (setTimeout cb delay now n q)
  <-> In tm q \/ tm = Timer n cb (now + Z.max 0 delay).
Proof.
  unfold setTimeout. rewrite in_app_iff. cbn. intuition congruence.
Qed.

Lemma lookupTimer_In (k : nat) (q : list timer) (tm : timer) :
  lookupTimer k q = Some tm -> In tm q /\ handle tm = k.
Proof.
  unfold lookupTimer. intros H. apply find_some in H as [Hin Hk].
  apply Nat.eqb_eq in Hk. now split.
Qed.

Lemma noneOverdue_In (t : Z) (q : list timer) (tm : timer) :
  noneOverdue t q = true -> In tm q -> t <= due tm.
Proof.
  unfold noneOverdue. rewrite forallb_forall. intros H Hin.
  apply Z.leb_le. now apply H.
Qed.

Lemma handlesFresh_clear (n k : nat) (q : list timer) :
  handlesFresh n q -> handlesFresh n (clearTimeout k q).
Proof.
  unfold handlesFresh, clearTimeout. intros [Hlt Hnd]. split.
  - rewrite Forall_forall in *. intros tm Hin.
    apply filter_In in Hin as [Hin _]. now apply Hlt.
  - clear Hlt. induction q as [| tm q IH]; cbn; [constructor |].
    inversion Hnd as [| ? ? Hnotin Hnd']; subst.
    destruct (negb (handle tm =? k)%nat); cbn; [| now apply IH].
    constructor; [| now apply IH].
    intros Hin. apply Hnotin.
    apply in_map_iff in Hin as (tm' & Heq & Hin').
    apply filter_In in Hin' as [Hin' _].
    apply in_map_iff. now exists tm'.
Qed.

Lemma handlesFresh_set (cb : callback) (delay now : Z) (n : nat)
  (q : list timer) :
  handlesFresh n q -> handlesFresh (S n) (setTimeout cb delay now n q).
Proof.
  unfold handlesFresh, setTimeout. intros [Hlt Hnd]. split.
  - apply Forall_app. split.
    + eapply Forall_impl; [| exact Hlt]. cbn. intros; lia.
    + repeat constructor.
  - rewrite map_app. cbn.
    assert (Hn : ~ In n (map handle q)).
    { intros Hin. apply in_map_iff in Hin as (tm & Heq & Hin).
      rewrite Forall_forall in Hlt. specialize (Hlt tm Hin). lia. }
    clear Hlt. induction q as [| tm q IH]; cbn.
    + repeat constructor. intros [].
    + inversion Hnd as [| ? ? Hnotin Hnd']; subst.
      constructor.
      * rewrite in_app_iff. cbn. intros [Hin | [Heq | []]].
        -- now apply Hnotin.
        -- apply Hn. cbn. now left.
      * apply IH; [exact Hnd' |]. intros Hin. apply Hn. cbn. now right.
Qed.

Lemma escapeBy_set (bound : Z) (cb : callback) (delay now : Z) (n : nat)
  (q : list timer) :
  escapeBy bound q -> escapeBy bound (setTimeout cb delay now n q).
Proof.
  intros (tm & Hin & Hact & Hdue). exists tm.
  rewrite setTimeout_In. auto.
Qed.

Lemma escapeBy_new (bound : Z) (delay now : Z) (n : nat) (q : list timer) :
  now + Z.max 0 delay <= bound ->
  escapeBy bound (setTimeout MaxTimerExpired delay now n q).
Proof.
  intros Hle. exists (Timer n MaxTimerExpired (now + Z.max 0 delay)).
  rewrite setTimeout_In. cbn. auto.
Qed.

Lemma escapeBy_clear (bound : Z) (n k : nat) (q : list timer) (tm : timer) :
  handlesFresh n q ->
  lookupTimer k q = Some tm ->
  action tm = TimerExpired ->
  escapeBy bound q -> escapeBy bound (clearTimeout k q).
Proof.
  intros [_ Hnd] Hlook Hact (g & Hin & Hg & Hdue).
  apply lookupTimer_In in Hlook as [Hin' Hk].
  exists g. rewrite clearTimeout_In. repeat split; try assumption.
  intros Hgk.
  assert (g = tm); [| congruence].
  clear - Hnd Hin Hin' Hgk Hk.
  induction q as [| x q IH]; [contradiction |].
  inversion Hnd as [| ? ? Hnotin Hnd']; subst.
  destruct Hin as [-> | Hin], Hin' as [-> | Hin']; try reflexivity.
  - exfalso. apply Hnotin. apply in_map_iff. exists tm. split; congruence.
  - exfalso. apply Hnotin. apply in_map_iff. exists g. split; congruence.
  - now apply IH.
Qed.

Lemma escapeBy_due (bound t : Z) (q : list timer) :
  noneOverdue t q = true -> escapeBy bound q -> t <= bound.
Proof.
  intros Hno (g & Hin & _ & Hdue).
  pose proof (noneOverdue_In t q g Hno Hin). lia.
Qed.

End TimerQueue.

Section Backlog.

Lemma earliest_In (q : list timer) (tm : timer) :
  earliest q = Some tm -> In tm q.
Proof.
  revert tm. induction q as [| x q IH]; intros tm H; cbn in H; [discriminate |].
  destruct (earliest q) as [tm' |].
  - destruct (due tm' <? due x); injection H as <-.
    + right. now apply IH.
    + now left.
  - injection H as <-. now left.
Qed.

Lemma earliest_min (q : list timer) (tm x : timer) :
  earliest q = Some tm -> In x q -> due tm <= due x.
Proof.
  revert tm. induction q as [| y q IH]; intros tm H Hin; [contradiction |].
  cbn in H. destruct (earliest q) as [tm' |] eqn:He.
  - destruct (due tm' <? due y) eqn:Hlt; injection H as <-;
      reflect_comparisons; destruct Hin as [-> | Hin]; try lia.
    + now apply IH.
    + specialize (IH tm' eq_refl Hin). lia.
  - injection H as <-. destruct Hin as [-> | Hin]; [lia |].
    destruct q; [contradiction | cbn in He].
    destruct (earliest q); [destruct (_ <? _) |]; discriminate.
Qed.

Lemma earliest_noneOverdue (q : list timer) (tm : timer) :
  earliest q = Some tm -> noneOverdue (due tm) q = true.
Proof.
  intros H. unfold noneOverdue. apply forallb_forall. intros x Hin.
  apply Z.leb_le. now apply (earliest_min q).
Qed.

Lemma overdue_earliest (t : Z) (q : list timer) :
  noneOverdue t q = false -> exists tm, earliest q = Some tm /\ due tm < t.
Proof.
  intros H.
  destruct (earliest q) as [tm |] eqn:He.
  - exists tm. split; [reflexivity |].
    destruct (Z_lt_le_dec (due tm) t) as [Hlt | Hle]; [exact Hlt | exfalso].
    assert (noneOverdue t q = true); [| congruence].
    unfold noneOverdue. apply forallb_forall. intros x Hin.
    apply Z.leb_le. pose proof (earliest_min q tm x He Hin). lia.
  - destruct q as [| x q]; [discriminate |]. cbn in He.
    destruct (earliest q); [destruct (_ <? _) |]; discriminate.
Qed.

Lemma lookupTimer_unique (n : nat) (q : list timer) (tm : timer) :
  handlesFresh n q -> In tm q -> lookupTimer (handle tm) q = Some tm.
Proof.
  intros [_ Hnd] Hin. unfold lookupTimer.
  induction q as [| x q IH]; [contradiction |].
  cbn in Hnd |- *. inversion Hnd as [| ? ? Hnotin Hnd']; subst.
  destruct Hin as [-> | Hin].
  - now rewrite Nat.eqb_refl.
  - destruct (handle x =? handle tm)%nat eqn:Heq; [| now apply IH].
    exfalso. apply Hnotin. apply Nat.eqb_eq in Heq. rewrite Heq.
    now apply in_map.
Qed.

Lemma noneOverdue_clear (t : Z) (k : nat) (q : list timer) :
  noneOverdue t q = true -> noneOverdue t (clearTimeout k q) = true.
Proof.
  unfold noneOverdue. rewrite !forallb_forall. intros H x Hin.
  apply clearTimeout_In in Hin as [Hin _]. now apply H.
Qed.

Lemma noneOverdue_set (t : Z) (cb : callback) (delay now : Z) (n : nat)
  (q : list timer) :
  noneOverdue t q = true -> t <= now ->
  noneOverdue t (setTimeout cb delay now n q) = true.
Proof.
  unfold noneOverdue. rewrite !forallb_forall. intros H Hle x Hin.
  apply setTimeout_In in Hin as [Hin | ->]; [now apply H |].
  cbv beta. cbn [due]. apply Z.leb_le. lia.
Qed.

Lemma noneOverdue_earlier (t t' : Z) (q : list timer) :
  noneOverdue t q = true -> t' <= t -> noneOverdue t' q = true.
Proof.
  unfold noneOverdue. rewrite !forallb_forall. intros H Hle x Hin.
  specialize (H x Hin). cbv beta in H |- *.
  apply Z.leb_le. apply Z.leb_le in H. lia.
Qed.

Lemma backlog_clear (t : Z) (k : nat) (q : list timer) :
  (backlog t (clearTimeout k q) <= backlog t q)%nat.
Proof.
  unfold clearTimeout.
  induction q as [| x q IH]; cbn [filter backlog]; [lia |].
  destruct (negb (handle x =? k)%nat); cbn [backlog]; lia.
Qed.

Lemma backlog_fired (t : Z) (q : list timer) (tm : timer) :
  In tm q ->
  (backlog t (clearTimeout (handle tm) q) + Z.to_nat (t - due tm)
   <= backlog t q)%nat.
Proof.
  induction q as [| x q IH]; intros Hin; [contradiction |].
  unfold clearTimeout in *. cbn [filter backlog].
  destruct Hin as [-> | Hin].
  - rewrite Nat.eqb_refl. cbn [negb].
    pose proof (backlog_clear t (handle tm) q) as Hle.
    unfold clearTimeout in Hle. lia.
  - specialize (IH Hin).
    destruct (negb (handle x =? handle tm)%nat); cbn [backlog]; lia.
Qed.

Lemma backlog_set (t : Z) (cb : callback) (delay now : Z) (n : nat)
  (q : list timer) :
  backlog t (setTimeout cb delay now n q)
  = (backlog t q + Z.to_nat (t - (now + Z.max 0 delay)))%nat.
Proof.
  unfold setTimeout.
  induction q as [| x q IH]; cbn [app backlog due]; [lia |].
  rewrite IH. lia.
Qed.

End Backlog.

Section Progress.

Context {V This Res Exn : Type}.
Variable func : option This -> list V -> Res + Exn.
Variable wait period maxWait : Z.
Variable leading trailing : bool.
Hypothesis period_pos : 0 < period < wait.

Local Abbreviation step :=
  (Debounce.step func wait leading trailing (Some maxWait)).
Local Abbreviation go :=
  (Debounce.runWhere func wait leading trailing (Some maxWait)
     (punctualPeriodic period)).

Ltac fresh_solver :=
  repeat first [ assumption
               | apply handlesFresh_set
               | apply handlesFresh_clear ].

Ltac due_solver :=
  repeat first [ assumption
               | apply noneOverdue_clear
               | apply noneOverdue_set; [| lia] ].

Lemma progress_fire (s : Debounce.state V This Res) (tm : timer) (t : Z) :
  schedulable period s ->
  earliest (Debounce.queue s) = Some tm ->
  due tm < t <= nextCallTime period s ->
  punctualPeriodic period s (Fire (handle tm) (due tm)) = true
  /\ match step s (Fire (handle tm) (due tm)) with
     | Some (s', _) =>
         schedulable period s'
         /\ Debounce.lastCallTime s' = Debounce.lastCallTime s
         /\ Debounce.clock s' = due tm
         /\ (backlog t (Debounce.queue s') < backlog t (Debounce.queue s))%nat
     | None => False
     end.
Proof.
  destruct s as [to mto la lt r lc li q n ck j].
  unfold schedulable, nextCallTime. cbn.
  intros (Hfresh & Hdue & Hnext) Hearly Ht.
  pose proof (earliest_In _ _ Hearly) as Hin.
  pose proof (lookupTimer_unique _ _ _ Hfresh Hin) as Hlook.
  pose proof (earliest_noneOverdue _ _ Hearly) as Hmin.
  pose proof (noneOverdue_In _ _ _ Hdue Hin) as Hck.
  pose proof (backlog_fired t q tm Hin) as Hfired.
  pose proof (fun k => backlog_clear t k (clearTimeout (handle tm) q)) as Hclear.
  assert (Hone : (1 <= Z.to_nat (t - due tm))%nat) by lia.
  split.
  - cbv [punctualPeriodic Debounce.punctual Debounce.chronological periodic
         nextCallTime eventTime Debounce.clock Debounce.queue
         Debounce.lastCallTime].
    rewrite Hlook, Hmin, Z.eqb_refl.
    apply Z.leb_le in Hck. rewrite Hck.
    assert (Hle : due tm <= match lc with Some c => c + period | None => 0 end)
      by lia.
    apply Z.leb_le in Hle. now rewrite Hle.
  - unfold_debounce. rewrite Hlook, Z.leb_refl.
    split_cases; reflect_comparisons;
      (split; [split; [fresh_solver | split; [due_solver | lia]] |]);
      (split; [reflexivity |]); (split; [reflexivity |]);
      rewrite ?backlog_set;
      try (pose proof (Hclear n0));
      lia.
Qed.

Lemma progress_call (s : Debounce.state V This Res) (this : This)
  (args : list V) :
  schedulable period s ->
  noneOverdue (nextCallTime period s) (Debounce.queue s) = true ->
  let e := Call (nextCallTime period s) this args in
  punctualPeriodic period s e = true
  /\ match step s e with
     | Some (s', _) => schedulable period s'
     | None => False
     end.
Proof.
  destruct s as [to mto la lt r lc li q n ck j].
  unfold schedulable, nextCallTime.
  cbn [Debounce.queue Debounce.clock Debounce.fresh Debounce.lastCallTime].
  intros (Hfresh & Hdue & Hnext) Hready.
  set (t := match lc with Some c => c + period | None => 0 end) in *.
  split.
  - cbv [punctualPeriodic Debounce.punctual Debounce.chronological periodic
         nextCallTime eventTime Debounce.clock Debounce.queue
         Debounce.lastCallTime].
    fold t. rewrite Hready, Z.eqb_refl.
    apply Z.leb_le in Hnext. now rewrite Hnext.
  - unfold_debounce.
    split_cases; reflect_comparisons;
      (split; [fresh_solver | split; [due_solver | lia]]).
Qed.

Lemma runWhere_app (ok : Debounce.state V This Res -> event V This -> bool)
  (es1 es2 : list (event V This)) :
  forall s,
    Debounce.runWhere func wait leading trailing (Some maxWait) ok s
      (es1 ++ es2)
    = match Debounce.runWhere func wait leading trailing (Some maxWait) ok
              s es1
      with
      | Some s' =>
          Debounce.runWhere func wait leading trailing (Some maxWait) ok
            s' es2
      | None => None
      end.
Proof.
  induction es1 as [| e es1 IH]; intros s; cbn [app Debounce.runWhere];
    [reflexivity |].
  destruct (ok s e); [| reflexivity].
  destruct (step s e) as [[s1 o] |]; [apply IH | reflexivity].
Qed.

(** Before the next call the overdue timers can all be run on time. *)
Lemma progress_drain (m : nat) :
  forall (s : Debounce.state V This Res),
    (backlog (nextCallTime period s) (Debounce.queue s) <= m)%nat ->
    schedulable period s ->
    exists es s',
      callsOf es = []
      /\ go s es = Some s'
      /\ schedulable period s'
      /\ Debounce.lastCallTime s' = Debounce.lastCallTime s
      /\ noneOverdue (nextCallTime period s') (Debounce.queue s') = true.
Proof.
  induction m as [| m IH]; intros s Hm Hs.
  - destruct (noneOverdue (nextCallTime period s) (Debounce.queue s)) eqn:Hno.
    + exists [], s.
      split; [reflexivity |]. split; [reflexivity |]. split; [exact Hs |].
      split; [reflexivity | exact Hno].
    + exfalso.
      destruct (overdue_earliest _ _ Hno) as (tm & Hearly & Hlt).
      destruct (progress_fire s tm (nextCallTime period s) Hs Hearly)
        as [_ Hstep]; [lia |].
      destruct (step s (Fire (handle tm) (due tm))) as [[s1 o] |];
        [| contradiction].
      destruct Hstep as (_ & _ & _ & Hless). lia.
  - destruct (noneOverdue (nextCallTime period s) (Debounce.queue s)) eqn:Hno.
    + exists [], s.
      split; [reflexivity |]. split; [reflexivity |]. split; [exact Hs |].
      split; [reflexivity | exact Hno].
    + destruct (overdue_earliest _ _ Hno) as (tm & Hearly & Hlt).
      destruct (progress_fire s tm (nextCallTime period s) Hs Hearly)
        as [Hok Hstep]; [lia |].
      destruct (step s (Fire (handle tm) (due tm))) as [[s1 o] |] eqn:Hs1;
        [| contradiction].
      destruct Hstep as (Hs1ok & Hlc & _ & Hless).
      assert (Hnext : nextCallTime period s1 = nextCallTime period s)
        by (unfold nextCallTime; now rewrite Hlc).
      destruct (IH s1) as (es & s' & Hcalls & Hrun & Hs' & Hlc' & Hno');
        [rewrite Hnext; lia | exact Hs1ok |].
      exists (Fire (handle tm) (due tm) :: es), s'.
      cbn [callsOf Debounce.runWhere]. rewrite Hok, Hs1.
      split; [exact Hcalls |]. split; [exact Hrun |]. split; [exact Hs' |].
      split; [congruence | exact Hno'].
Qed.

Lemma schedulable_initial :
  schedulable period (@Debounce.initial V This Res).
Proof.
  unfold schedulable, handlesFresh, nextCallTime. cbn.
  split; [split; constructor |]. split; [reflexivity | lia].
Qed.

(** The periodic schedule never gets stuck: for every number of calls
    there is a punctual periodic schedule with that many calls. *)
Lemma periodic_schedule_exists (this : This) (args : list V) (n : nat) :
  exists es s,
    length (callsOf es) = n
    /\ go Debounce.initial es = Some s
    /\ schedulable period s.
Proof.
  induction n as [| n IH].
  - exists [], Debounce.initial.
    split; [reflexivity |]. split; [reflexivity | apply schedulable_initial].
  - destruct IH as (es & s & Hlen & Hrun & Hs).
    destruct (progress_drain _ s (Nat.le_refl _) Hs)
      as (fs & s1 & Hcalls & Hrun1 & Hs1 & _ & Hno).
    destruct (progress_call s1 this args Hs1 Hno) as [Hok Hstep].
    destruct (step s1 (Call (nextCallTime period s1) this args))
      as [[s2 o] |] eqn:Hs2; [| contradiction].
    exists (es ++ fs ++ [Call (nextCallTime period s1) this args]), s2.
    split; [| split; [| exact Hstep]].
    + assert (Hc : forall xs ys : list (event V This),
                 callsOf (xs ++ ys) = callsOf xs ++ callsOf ys).
      { induction xs as [| [] xs IHxs]; intros ys; cbn; rewrite ?IHxs;
          reflexivity. }
      rewrite !Hc, Hcalls, !length_app, Hlen. cbn. lia.
    + rewrite runWhere_app, Hrun, runWhere_app, Hrun1.
      cbn [Debounce.runWhere]. now rewrite Hok, Hs2.
Qed.

End Progress.

Section Paced.

Context {V This Res Exn : Type}.
Variable func : option This -> list V -> Res + Exn.
Variable wait period maxWait : Z.
Variable leading : bool.
Hypothesis period_pos : 0 < period < wait.
Hypothesis maxWait_nonneg : 0 <= maxWait.

Local Abbreviation step :=
  (Debounce.step func wait leading true (Some maxWait)).

Lemma lastInvoked_app (j : list (invocation V This)) (i : invocation V This) :
  last (map at_time (j ++ [i])) 0 = at_time i.
Proof. rewrite map_app. apply last_last. Qed.

Ltac open_conditions H :=
  cbv [punctualPeriodic Debounce.punctual Debounce.chronological periodic
       nextCallTime eventTime Debounce.clock Debounce.queue
       Debounce.lastCallTime] in H;
  repeat match goal with
         | H : _ && _ = true |- _ => apply andb_prop in H as [? ?]
         end.

Ltac fresh_solver :=
  repeat first [ assumption
               | apply handlesFresh_set
               | apply handlesFresh_clear ].

Ltac escape_solver :=
  solve [ repeat first [ assumption
                       | apply escapeBy_new; lia
                       | apply escapeBy_set
                       | eapply escapeBy_clear;
                         [eassumption | eassumption | assumption |] ] ].

Ltac served_solver :=
  left; solve [repeat split; first [reflexivity | assumption | lia]].

Ltac pending_solver :=
  right;
  split; [congruence |];
  split; [congruence |];
  eexists; split; [reflexivity |];
  first [ left; escape_solver
        | right; solve [split; first [reflexivity | assumption | lia]] ].

Ltac paced_solver :=
  first [ solve [exfalso; lia]
        | solve [congruence]
        | rewrite ?lastInvoked_app; cbn [at_time];
          split; [fresh_solver |];
          split; [lia |];
          split; [lia |];
          split; [lia |];
          first [served_solver | pending_solver] ].

Lemma paced_bound (s : Debounce.state V This Res) (e : event V This) (t : Z) :
  paced period maxWait s ->
  punctualPeriodic period s e = true ->
  eventTime e = Some t ->
  t - lastInvoked (Debounce.journal s) <= maxWait + period.
Proof.
  destruct s as [to mto la lt r lc li q n ck j].
  unfold paced. cbn.
  intros (Hfresh & Hck & Hran & Hlc & Hcases) Hok Ht.
  assert (Hnext : t <= match lc with Some c => c + period | None => 0 end
                  /\ noneOverdue t q = true).
  { destruct e as [time this args | k time | | time]; cbn in Ht;
      try discriminate; injection Ht as ->;
      open_conditions Hok; reflect_comparisons; split; (lia || assumption). }
  destruct Hnext as [Hnext Hdue].
  destruct Hcases as [(_ & _ & Hserved) | (_ & _ & c & -> & [Hesc | [_ Hlt]])].
  - destruct lc; lia.
  - pose proof (escapeBy_due _ _ _ Hdue Hesc). lia.
  - lia.
Qed.

Lemma paced_call (s : Debounce.state V This Res) (time : Z) (this : This)
  (args : list V) :
  paced period maxWait s ->
  punctualPeriodic period s (Call time this args) = true ->
  match step s (Call time this args) with
  | Some (s', _) => paced period maxWait s'
  | None => True
  end.
Proof.
  destruct s as [to mto la lt r lc li q n ck j].
  unfold paced. cbn.
  intros (Hfresh & Hck & Hran & Hlc & Hcases) Hok.
  open_conditions Hok. reflect_comparisons. subst time.
  set (ran := last (map at_time j) 0) in *.
  unfold_debounce. split_cases; reflect_comparisons;
    unfold lastInvoked in *; fold ran; 
    destruct Hcases as [(Hla & Hli & Hserved)
                       | (Hla & Hto & c & Hc & [Hesc | [Hli Hlt]])];
    try (injection Hc as <-); try discriminate;
    paced_solver.
Qed.

Lemma paced_fire (s : Debounce.state V This Res) (k : nat) (time : Z) :
  paced period maxWait s ->
  punctualPeriodic period s (Fire k time) = true ->
  match step s (Fire k time) with
  | Some (s', _) => paced period maxWait s'
  | None => True
  end.
Proof.
  destruct s as [to mto la lt r lc li q n ck j].
  unfold paced. cbn.
  intros (Hfresh & Hck & Hran & Hlc & Hcases) Hok.
  open_conditions Hok. reflect_comparisons.
  set (ran := last (map at_time j) 0) in *.
  unfold_debounce. split_cases; reflect_comparisons;
    unfold lastInvoked in *; fold ran;
    try exact I;
    destruct Hcases as [(Hla & Hli & Hserved)
                       | (Hla & Hto & c & Hc & [Hesc | [Hli Hlt]])];
    try (injection Hc as <-); try discriminate;
    paced_solver.
Qed.

Lemma paced_initial : paced period maxWait (@Debounce.initial V This Res).
Proof.
  unfold paced, handlesFresh, lastInvoked. cbn.
  split; [split; constructor |].
  split; [lia |]. split; [lia |]. split; [exact I |].
  left. repeat split; reflexivity.
Qed.

Lemma paced_run (es : list (event V This)) :
  forall s s' : Debounce.state V This Res,
    paced period maxWait s ->
    Debounce.runWhere func wait leading true (Some maxWait)
      (punctualPeriodic period) s es = Some s' ->
    paced period maxWait s'.
Proof.
  induction es as [| e es IH]; intros s s' Hs Hrun;
    cbn [Debounce.runWhere] in Hrun.
  - now injection Hrun as <-.
  - destruct (punctualPeriodic period s e) eqn:Hok; [| discriminate].
    assert (Hstep : match step s e with
                    | Some (s1, _) => paced period maxWait s1
                    | None => True
                    end).
    { destruct e as [time this args | k time | | time];
        try (unfold punctualPeriodic, periodic in Hok;
             rewrite andb_false_r in Hok; discriminate).
      - now apply paced_call.
      - now apply paced_fire. }
    destruct (step s e) as [[s1 o] |]; [| discriminate].
    exact (IH s1 s' Hstep Hrun).
Qed.

Lemma pacedLeading_bound (s : Debounce.state V This Res) (e : event V This)
  (t : Z) :
  pacedLeading maxWait s ->
  punctualPeriodic period s e = true ->
  eventTime e = Some t ->
  t - lastInvoked (Debounce.journal s) <= maxWait + period.
Proof.
  destruct s as [to mto la lt r lc li q n ck j].
  unfold pacedLeading. cbn.
  intros [Hli Hlc] Hok Ht.
  assert (Hnext : t <= match lc with Some c => c + period | None => 0 end).
  { destruct e as [time this args | k time | | time]; cbn in Ht;
      try discriminate; injection Ht as ->;
      open_conditions Hok; reflect_comparisons; lia. }
  unfold lastInvoked in *. destruct lc; lia.
Qed.

Lemma pacedLeading_step (s : Debounce.state V This Res) (e : event V This) :
  pacedLeading maxWait s ->
  punctualPeriodic period s e = true ->
  match Debounce.step func wait true false (Some maxWait) s e with
  | Some (s', _) => pacedLeading maxWait s'
  | None => True
  end.
Proof.
  destruct s as [to mto la lt r lc li q n ck j].
  unfold pacedLeading. cbn.
  intros [Hli Hlc] Hok.
  set (ran := last (map at_time j) 0) in *.
  destruct e as [time this args | k time | | time];
    try (unfold punctualPeriodic, periodic in Hok;
         rewrite andb_false_r in Hok; discriminate);
    open_conditions Hok; reflect_comparisons;
    unfold_debounce; split_cases; reflect_comparisons;
    unfold lastInvoked in *; fold ran;
    try exact I;
    rewrite ?lastInvoked_app; cbn [at_time];
    first [ solve [exfalso; lia]
          | split; [first [reflexivity | assumption | lia]
                   | first [assumption | lia]] ].
Qed.

Lemma pacedLeading_initial :
  pacedLeading maxWait (@Debounce.initial V This Res).
Proof. split; reflexivity. Qed.

Lemma pacedLeading_run (es : list (event V This)) :
  forall s s' : Debounce.state V This Res,
    pacedLeading maxWait s ->
    Debounce.runWhere func wait true false (Some maxWait)
      (punctualPeriodic period) s es = Some s' ->
    pacedLeading maxWait s'.
Proof.
  induction es as [| e es IH]; intros s s' Hs Hrun;
    cbn [Debounce.runWhere] in Hrun.
  - now injection Hrun as <-.
  - destruct (punctualPeriodic period s e) eqn:Hok; [| discriminate].
    pose proof (pacedLeading_step s e Hs Hok) as Hstep.
    destruct (Debounce.step func wait true false (Some maxWait) s e)
      as [[s1 o] |]; [| discriminate].
    exact (IH s1 s' Hstep Hrun).
Qed.

(** C5, as amended.  [debounce(func, wait, { leading, trailing, maxWait })]
    with at least one of the two edges on and [maxWait] not negative,
    called from new every [period] time units, [0 < period < wait] (every
    [wait / 2] in particular), the timers running on time.  Such
    schedules exist with any number of calls; and whenever anything
    happens to the wrapper on one of them, the latest invocation of the
    callable (the start, before the first one) is at most
    [maxWait + period] in the past: between one invocation and the next,
    no more than [maxWait + period] passes. *)
Theorem debounce_maxWait_bounds_the_gap :
  forall trailing : bool,
    leading || trailing = true ->
    (forall (this : This) (args : list V) (n : nat),
        exists es s,
          length (callsOf es) = n
          /\ Debounce.runWhere func wait leading trailing (Some maxWait)
               (punctualPeriodic period) Debounce.initial es = Some s)
    /\ (forall (es : list (event V This)) (s : Debounce.state V This Res)
               (e : event V This) (t : Z),
           Debounce.runWhere func wait leading trailing (Some maxWait)
             (punctualPeriodic period) Debounce.initial es = Some s ->
           punctualPeriodic period s e = true ->
           eventTime e = Some t ->
           t - lastInvoked (Debounce.journal s) <= maxWait + period).
Proof.
  intros trailing Hedge. split.
  - intros this args n.
    destruct (periodic_schedule_exists func wait period maxWait leading
                trailing period_pos this args n)
      as (es & s & Hlen & Hrun & _).
    now exists es, s.
  - intros es s e t Hrun Hok Ht.
    destruct trailing.
    + apply (paced_bound s e t); [| exact Hok | exact Ht].
      exact (paced_run es _ s paced_initial Hrun).
    + rewrite orb_false_r in Hedge. rewrite Hedge in Hrun.
      apply (pacedLeading_bound s e t); [| exact Hok | exact Ht].
      exact (pacedLeading_run es _ s pacedLeading_initial Hrun).
Qed.

End Paced.

(** [debounce(countArgs, 100, { maxWait: 110 })] called every [50] from
    [0], all timers on time.  The callable runs at [110], [220] and [350]:
    no invocation falls in the interval from [225] to [335], which is
    [110] long, although calls came at [250] and [300]. *)
Lemma debounce_maxWait_gap_exceeds_maxWait :
  option_map (fun s => map at_time (Debounce.journal s))
    (Debounce.runWhere countArgs 100 false true (Some 110)
       (punctualPeriodic 50) Debounce.initial
       (every50 ++ [Call 350 tt [7%nat]]))
  = Some [110; 220; 350]
  /\ forallb (fun t => negb ((225 <=? t) && (t <=? 335))) [110; 220; 350]
     = true
  /\ 335 - 225 = 110.
Proof. vm_compute. repeat split; reflexivity. Qed.

(** Why one edge must be on: with [leading = false], [trailing = false]
    and [maxWait = 100] the same calls can go unserved for good.  Each
    time the primary timer runs first, [trailingEdge] drops the pending
    call, and the call that follows starts a new leading edge without
    invoking. *)
Lemma debounce_maxWait_without_trailing_starves :
  option_map Debounce.journal
    (Debounce.runWhere countArgs 100 false false (Some 100)
       (punctualPeriodic 50) Debounce.initial every50NoTrailing)
  = Some [].
Proof. vm_compute. reflexivity. Qed.

(** The same schedule, at the call at [350]: the latest invocation, at
    [220], is within [110 + 50].  And with the leading edge alone, at the
    call at [300]: the latest invocation, at [150], is within
    [110 + 50]. *)
Lemma debounce_maxWait_bounds_the_gap_witness :
  0 < 50 < 100 /\ 0 <= 110
  /\ (exists s,
        Debounce.runWhere countArgs 100 false true (Some 110)
          (punctualPeriodic 50) Debounce.initial every50 = Some s
        /\ punctualPeriodic 50 s (Call 350 tt [7%nat]) = true
        /\ 350 - lastInvoked (Debounce.journal s) <= 110 + 50)
  /\ (exists s,
        Debounce.runWhere countArgs 100 true false (Some 110)
          (punctualPeriodic 50) Debounce.initial every50LeadingOnly = Some s
        /\ punctualPeriodic 50 s (Call 300 tt [6%nat]) = true
        /\ lastInvoked (Debounce.journal s) = 150
        /\ 300 - lastInvoked (Debounce.journal s) <= 110 + 50).
Proof.
  assert (Hp : 0 < 50 < 100) by lia.
  assert (Hw : 0 <= 110) by lia.
  split; [exact Hp |]. split; [exact Hw |]. split.
  - eexists. split; [vm_compute; reflexivity |].
    split; [vm_compute; reflexivity |].
    apply (proj2 (debounce_maxWait_bounds_the_gap countArgs 100 50 110 false
                    Hp Hw true eq_refl)
             every50 _ (Call 350 tt [7%nat]) 350);
      vm_compute; reflexivity.
  - eexists. split; [vm_compute; reflexivity |].
    split; [vm_compute; reflexivity |].
    split; [vm_compute; reflexivity |].
    apply (proj2 (debounce_maxWait_bounds_the_gap countArgs 100 50 110 true
                    Hp Hw false eq_refl)
             every50LeadingOnly _ (Call 300 tt [6%nat]) 300);
      vm_compute; reflexivity.
Defined.

(** ** What the edge flags switch off *)

Section EdgeFlags.

Context {V This Res Exn : Type}.
Variable func : option This -> list V -> Res + Exn.
Variable wait : Z.

(** X1.  With [trailing = false] neither governor runs the callable from
    a timer, from [cancel()] or from [flush()]: only a call of the wrapper
    can. *)
Theorem trailing_off_only_calls_invoke :
  forall (leading : bool) (maxWait : option Z)
         (sd : Debounce.state V This Res) (st : Throttle.state V This Res)
         (e : event V This),
    isCall e = false ->
    match Debounce.step func wait leading false maxWait sd e with
    | Some (sd', _) => Debounce.journal sd' = Debounce.journal sd
    | None => True
    end
    /\ match Throttle.step func wait leading false st e with
       | Some (st', _) => Throttle.journal st' = Throttle.journal st
       | None => True
       end.
Proof.
  intros leading maxWait sd st e He.
  destruct sd as [to mto la lt r lc li q n c j].
  destruct st as [to' la' lt' r' lc' li' q' n' c' j'].
  destruct e as [time this args | h time | | time]; try discriminate;
    (split; [unfold_debounce | unfold_throttle]);
    split_cases; reflexivity || exact I.
Qed.

(** X2.  With [leading = false] (and, for [debounce], no [maxWait]) a
    call of the wrapper never runs the callable: it returns the cached
    result, keeps its receiver and arguments as the pending ones, and
    leaves a primary timer live in the host queue, named by [timeout].
    The wrapper is taken in a state where [timeout] is null or names a
    live primary timer. *)
Theorem leading_off_calls_do_not_invoke :
  forall (sd : Debounce.state V This Res) (st : Throttle.state V This Res)
         (time : Z) (this : This) (args : list V),
    Debounce.timeout sd = None
    \/ timerScheduled (Debounce.timeout sd) (Debounce.queue sd) ->
    Throttle.timeout st = None
    \/ timerScheduled (Throttle.timeout st) (Throttle.queue st) ->
    (let r := Debounce.debounced func wait false None time this args sd in
     Debounce.journal (fst r) = Debounce.journal sd
     /\ snd r = Returned (Debounce.result sd)
     /\ Debounce.lastArgs (fst r) = Some args
     /\ Debounce.lastThis (fst r) = Some this
     /\ Debounce.pending (fst r) = true
     /\ timerScheduled (Debounce.timeout (fst r)) (Debounce.queue (fst r)))
    /\ (let r := Throttle.throttled func wait false time this args st in
        Throttle.journal (fst r) = Throttle.journal st
        /\ snd r = Returned (Throttle.result st)
        /\ Throttle.lastArgs (fst r) = Some args
        /\ Throttle.lastThis (fst r) = Some this
        /\ Throttle.timeout (fst r) <> None
        /\ timerScheduled (Throttle.timeout (fst r))
             (Throttle.queue (fst r))).
Proof.
  intros sd st time this args Hd Ht.
  destruct sd as [to mto la lt r lc li q n c j].
  destruct st as [to' la' lt' r' lc' li' q' n' c' j'].
  cbn [Debounce.timeout Debounce.queue Throttle.timeout Throttle.queue]
    in Hd, Ht.
  assert (Hnew : forall (k : nat) (d : Z) (qq : list timer),
             timerScheduled (Some k) (setTimeout TimerExpired d time k qq)).
  { intros k d qq. exists k, (Timer k TimerExpired (time + Z.max 0 d)).
    split; [reflexivity |]. split; [| split; reflexivity].
    unfold setTimeout. apply in_or_app. right. left. reflexivity. }
  split.
  - destruct to as [h |].
    + destruct Hd as [Hd | Hd]; [discriminate |].
      unfold_debounce; unfold Debounce.pending; split_cases; cbn;
        repeat split; first [reflexivity | exact Hd].
    + unfold_debounce; unfold Debounce.pending; split_cases; cbn;
        repeat split; first [reflexivity | apply Hnew].
  - destruct to' as [h |].
    + destruct Ht as [Ht | Ht]; [discriminate |].
      unfold_throttle; split_cases; cbn;
        repeat split; first [reflexivity | discriminate | exact Ht].
    + unfold_throttle; split_cases; cbn;
        repeat split; first [reflexivity | discriminate | apply Hnew].
Qed.

Lemma throttle_no_edges_step (s : Throttle.state V This Res)
  (e : event V This) :
  match Throttle.step func wait false false s e with
  | Some (s', _) => Throttle.journal s' = Throttle.journal s
  | None => True
  end.
Proof.
  destruct s as [to la lt r lc li q n c j].
  destruct e as [time this args | h time | | time];
    unfold_throttle; split_cases; reflexivity || exact I.
Qed.

(** X3.  A throttled wrapper with both edges switched off never runs the
    callable, whatever is done to it. *)
Theorem throttle_no_edges_never_invokes :
  forall (es : list (event V This)) (s s' : Throttle.state V This Res),
    Throttle.run func wait false false s es = Some s' ->
    Throttle.journal s' = Throttle.journal s.
Proof.
  induction es as [| e es IH]; intros s s' Hrun; cbn in Hrun.
  - now injection Hrun as <-.
  - pose proof (throttle_no_edges_step s e) as Hstep.
    destruct (Throttle.step func wait false false s e)
      as [[s1 o] |]; [| discriminate].
    rewrite (IH s1 s' Hrun). exact Hstep.
Qed.

(** X4.  Whatever the options and the state, one call, one timer firing,
    one [cancel()] or one [flush()] runs the callable at most once.  When
    it does not, the cached result is untouched and is what a call or
    [flush()] returns; when it does, the return value is cached and
    returned, and an exception leaves the cache as it was. *)
Theorem every_event_invokes_at_most_once :
  forall (leading trailing : bool) (maxWait : option Z)
         (sd : Debounce.state V This Res) (st : Throttle.state V This Res)
         (e : event V This),
    match Debounce.step func wait leading trailing maxWait sd e with
    | Some (sd', o) =>
        oneInvocationAtMost func e (Debounce.journal sd) (Debounce.result sd)
          (Debounce.journal sd') (Debounce.result sd') o
    | None => True
    end
    /\ match Throttle.step func wait leading trailing st e with
       | Some (st', o) =>
           oneInvocationAtMost func e (Throttle.journal st)
             (Throttle.result st) (Throttle.journal st')
             (Throttle.result st') o
       | None => True
       end.
Proof.
  intros leading trailing maxWait sd st e.
  destruct sd as [to mto la lt r lc li q n c j].
  destruct st as [to' la' lt' r' lc' li' q' n' c' j'].
  unfold oneInvocationAtMost.
  destruct e as [time this args | h time | | time];
    (split; [unfold_debounce | unfold_throttle]);
    split_cases; try exact I;
    first [ left; repeat split; first [reflexivity | discriminate]
          | right; eexists; eexists; eexists;
            split; [reflexivity |]; split; [reflexivity |];
            match goal with
            | H : ?f ?a ?b = _ |- context [match ?f ?a ?b with _ => _ end] =>
                rewrite H
            end;
            repeat split; first [reflexivity | discriminate] ].
Qed.

End EdgeFlags.

(** A first call at [5] of a new wrapper: timer [0] is live afterwards. *)
Lemma leading_off_calls_do_not_invoke_witness :
  (Debounce.timeout (@Debounce.initial nat unit nat) = None
   \/ timerScheduled (Debounce.timeout (@Debounce.initial nat unit nat))
        (Debounce.queue (@Debounce.initial nat unit nat)))
  /\ (let r := Debounce.debounced countArgs 100 false None 5 tt [1%nat]
                 Debounce.initial in
      Debounce.journal (fst r) = []
      /\ Debounce.queue (fst r) = [Timer 0 TimerExpired 105]
      /\ timerScheduled (Debounce.timeout (fst r)) (Debounce.queue (fst r)))
  /\ (let r := Throttle.throttled countArgs 100 false 5 tt [1%nat]
                 Throttle.initial in
      Throttle.journal (fst r) = []
      /\ Throttle.queue (fst r) = [Timer 0 TimerExpired 105]
      /\ timerScheduled (Throttle.timeout (fst r)) (Throttle.queue (fst r))).
Proof.
  split; [left; reflexivity |].
  destruct (leading_off_calls_do_not_invoke countArgs 100
              Debounce.initial Throttle.initial 5 tt [1%nat]
              (or_introl eq_refl) (or_introl eq_refl))
    as [(Hdj & _ & _ & _ & _ & Hdt) (Htj & _ & _ & _ & _ & Htt)].
  split.
  - split; [exact Hdj |]. split; [reflexivity | exact Hdt].
  - split; [exact Htj |]. split; [reflexivity | exact Htt].
Defined.

(** The timer of a pending wrapper running with [trailing = false]. *)
Lemma trailing_off_only_calls_invoke_witness :
  @isCall nat unit (Fire 0 100) = false
  /\ match Debounce.step countArgs 100 false false None debouncePending
            (Fire 0 100) with
     | Some (s', _) => Debounce.journal s' = []
     | None => True
     end
  /\ match Throttle.step countArgs 100 false false throttlePending
            (Fire 0 100) with
     | Some (s', _) => Throttle.journal s' = []
     | None => True
     end.
Proof.
  split; [reflexivity |].
  apply (trailing_off_only_calls_invoke countArgs 100 false None
           debouncePending throttlePending (Fire 0 100)).
  reflexivity.
Defined.

(** A call, the timer on time, a flush and a cancellation, with both edges
    off. *)
Lemma throttle_no_edges_never_invokes_witness :
  exists s,
    Throttle.run countArgs 100 false false Throttle.initial
      [Call 0 tt [1%nat]; Fire 0 100; Flush 150; Cancel] = Some s
    /\ Throttle.journal s = [].
Proof.
  eexists. split; [vm_compute; reflexivity |].
  apply (throttle_no_edges_never_invokes countArgs 100
           [Call 0 tt [1%nat]; Fire 0 100; Flush 150; Cancel]
           Throttle.initial).
  vm_compute. reflexivity.
Defined.

(** ** [pending()], [flush()], [cancel()] and [remainingWait] *)

Section ControlMethods.

Context {V This Res Exn : Type}.
Variable func : option This -> list V -> Res + Exn.
Variable wait : Z.
Variable leading trailing : bool.
Variable maxWait : option Z.

(** X5.  [pending()] of a debounced wrapper is true right after every
    call, whether or not the call ran the callable and whether or not the
    callable threw, and false right after [cancel()] and after
    [flush()]. *)
Theorem pending_after_each_operation :
  forall (s : Debounce.state V This Res) (time : Z) (this : This)
         (args : list V),
    Debounce.pending
      (fst (Debounce.debounced func wait leading maxWait time this args s))
    = true
    /\ Debounce.pending (fst (Debounce.cancel (Exn := Exn) s)) = false
    /\ Debounce.pending (fst (Debounce.flush func trailing time s)) = false.
Proof.
  intros s time this args.
  destruct s as [to mto la lt r lc li q n c j].
  unfold Debounce.pending.
  split; [| split]; unfold_debounce; split_cases; reflexivity.
Qed.

Lemma debounce_flush_settles (s : Debounce.state V This Res) (t : Z) :
  let first := Debounce.flush func trailing t s in
  Debounce.timeout (fst first) = None
  /\ Debounce.maxTimeout (fst first) = None
  /\ (forall r, snd first = Returned r -> Debounce.result (fst first) = r).
Proof.
  destruct s as [to mto la lt r lc li q n c j].
  unfold_debounce; split_cases; repeat split; try reflexivity;
    intros ? H; congruence.
Qed.

Lemma throttle_flush_settles (s : Throttle.state V This Res) (t : Z) :
  let first := Throttle.flush func trailing t s in
  Throttle.timeout (fst first) = None
  /\ (forall r, snd first = Returned r -> Throttle.result (fst first) = r).
Proof.
  destruct s as [to la lt r lc li q n c j].
  unfold_throttle; split_cases; repeat split; try reflexivity;
    intros ? H; congruence.
Qed.

Lemma debounce_flush_idle (s : Debounce.state V This Res) (t : Z) :
  Debounce.timeout s = None -> Debounce.maxTimeout s = None ->
  Debounce.flush func trailing t s = (s, Returned (Debounce.result s)).
Proof. intros Hto Hmto. unfold Debounce.flush. now rewrite Hto, Hmto. Qed.

Lemma throttle_flush_idle (s : Throttle.state V This Res) (t : Z) :
  Throttle.timeout s = None ->
  Throttle.flush func trailing t s = (s, Returned (Throttle.result s)).
Proof. intros Hto. unfold Throttle.flush. now rewrite Hto. Qed.

(** X6.  A second [flush()] right after a first one changes nothing and
    runs nothing: it returns the cached result, which is what the first
    one returned unless the callable threw there. *)
Theorem flush_twice_is_flush_once :
  forall (sd : Debounce.state V This Res) (st : Throttle.state V This Res)
         (t t' : Z),
    (let first := Debounce.flush func trailing t sd in
     let second := Debounce.flush func trailing t' (fst first) in
     fst second = fst first
     /\ snd second = Returned (Debounce.result (fst first))
     /\ match snd first with
        | Returned r => snd second = Returned r
        | Threw _ => True
        end)
    /\ (let first := Throttle.flush func trailing t st in
        let second := Throttle.flush func trailing t' (fst first) in
        fst second = fst first
        /\ snd second = Returned (Throttle.result (fst first))
        /\ match snd first with
           | Returned r => snd second = Returned r
           | Threw _ => True
           end).
Proof.
  intros sd st t t'.
  split.
  - destruct (debounce_flush_settles sd t) as (Hto & Hmto & Hres).
    cbv zeta in *.
    rewrite (debounce_flush_idle _ t' Hto Hmto). cbn [fst snd].
    split; [reflexivity |]. split; [reflexivity |].
    destruct (snd (Debounce.flush func trailing t sd)) as [r |];
      [| exact I].
    now rewrite (Hres r eq_refl).
  - destruct (throttle_flush_settles st t) as (Hto & Hres).
    cbv zeta in *.
    rewrite (throttle_flush_idle _ t' Hto). cbn [fst snd].
    split; [reflexivity |]. split; [reflexivity |].
    destruct (snd (Throttle.flush func trailing t st)) as [r |];
      [| exact I].
    now rewrite (Hres r eq_refl).
Qed.

(** X7.  [cancel()] is idempotent, and on a wrapper that has not been
    used it changes nothing. *)
Theorem cancel_twice_is_cancel_once :
  forall (sd : Debounce.state V This Res) (st : Throttle.state V This Res),
    fst (Debounce.cancel (Exn := Exn) (fst (Debounce.cancel (Exn := Exn) sd)))
    = fst (Debounce.cancel (Exn := Exn) sd)
    /\ fst (Throttle.cancel (Exn := Exn)
              (fst (Throttle.cancel (Exn := Exn) st)))
       = fst (Throttle.cancel (Exn := Exn) st)
    /\ fst (Debounce.cancel (Exn := Exn) (@Debounce.initial V This Res))
       = Debounce.initial
    /\ fst (Throttle.cancel (Exn := Exn) (@Throttle.initial V This Res))
       = Throttle.initial.
Proof.
  intros sd st.
  destruct sd as [to mto la lt r lc li q n c j].
  destruct st as [to' la' lt' r' lc' li' q' n' c' j'].
  repeat split; try reflexivity; unfold_debounce; unfold_throttle;
    split_cases; reflexivity.
Qed.

Ltac open_shouldInvoke :=
  repeat match goal with
         | H : _ || _ = false |- _ => apply orb_false_elim in H as [? ?]
         end;
  repeat match goal with
         | H : match ?x with _ => _ end = false |- _ => destruct x
         end;
  try discriminate; reflect_comparisons.

(** X8.  Whenever a debounced wrapper decides not to invoke, the delay
    [remainingWait] gives for the timer it puts back is positive and at
    most [wait]: the timer is never put back due at once. *)
Theorem debounce_remainingWait_is_positive :
  forall (s : Debounce.state V This Res) (time : Z),
    Debounce.shouldInvoke wait maxWait time s = false ->
    0 < Debounce.remainingWait wait maxWait time s <= wait.
Proof.
  intros s time.
  destruct s as [to mto la lt r lc li q n c j].
  cbv [Debounce.shouldInvoke Debounce.remainingWait Debounce.lastCallTime
       Debounce.lastInvokeTime orZero isNull].
  intros H; open_shouldInvoke; lia.
Qed.

(** X9.  The same for a throttled wrapper. *)
Theorem throttle_remainingWait_is_positive :
  forall (s : Throttle.state V This Res) (time : Z),
    Throttle.shouldInvoke wait time s = false ->
    0 < Throttle.remainingWait wait time s <= wait.
Proof.
  intros s time.
  destruct s as [to la lt r lc li q n c j].
  cbv [Throttle.shouldInvoke Throttle.remainingWait Throttle.lastCallTime
       Throttle.lastInvokeTime orZero isNull].
  intros H; open_shouldInvoke; lia.
Qed.

End ControlMethods.

(** A wrapper called at [0] with [wait = 100], asked at [40]. *)
Lemma debounce_remainingWait_is_positive_witness :
  Debounce.shouldInvoke 100 (Some 110) 40 debouncePending = false
  /\ 0 < Debounce.remainingWait 100 (Some 110) 40 debouncePending <= 100.
Proof.
  split; [reflexivity |].
  apply (debounce_remainingWait_is_positive 100 (Some 110) debouncePending
           40).
  reflexivity.
Defined.

Lemma throttle_remainingWait_is_positive_witness :
  Throttle.shouldInvoke 100 40 throttlePending = false
  /\ 0 < Throttle.remainingWait 100 40 throttlePending <= 100.
Proof.
  split; [reflexivity |].
  apply (throttle_remainingWait_is_positive 100 throttlePending 40).
  reflexivity.
Defined.

(** ** Which calls the callable runs for *)

Section EachCallOnce.

Context {V This Res Exn : Type}.
Variable func : option This -> list V -> Res + Exn.
Variable wait : Z.
Variable leading trailing : bool.

Lemma subsequence_snoc_skip {A : Type} (x : A) (l1 l2 : list A) :
  subsequence l1 l2 -> subsequence l1 (l2 ++ [x]).
Proof.
  induction 1 as [| y l1 l2 _ IH | y l1 l2 _ IH]; cbn.
  - apply subsequence_skip, subsequence_nil.
  - now apply subsequence_skip.
  - now apply subsequence_take.
Qed.

Lemma subsequence_snoc_take {A : Type} (x : A) (l1 l2 : list A) :
  subsequence l1 l2 -> subsequence (l1 ++ [x]) (l2 ++ [x]).
Proof.
  induction 1 as [| y l1 l2 _ IH | y l1 l2 _ IH]; cbn.
  - apply subsequence_take, subsequence_nil.
  - now apply subsequence_skip.
  - now apply subsequence_take.
Qed.

Lemma awaiting_weaken (calls : list (request V This))
  (la : option (list V)) (lt : option This) (j : list (invocation V This)) :
  awaiting calls la lt j -> subsequence (ranFor j) (askedFor calls).
Proof.
  destruct la as [a |]; cbn; [| auto].
  intros (before & c & -> & _ & _ & Hsub).
  unfold askedFor. rewrite map_app. now apply subsequence_snoc_skip.
Qed.

Lemma awaiting_call (calls : list (request V This))
  (time : Z) (this : This) (args : list V) (j : list (invocation V This)) :
  subsequence (ranFor j) (askedFor calls) ->
  awaiting (calls ++ [Request time this args]) (Some args) (Some this) j.
Proof.
  intros Hsub. exists calls, (Request time this args).
  repeat split. exact Hsub.
Qed.

Lemma awaiting_served_call (calls : list (request V This))
  (time t : Z) (this : This) (args : list V)
  (j : list (invocation V This)) :
  subsequence (ranFor j) (askedFor calls) ->
  subsequence (ranFor (j ++ [Invocation t (Some this) args]))
    (askedFor (calls ++ [Request time this args])).
Proof.
  intros Hsub. unfold ranFor, askedFor. rewrite !map_app.
  now apply subsequence_snoc_take.
Qed.

Lemma awaiting_served_pending (calls : list (request V This))
  (t : Z) (lt : option This) (a : list V) (j : list (invocation V This)) :
  awaiting calls (Some a) lt j ->
  subsequence (ranFor (j ++ [Invocation t lt a])) (askedFor calls).
Proof.
  intros (before & c & -> & -> & -> & Hsub).
  unfold ranFor, askedFor. rewrite !map_app.
  now apply subsequence_snoc_take.
Qed.

Ltac awaiting_solver Hw Hsub :=
  rewrite ?app_nil_r;
  first [ exact I
        | exact Hw
        | exact Hsub
        | apply awaiting_call; exact Hsub
        | apply awaiting_served_call; exact Hsub
        | apply awaiting_served_pending; exact Hw ].

Lemma debounce_awaiting_step (maxWait : option Z)
  (calls : list (request V This))
  (s : Debounce.state V This Res) (e : event V This) :
  awaiting calls (Debounce.lastArgs s) (Debounce.lastThis s)
    (Debounce.journal s) ->
  match Debounce.step func wait leading trailing maxWait s e with
  | Some (s', _) =>
      awaiting (calls ++ callsOf [e]) (Debounce.lastArgs s')
        (Debounce.lastThis s') (Debounce.journal s')
  | None => True
  end.
Proof.
  destruct s as [to mto la lt r lc li q n ck j].
  cbn [Debounce.lastArgs Debounce.lastThis Debounce.journal].
  intros Hw. pose proof (awaiting_weaken _ _ _ _ Hw) as Hsub.
  destruct e as [time this args | h time | | time]; cbn [callsOf];
    unfold_debounce; split_cases; awaiting_solver Hw Hsub.
Qed.

Lemma throttle_awaiting_step (calls : list (request V This))
  (s : Throttle.state V This Res) (e : event V This) :
  awaiting calls (Throttle.lastArgs s) (Throttle.lastThis s)
    (Throttle.journal s) ->
  match Throttle.step func wait leading trailing s e with
  | Some (s', _) =>
      awaiting (calls ++ callsOf [e]) (Throttle.lastArgs s')
        (Throttle.lastThis s') (Throttle.journal s')
  | None => True
  end.
Proof.
  destruct s as [to la lt r lc li q n ck j].
  cbn [Throttle.lastArgs Throttle.lastThis Throttle.journal].
  intros Hw. pose proof (awaiting_weaken _ _ _ _ Hw) as Hsub.
  destruct e as [time this args | h time | | time]; cbn [callsOf];
    unfold_throttle; split_cases; awaiting_solver Hw Hsub.
Qed.

Lemma callsOf_cons (e : event V This) (es : list (event V This)) :
  callsOf (e :: es) = callsOf [e] ++ callsOf es.
Proof. destruct e; reflexivity. Qed.

Lemma debounce_awaiting_run (maxWait : option Z)
  (es : list (event V This)) :
  forall (calls : list (request V This)) (s s' : Debounce.state V This Res),
    awaiting calls (Debounce.lastArgs s) (Debounce.lastThis s)
      (Debounce.journal s) ->
    Debounce.run func wait leading trailing maxWait s es = Some s' ->
    awaiting (calls ++ callsOf es) (Debounce.lastArgs s')
      (Debounce.lastThis s') (Debounce.journal s').
Proof.
  induction es as [| e es IH]; intros calls s s' Hw Hrun;
    cbn [Debounce.run] in Hrun.
  - injection Hrun as <-. cbn [callsOf]. now rewrite app_nil_r.
  - pose proof (debounce_awaiting_step maxWait calls s e Hw) as Hstep.
    destruct (Debounce.step func wait leading trailing maxWait s e)
      as [[s1 o] |]; [| discriminate].
    rewrite callsOf_cons, app_assoc.
    exact (IH _ s1 s' Hstep Hrun).
Qed.

Lemma throttle_awaiting_run (es : list (event V This)) :
  forall (calls : list (request V This)) (s s' : Throttle.state V This Res),
    awaiting calls (Throttle.lastArgs s) (Throttle.lastThis s)
      (Throttle.journal s) ->
    Throttle.run func wait leading trailing s es = Some s' ->
    awaiting (calls ++ callsOf es) (Throttle.lastArgs s')
      (Throttle.lastThis s') (Throttle.journal s').
Proof.
  induction es as [| e es IH]; intros calls s s' Hw Hrun;
    cbn [Throttle.run] in Hrun.
  - injection Hrun as <-. cbn [callsOf]. now rewrite app_nil_r.
  - pose proof (throttle_awaiting_step calls s e Hw) as Hstep.
    destruct (Throttle.step func wait leading trailing s e)
      as [[s1 o] |]; [| discriminate].
    rewrite callsOf_cons, app_assoc.
    exact (IH _ s1 s' Hstep Hrun).
Qed.

(** X19.  Whatever the options and whatever is done to a debounced wrapper
    from new, the callable only ever runs with the receiver and arguments
    of a call of the wrapper, at most once for each call and in the order
    of the calls. *)
Theorem debounce_serves_each_call_at_most_once :
  forall (maxWait : option Z) (es : list (event V This))
         (s : Debounce.state V This Res),
    Debounce.run func wait leading trailing maxWait Debounce.initial es
    = Some s ->
    subsequence (ranFor (Debounce.journal s)) (askedFor (callsOf es)).
Proof.
  intros maxWait es s Hrun.
  apply (awaiting_weaken _ (Debounce.lastArgs s) (Debounce.lastThis s)).
  apply (debounce_awaiting_run maxWait es [] Debounce.initial s);
    [| exact Hrun].
  cbn. apply subsequence_nil.
Qed.

(** X20.  The same for a throttled wrapper. *)
Theorem throttle_serves_each_call_at_most_once :
  forall (es : list (event V This)) (s : Throttle.state V This Res),
    Throttle.run func wait leading trailing Throttle.initial es = Some s ->
    subsequence (ranFor (Throttle.journal s)) (askedFor (callsOf es)).
Proof.
  intros es s Hrun.
  apply (awaiting_weaken _ (Throttle.lastArgs s) (Throttle.lastThis s)).
  apply (throttle_awaiting_run es [] Throttle.initial s); [| exact Hrun].
  cbn. apply subsequence_nil.
Qed.

End EachCallOnce.

Lemma debounce_serves_each_call_at_most_once_witness :
  exists s : Debounce.state nat unit nat,
    Debounce.run countArgs 100 true true (Some 110) Debounce.initial
      (twoCallsAndTimers ++ [Flush 160; Cancel]) = Some s
    /\ subsequence (ranFor (Debounce.journal s))
         (askedFor (callsOf (twoCallsAndTimers ++ [Flush 160; Cancel]))).
Proof.
  eexists. split; [vm_compute; reflexivity |].
  apply (debounce_serves_each_call_at_most_once countArgs 100 true true
           (Some 110)).
  vm_compute. reflexivity.
Defined.

Lemma throttle_serves_each_call_at_most_once_witness :
  exists s : Throttle.state nat unit nat,
    Throttle.run countArgs 100 true true Throttle.initial
      (steadyCalls ++ [Flush 250; Cancel]) = Some s
    /\ subsequence (ranFor (Throttle.journal s))
         (askedFor (callsOf (steadyCalls ++ [Flush 250; Cancel]))).
Proof.
  eexists. split; [vm_compute; reflexivity |].
  apply (throttle_serves_each_call_at_most_once countArgs 100 true true).
  vm_compute. reflexivity.
Defined.

(** ** Live timers *)

Section LiveTimers.

Context {V This Res Exn : Type}.
Variable func : option This -> list V -> Res + Exn.
Variable wait : Z.
Variable leading trailing : bool.

Lemma throttleTidy_step (s : Throttle.state V This Res) (e : event V This) :
  throttleTidy s ->
  isCallOrFire e || isCancel e = true ->
  match Throttle.step func wait leading trailing s e with
  | Some (s', _) => throttleTidy s'
  | None => True
  end.
Proof.
  destruct s as [to la lt r lc li q n ck j].
  unfold throttleTidy. cbn.
  intros [[-> ->] | (h & d & -> & ->)] He;
    destruct e as [time this args | k time | | time]; try discriminate;
    unfold_throttle;
    cbv [lookupTimer clearTimeout setTimeout find filter app handle action
         due];
    rewrite ?Nat.eqb_refl; cbn [negb];
    split_cases; try exact I;
    first [ left; split; reflexivity
          | right; eexists; eexists; split; reflexivity ].
Qed.

Lemma throttleTidy_run (es : list (event V This)) :
  forall s s' : Throttle.state V This Res,
    throttleTidy s ->
    forallb (fun e => isCallOrFire e || isCancel e) es = true ->
    Throttle.run func wait leading trailing s es = Some s' ->
    throttleTidy s'.
Proof.
  induction es as [| e es IH]; intros s s' Hs Hes Hrun;
    cbn [forallb Throttle.run] in Hes, Hrun.
  - now injection Hrun as <-.
  - apply andb_prop in Hes as [He Hes].
    pose proof (throttleTidy_step s e Hs He) as Hstep.
    destruct (Throttle.step func wait leading trailing s e)
      as [[s1 o] |]; [| discriminate].
    exact (IH s1 s' Hstep Hes Hrun).
Qed.

(** X10.  A throttled wrapper that is called, whose timers run and that is
    cancelled, in any order from new, keeps at most one timer live, the one
    [timeout] names; [cancel()] then leaves none behind. *)
Theorem throttle_keeps_one_timer :
  forall (es : list (event V This)) (s : Throttle.state V This Res),
    forallb (fun e => isCallOrFire e || isCancel e) es = true ->
    Throttle.run func wait leading trailing Throttle.initial es = Some s ->
    (length (Throttle.queue s) <= 1)%nat
    /\ (Throttle.timeout s = None <-> Throttle.queue s = [])
    /\ Throttle.queue (fst (Throttle.cancel (Exn := Exn) s)) = [].
Proof.
  intros es s Hes Hrun.
  assert (Hs : throttleTidy s).
  { apply (throttleTidy_run es Throttle.initial s); [| exact Hes | exact Hrun].
    left. split; reflexivity. }
  destruct s as [to la lt r lc li q n ck j].
  destruct Hs as [[Hto Hq] | (h & d & Hto & Hq)]; cbn in Hto, Hq; subst.
  - cbn. repeat split; auto.
  - unfold_throttle. cbv [clearTimeout filter handle].
    rewrite Nat.eqb_refl. cbn.
    repeat split; try lia; intros H; discriminate.
Qed.

(** X11.  For a debounced wrapper without [maxWait] that is called, whose
    timers run and that is cancelled, in any order from new, [pending()]
    is true exactly when a timer is live; there is at most one, and
    [cancel()] leaves none behind. *)
Theorem debounce_pending_tells_a_timer_is_live :
  forall (es : list (event V This)) (s : Debounce.state V This Res),
    forallb (fun e => isCallOrFire e || isCancel e) es = true ->
    Debounce.run func wait leading trailing None Debounce.initial es = Some s ->
    (Debounce.pending s = true <-> Debounce.queue s <> [])
    /\ (length (Debounce.queue s) <= 1)%nat
    /\ Debounce.queue (fst (Debounce.cancel (Exn := Exn) s)) = [].
Proof.
  intros es s Hes Hrun.
  assert (Hs : tidy s).
  { apply (debounce_one_primary_timer_without_maxWait func wait leading
             trailing es Debounce.initial s); [| exact Hes | exact Hrun].
    split; [reflexivity |]. left. split; reflexivity. }
  destruct s as [to mto la lt r lc li q n ck j].
  destruct Hs as [Hmto [[Hto Hq] | (h & d & Hto & Hq)]];
    cbn in Hmto, Hto, Hq; subst.
  - cbn. repeat split; auto; try discriminate; intros H; now contradiction H.
  - unfold Debounce.pending. unfold_debounce. cbv [clearTimeout filter handle].
    rewrite Nat.eqb_refl. cbn.
    repeat split; try lia; try reflexivity; intros H; discriminate.
Qed.

End LiveTimers.

Lemma throttle_keeps_one_timer_witness :
  exists s : Throttle.state nat unit nat,
    Throttle.run countArgs 100 true true Throttle.initial
      (steadyCalls ++ [Cancel; Call 300 tt [4%nat]]) = Some s
    /\ (length (Throttle.queue s) <= 1)%nat
    /\ (Throttle.timeout s = None <-> Throttle.queue s = [])
    /\ Throttle.queue (fst (Throttle.cancel (Exn := unit) s)) = [].
Proof.
  eexists. split; [vm_compute; reflexivity |].
  apply (throttle_keeps_one_timer countArgs 100 true true
           (steadyCalls ++ [Cancel; Call 300 tt [4%nat]]));
    vm_compute; reflexivity.
Defined.

Lemma debounce_pending_tells_a_timer_is_live_witness :
  exists s : Debounce.state nat unit nat,
    Debounce.run countArgs 100 true true None Debounce.initial
      (twoCallsAndTimers ++ [Call 200 tt [3%nat]]) = Some s
    /\ (Debounce.pending s = true <-> Debounce.queue s <> [])
    /\ (length (Debounce.queue s) <= 1)%nat
    /\ Debounce.queue (fst (Debounce.cancel (Exn := unit) s)) = [].
Proof.
  eexists. split; [vm_compute; reflexivity |].
  apply (debounce_pending_tells_a_timer_is_live countArgs 100 true true
           (twoCallsAndTimers ++ [Call 200 tt [3%nat]]));
    vm_compute; reflexivity.
Defined.

(** ** The quiet period of [debounce] *)

Section QuietPeriodGuarantee.

Context {V This Res Exn : Type}.
Variable func : option This -> list V -> Res + Exn.
Variable wait : Z.
Variable trailing : bool.

Lemma servesLatest_later (calls : list (request V This))
  (c : request V This) (i : invocation V This) :
  servesLatest wait calls i ->
  at_time i <= req_time c ->
  servesLatest wait (calls ++ [c]) i.
Proof.
  intros (before & c0 & after & -> & Hr & Ha & Hw & Hafter) Hle.
  exists before, c0, (after ++ [c]).
  rewrite <- app_assoc. cbn [app].
  repeat split; auto.
  apply Forall_app. split; [exact Hafter |].
  constructor; [exact Hle | constructor].
Qed.

Lemma quiet_step (calls : list (request V This))
  (s : Debounce.state V This Res) (e : event V This) :
  tidy s ->
  quiet wait calls s ->
  Debounce.chronological s e = true ->
  isCallOrFire e || isCancel e = true ->
  match Debounce.step func wait false trailing None s e with
  | Some (s', _) => quiet wait (calls ++ callsOf [e]) s'
  | None => True
  end.
Proof.
  destruct s as [to mto la lt r lc li q n ck j].
  unfold tidy, quiet, Debounce.chronological.
  destruct e as [time this args | k time | | time]; cbn;
    intros [-> Hq] (Hj & Hlc & Hla) Ht He; try discriminate;
    reflect_comparisons.
  - (* a call never invokes *)
    assert (Hj' : Forall
              (fun i => servesLatest wait
                          (calls ++ [Request time this args]) i
                        /\ at_time i <= time) j).
    { revert Hj. apply Forall_impl. intros i [Hi Hle]. split; [| lia].
      apply servesLatest_later; [exact Hi | cbn; lia]. }
    assert (Hla' : forall a, Some args = Some a ->
              exists before c,
                calls ++ [Request time this args] = before ++ [c]
                /\ Some time = Some (req_time c)
                /\ Some this = Some (req_this c)
                /\ a = req_args c).
    { intros a [= <-]. exists calls, (Request time this args).
      repeat split; reflexivity. }
    unfold_debounce; split_cases;
      (split; [exact Hj' | split; [lia | exact Hla']]).
  - (* a timer fires *)
    rewrite app_nil_r.
    assert (Hj' : Forall
              (fun i => servesLatest wait calls i /\ at_time i <= time) j).
    { revert Hj. apply Forall_impl. intros i [Hi Hle]. split; [exact Hi | lia]. }
    destruct Hq as [[-> ->] | (h & d & -> & ->)]; [exact I |].
    unfold_debounce;
      cbv [lookupTimer clearTimeout setTimeout find filter app handle action
           due];
      split_cases; try exact I; reflect_comparisons;
      (split; [| split; [try exact I; try lia
                        | first [exact Hla | intros ? [=]]]]);
      try exact Hj'.
    all: try (destruct lc; [lia | exact I]).
    all: apply Forall_app; (split; [exact Hj' |]);
      (apply Forall_cons; [| apply Forall_nil]);
      (split; [| cbn; lia]);
      destruct (Hla _ eq_refl) as (before & c & -> & Hc & Hth & ->);
      exists before, c, [];
      cbn [receiver arguments at_time];
      try discriminate; injection Hc as Hc;
      repeat split; auto; lia.
  - (* cancel *)
    rewrite app_nil_r.
    unfold_debounce; split_cases;
      (split; [exact Hj | split; [exact I | intros ? [=]]]).
Qed.

Lemma quiet_run (es : list (event V This)) :
  forall (calls : list (request V This)) (s s' : Debounce.state V This Res),
    tidy s ->
    quiet wait calls s ->
    forallb (fun e => isCallOrFire e || isCancel e) es = true ->
    Debounce.runWhere func wait false trailing None Debounce.chronological
      s es = Some s' ->
    quiet wait (calls ++ callsOf es) s'.
Proof.
  induction es as [| e es IH]; intros calls s s' Ht Hs Hes Hrun;
    cbn [forallb Debounce.runWhere] in Hes, Hrun.
  - injection Hrun as <-. cbn. now rewrite app_nil_r.
  - apply andb_prop in Hes as [He Hes].
    destruct (Debounce.chronological s e) eqn:Hchr; [| discriminate].
    pose proof (quiet_step calls s e Ht Hs Hchr He) as Hstep.
    pose proof (tidy_step func wait false trailing s e Ht He) as Htidy.
    destruct (Debounce.step func wait false trailing None s e)
      as [[s1 o] |]; [| discriminate].
    specialize (IH _ s1 s' Htidy Hstep Hes Hrun).
    replace (calls ++ callsOf (e :: es))
      with ((calls ++ callsOf [e]) ++ callsOf es); [exact IH |].
    rewrite <- app_assoc. f_equal.
    destruct e; reflexivity.
Qed.

(** X14.  A debounced wrapper with [leading = false] and no [maxWait],
    called and cancelled at will while time never runs backwards and its
    timers run when due or later, runs the callable only for the latest
    call made so far, with that call's receiver and arguments, and never
    sooner than [wait] after it. *)
Theorem debounce_waits_for_a_quiet_period :
  forall (es : list (event V This)) (s : Debounce.state V This Res),
    forallb (fun e => isCallOrFire e || isCancel e) es = true ->
    Debounce.runWhere func wait false trailing None Debounce.chronological
      Debounce.initial es = Some s ->
    forall i, In i (Debounce.journal s) -> servesLatest wait (callsOf es) i.
Proof.
  intros es s Hes Hrun i Hi.
  assert (Hq : quiet wait ([] ++ callsOf es) s).
  { apply (quiet_run es [] Debounce.initial s); [| | exact Hes | exact Hrun].
    - split; [reflexivity |]. left. split; reflexivity.
    - split; [constructor |]. split; [exact I |]. intros a [=]. }
  destruct Hq as [Hj _]. cbn [app] in Hj.
  rewrite Forall_forall in Hj. exact (proj1 (Hj i Hi)).
Qed.

End QuietPeriodGuarantee.

Lemma debounce_waits_for_a_quiet_period_witness :
  exists s : Debounce.state nat unit nat,
    Debounce.runWhere countArgs 100 false true None Debounce.chronological
      Debounce.initial twoCallsAndTimers = Some s
    /\ In (Invocation 150 (Some tt) [2%nat]) (Debounce.journal s)
    /\ servesLatest 100 (callsOf twoCallsAndTimers)
         (Invocation 150 (Some tt) [2%nat]).
Proof.
  eexists. split; [vm_compute; reflexivity |].
  split; [vm_compute; left; reflexivity |].
  eapply (debounce_waits_for_a_quiet_period countArgs 100 true
            twoCallsAndTimers);
    [ vm_compute; reflexivity
    | vm_compute; reflexivity
    | vm_compute; left; reflexivity ].
Defined.

(** ** A burst of calls, any edge flags *)

Section BurstWithEdges.

Context {V This Res Exn : Type}.
Variable func : option This -> list V -> Res + Exn.
Variable wait : Z.
Variable leading trailing : bool.
Hypothesis wait_nonneg : 0 <= wait.

Local Abbreviation step := (Debounce.step func wait leading trailing None).
Local Abbreviation punctualRun :=
  (Debounce.runWhere func wait leading trailing None Debounce.punctual).

Ltac split_conditions :=
  repeat match goal with
         | H : _ && _ = true |- _ => apply andb_prop in H as [? ?]
         end.

Ltac unfold_host :=
  cbv [noneOverdue forallb lookupTimer clearTimeout setTimeout find filter
       app handle action due].

Ltac open_punctual H :=
  cbv [Debounce.punctual Debounce.chronological eventTime noneOverdue
       forallb lookupTimer find handle action due Debounce.queue
       Debounce.clock] in H.

Ltac open_burst H :=
  destruct H as (h & d & Hto & Hmto & Hla & Hlt & Hlc & Hq & Hck & Hd & Hj);
  cbn in Hto, Hmto, Hla, Hlt, Hlc, Hq, Hck, Hd, Hj; subst.

Lemma edge_first_call (time : Z) (this : This) (args : list V) :
  0 <= time ->
  Debounce.punctual (@Debounce.initial V This Res) (Call time this args)
  = true
  /\ match step Debounce.initial (Call time this args) with
     | Some (s', _) =>
         burstingWith wait
           (if leading then [served 0 (Request time this args)] else [])
           (negb leading) (Request time this args) s'
         /\ Debounce.clock s' = time
     | None => False
     end.
Proof.
  intros Ht. split.
  - cbv [Debounce.punctual Debounce.chronological eventTime noneOverdue
         forallb Debounce.initial Debounce.queue Debounce.clock].
    apply Z.leb_le in Ht. now rewrite Ht.
  - unfold_debounce. cbn. split_cases.
    all: split; [| reflexivity].
    all: exists 0%nat, (time + Z.max 0 wait).
    all: cbv [served req_time req_this req_args]; rewrite ?Z.add_0_r.
    all: cbn; repeat split; try reflexivity; lia.
Qed.

Lemma edge_burst_call (log : list (invocation V This)) (held : bool)
  (c : request V This) (s : Debounce.state V This Res)
  (time : Z) (this : This) (args : list V) :
  burstingWith wait log held c s ->
  Debounce.punctual s (Call time this args) = true ->
  req_time c <= time < req_time c + wait ->
  match step s (Call time this args) with
  | Some (s', _) =>
      burstingWith wait log true (Request time this args) s'
      /\ Debounce.clock s' = time
  | None => False
  end.
Proof.
  destruct s as [to mto la lt r lc li q n ck j]; destruct c as [ct cth ca].
  intros Hb Hp Ht. open_burst Hb. cbn in Ht.
  open_punctual Hp. split_conditions. reflect_comparisons.
  unfold_debounce. cbn.
  split_cases; reflect_comparisons; try lia.
  all: split; [| reflexivity].
  all: exists h, d; cbn; repeat split; try reflexivity; lia.
Qed.

Lemma edge_burst_timer (log : list (invocation V This)) (held : bool)
  (c : request V This) (s : Debounce.state V This Res) :
  burstingWith wait log held c s ->
  exists h d,
    Debounce.queue s = [Timer h TimerExpired d]
    /\ Debounce.clock s <= d
    /\ d <= req_time c + wait
    /\ Debounce.punctual s (Fire h d) = true.
Proof.
  destruct s as [to mto la lt r lc li q n ck j]; destruct c as [ct cth ca].
  intros Hb. open_burst Hb.
  exists h, d. cbn in *. repeat split; try lia.
  cbv [Debounce.punctual Debounce.chronological eventTime noneOverdue
       forallb lookupTimer find handle action due Debounce.queue
       Debounce.clock].
  rewrite Nat.eqb_refl, Z.eqb_refl, Z.leb_refl.
  apply Z.leb_le in Hck. now rewrite Hck.
Qed.

Lemma edge_burst_fire (log : list (invocation V This)) (held : bool)
  (c : request V This) (s : Debounce.state V This Res)
  (k : nat) (time : Z) :
  burstingWith wait log held c s ->
  Debounce.punctual s (Fire k time) = true ->
  match step s (Fire k time) with
  | Some (s', _) =>
      (time = req_time c + wait
       /\ settledWith wait (log ++ trailingLog wait trailing held c) c s')
      \/ (time < req_time c + wait
          /\ burstingWith wait log held c s'
          /\ Debounce.clock s' = time
          /\ exists h', Debounce.queue s'
                        = [Timer h' TimerExpired (req_time c + wait)])
  | None => False
  end.
Proof.
  destruct s as [to mto la lt r lc li q n ck j]; destruct c as [ct cth ca].
  intros Hb Hp.
  destruct held, trailing; cbv [trailingLog andb]; rewrite ?app_nil_r;
    open_burst Hb;
    open_punctual Hp;
    (destruct (Nat.eqb h k) eqn:Hh; split_conditions; try discriminate);
    reflect_comparisons; subst;
    unfold_debounce; unfold_host; rewrite Nat.eqb_refl;
    rewrite Z.leb_refl; cbn;
    split_cases; reflect_comparisons; try lia.
  all: first
    [ left; assert (time = ct + wait) as -> by lia;
      cbv [settledWith trailingLog served andb req_time req_this req_args];
      cbn; rewrite ?app_nil_r; repeat split; reflexivity
    | right; (split; [lia |]);
      replace (time + Z.max 0 (wait - (time - ct))) with (ct + wait) by lia;
      (split; [| split; [reflexivity | now exists n]]);
      exists n, (ct + wait); cbn; repeat split; try reflexivity; lia ].
Qed.

Lemma edge_settled_is_final (log : list (invocation V This))
  (c : request V This) (s s' : Debounce.state V This Res)
  (es : list (event V This)) :
  settledWith wait log c s ->
  forallb isCallOrFire es = true ->
  spaced wait (c :: callsOf es) ->
  punctualRun s es = Some s' ->
  es = [].
Proof.
  destruct s as [to mto la lt r lc li q n ck j]; destruct c as [ct cth ca].
  intros (Hq & Hck & Hj) Hcf Hsp Hrun. cbn in Hq, Hck, Hj. subst.
  destruct es as [| [time this args | k time | | time] es];
    [reflexivity | | | discriminate | discriminate]; exfalso.
  - cbn in Hsp. cbn [Debounce.runWhere] in Hrun.
    destruct (Debounce.punctual _ _) eqn:Hp in Hrun; [| discriminate].
    open_punctual Hp. split_conditions. reflect_comparisons. lia.
  - cbn [Debounce.runWhere] in Hrun.
    destruct (Debounce.punctual _ _) eqn:Hp in Hrun; [| discriminate].
    open_punctual Hp. split_conditions. discriminate.
Qed.

Lemma edge_burst_outcome (es : list (event V This)) :
  forall (log : list (invocation V This)) (held : bool)
    (c : request V This) (s s' : Debounce.state V This Res),
    burstingWith wait log held c s ->
    forallb isCallOrFire es = true ->
    spaced wait (c :: callsOf es) ->
    punctualRun s es = Some s' ->
    Debounce.queue s' = [] ->
    Debounce.journal s'
    = log ++ trailingLog wait trailing (heldAfter held (callsOf es))
               (last (callsOf es) c).
Proof.
  induction es as [| e es IH]; intros log held c s s' Hb Hcf Hsp Hrun Hq.
  - cbn in Hrun. injection Hrun as <-.
    destruct Hb as (h & d & _ & _ & _ & _ & _ & Hq' & _).
    rewrite Hq in Hq'. discriminate.
  - cbn [forallb] in Hcf. apply andb_prop in Hcf as [He Hcf].
    cbn [Debounce.runWhere] in Hrun.
    destruct (Debounce.punctual s e) eqn:Hp; [| discriminate].
    destruct e as [time this args | k time | | time]; try discriminate.
    + cbn [callsOf] in Hsp |- *.
      destruct Hsp as [Ht Hsp].
      pose proof (edge_burst_call log held c s time this args Hb Hp Ht)
        as Hstep.
      destruct (step s (Call time this args)) as [[s1 o] |]; [| contradiction].
      destruct Hstep as [Hb1 _].
      rewrite last_cons_default.
      rewrite (IH log true _ s1 s' Hb1 Hcf Hsp Hrun Hq).
      cbn [heldAfter]. now destruct (callsOf es).
    + cbn [callsOf] in Hsp |- *.
      pose proof (edge_burst_fire log held c s k time Hb Hp) as Hstep.
      destruct (step s (Fire k time)) as [[s1 o] |]; [| contradiction].
      destruct Hstep as [[_ Hs1] | (_ & Hb1 & _)].
      * pose proof (edge_settled_is_final _ c s1 s' es Hs1 Hcf Hsp Hrun)
          as ->.
        cbn in Hrun. injection Hrun as <-.
        apply Hs1.
      * exact (IH log held c s1 s' Hb1 Hcf Hsp Hrun Hq).
Qed.

Lemma edge_burst_drains (log : list (invocation V This)) (held : bool)
  (c : request V This) (s : Debounce.state V This Res) :
  burstingWith wait log held c s ->
  exists es s',
    callsOf es = [] /\ forallb isCallOrFire es = true
    /\ punctualRun s es = Some s' /\ Debounce.queue s' = [].
Proof.
  intros Hb.
  destruct (edge_burst_timer log held c s Hb) as (h & d & Hq & Hck & Hd & Hp).
  pose proof (edge_burst_fire log held c s h d Hb Hp) as Hstep.
  destruct (step s (Fire h d)) as [[s1 o1] |] eqn:Hs1; [| contradiction].
  destruct Hstep as [[_ Hset] | (Hlt & Hb1 & Hck1 & h' & Hq1)].
  - exists [Fire h d], s1.
    cbn [callsOf forallb isCallOrFire Debounce.runWhere].
    rewrite Hp, Hs1. repeat split. apply Hset.
  - destruct (edge_burst_timer log held c s1 Hb1)
      as (h2 & d2 & Hq2 & _ & _ & Hp2).
    rewrite Hq1 in Hq2. injection Hq2 as <- <-.
    pose proof (edge_burst_fire log held c s1 h' _ Hb1 Hp2) as Hstep2.
    destruct (step s1 (Fire h' (req_time c + wait))) as [[s2 o2] |] eqn:Hs2;
      [| contradiction].
    destruct Hstep2 as [[_ Hset] | (Hlt2 & _)]; [| lia].
    exists [Fire h d; Fire h' (req_time c + wait)], s2.
    cbn [callsOf forallb isCallOrFire Debounce.runWhere].
    rewrite Hp, Hs1, Hp2, Hs2. repeat split. apply Hset.
Qed.

Lemma edge_burst_schedule (cs : list (request V This)) :
  forall (log : list (invocation V This)) (held : bool)
    (c : request V This) (s : Debounce.state V This Res),
    burstingWith wait log held c s ->
    Debounce.clock s = req_time c ->
    spaced wait (c :: cs) ->
    exists es s',
      callsOf es = cs /\ forallb isCallOrFire es = true
      /\ punctualRun s es = Some s' /\ Debounce.queue s' = [].
Proof.
  induction cs as [| c' cs IH]; intros log held c s Hb Hclock Hsp.
  - now apply edge_burst_drains with (log := log) (held := held) (c := c).
  - destruct Hsp as [Ht Hsp].
    destruct c' as [t' this' args']. cbn [req_time] in Ht.
    destruct (edge_burst_timer log held c s Hb)
      as (h & d & Hq & Hck & Hd & Hp).
    destruct (Z_le_gt_dec t' d) as [Hle | Hgt].
    + assert (Hpc : Debounce.punctual s (Call t' this' args') = true)
        by (apply (call_punctual s h d); [exact Hq | lia | lia]).
      pose proof (edge_burst_call log held c s t' this' args' Hb Hpc Ht)
        as Hstep.
      destruct (step s (Call t' this' args')) as [[s1 o1] |] eqn:Hs1;
        [| contradiction].
      destruct Hstep as [Hb1 Hck1].
      destruct (IH _ _ _ s1 Hb1 Hck1 Hsp)
        as (es & s' & Hcalls & Hcf & Hrun & Hq').
      exists (Call t' this' args' :: es), s'.
      cbn [callsOf forallb isCallOrFire Debounce.runWhere].
      rewrite Hpc, Hs1, Hcalls. repeat split; assumption.
    + pose proof (edge_burst_fire log held c s h d Hb Hp) as Hstep.
      destruct (step s (Fire h d)) as [[s1 o1] |] eqn:Hs1; [| contradiction].
      destruct Hstep as [[Heq _] | (Hlt & Hb1 & Hck1 & h' & Hq1)]; [lia |].
      assert (Hpc : Debounce.punctual s1 (Call t' this' args') = true)
        by (apply (call_punctual s1 h' (req_time c + wait));
            [exact Hq1 | lia | lia]).
      pose proof (edge_burst_call log held c s1 t' this' args' Hb1 Hpc Ht)
        as Hstep.
      destruct (step s1 (Call t' this' args')) as [[s2 o2] |] eqn:Hs2;
        [| contradiction].
      destruct Hstep as [Hb2 Hck2].
      destruct (IH _ _ _ s2 Hb2 Hck2 Hsp)
        as (es & s' & Hcalls & Hcf & Hrun & Hq').
      exists (Fire h d :: Call t' this' args' :: es), s'.
      cbn [callsOf forallb isCallOrFire Debounce.runWhere].
      rewrite Hp, Hs1, Hpc, Hs2, Hcalls. repeat split; assumption.
Qed.

(** X16.  Whatever the edge flags, without [maxWait] and with [wait] not
    negative, a burst of calls from new (each less than [wait] after the
    one before) makes the callable run as [burstLog] says: at once for the
    first call when [leading] is set, and [wait] after the last call when
    [trailing] is set and that call has not been served by the leading edge
    already.  Such a burst has a punctual schedule on which the timers run
    out, and this holds on every one of them. *)
Theorem debounce_burst_with_edges :
  forall (first : request V This) (rest : list (request V This)),
    0 <= req_time first ->
    spaced wait (first :: rest) ->
    (exists es s,
        callsOf es = first :: rest /\ forallb isCallOrFire es = true
        /\ punctualRun Debounce.initial es = Some s
        /\ Debounce.queue s = [])
    /\ (forall es s,
           callsOf es = first :: rest ->
           forallb isCallOrFire es = true ->
           punctualRun Debounce.initial es = Some s ->
           Debounce.queue s = [] ->
           Debounce.journal s
           = burstLog wait leading trailing (first :: rest)).
Proof.
  intros first rest Hstart Hsp.
  split.
  - destruct first as [t0 this0 args0]. cbn [req_time] in Hstart.
    destruct (edge_first_call t0 this0 args0) as [Hp Hstep]; [lia |].
    destruct (step Debounce.initial (Call t0 this0 args0))
      as [[s1 o1] |] eqn:Hs1; [| contradiction].
    destruct Hstep as [Hb1 Hck1].
    destruct (edge_burst_schedule rest _ _ _ s1 Hb1 Hck1 Hsp)
      as (es & s' & Hcalls & Hcf & Hrun & Hq').
    exists (Call t0 this0 args0 :: es), s'.
    cbn [callsOf forallb isCallOrFire Debounce.runWhere].
    rewrite Hp, Hs1, Hcalls. repeat split; assumption.
  - intros es s Hcalls Hcf Hrun Hq.
    destruct es as [| e es]; [discriminate |].
    cbn [forallb] in Hcf. apply andb_prop in Hcf as [He Hcf].
    cbn [Debounce.runWhere] in Hrun.
    destruct (Debounce.punctual Debounce.initial e) eqn:Hp; [| discriminate].
    destruct e as [t0 this0 args0 | k time | | time]; try discriminate.
    cbn [callsOf] in Hcalls. injection Hcalls as <- <-.
    destruct (edge_first_call t0 this0 args0 Hstart) as [_ Hstep].
    destruct (step Debounce.initial (Call t0 this0 args0))
      as [[s1 o1] |]; [| contradiction].
    destruct Hstep as [Hb1 _].
    exact (edge_burst_outcome es _ _ _ s1 s Hb1 Hcf Hsp Hrun Hq).
Qed.

End BurstWithEdges.

(** [debounce(countArgs, 100, { leading: true })] called at [0] and at
    [50]: the callable runs at [0] for the first call and at [150] for the
    second. *)
Lemma debounce_burst_with_edges_witness :
  0 <= 100
  /\ spaced 100 [Request 0 tt [1%nat]; Request 50 tt [2%nat]]
  /\ forall es s,
       callsOf es = [Request 0 tt [1%nat]; Request 50 tt [2%nat]] ->
       forallb isCallOrFire es = true ->
       Debounce.runWhere countArgs 100 true true None Debounce.punctual
         Debounce.initial es = Some s ->
       Debounce.queue s = [] ->
       Debounce.journal s
       = [Invocation 0 (Some tt) [1%nat]; Invocation 150 (Some tt) [2%nat]].
Proof.
  assert (H100 : 0 <= 100) by lia.
  assert (Hsp : spaced 100 [Request 0 tt [1%nat]; Request 50 tt [2%nat]])
    by (cbn; lia).
  split; [exact H100 |]. split; [exact Hsp |].
  apply (debounce_burst_with_edges countArgs 100 true true H100
           (Request 0 tt [1%nat]) [Request 50 tt [2%nat]]).
  - cbn. lia.
  - exact Hsp.
Defined.

(** ** [throttle] under steady calls *)

Section WindowApart.

Context {V This Res Exn : Type}.
Variable func : option This -> list V -> Res + Exn.
Variable wait : Z.
Variable leading trailing : bool.

Lemma apart_snoc (gap t : Z) (times : list Z) :
  apart gap times ->
  Forall (fun t' => t' + gap <= t) times ->
  apart gap (times ++ [t]).
Proof.
  induction times as [| a [| b rest] IH]; intros Hap Hall.
  - exact I.
  - cbn. inversion Hall; subst. split; [assumption | exact I].
  - destruct Hap as [Hab Hap]. inversion Hall; subst.
    change (a + gap <= b /\ apart gap ((b :: rest) ++ [t])).
    split; [exact Hab | apply IH; assumption].
Qed.

Lemma regular_invoke (j : list (invocation V This)) (li time : Z)
  (this : option This) (args : list V) :
  apart wait (map at_time j) ->
  Forall (fun i => at_time i <= li) j ->
  li + wait <= time ->
  apart wait (map at_time (j ++ [Invocation time this args])).
Proof.
  intros Hap Hall Hle. rewrite map_app. cbn [map at_time].
  apply apart_snoc; [exact Hap |].
  apply Forall_map. revert Hall. apply Forall_impl. intros i Hi.
  cbn [at_time]. lia.
Qed.

Lemma regular_stamp (j : list (invocation V This)) (li time : Z)
  (this : option This) (args : list V) :
  Forall (fun i => at_time i <= li) j ->
  li <= time ->
  Forall (fun i => at_time i <= time) (j ++ [Invocation time this args]).
Proof.
  intros Hall Hle. apply Forall_app. split.
  - revert Hall. apply Forall_impl. intros i Hi. lia.
  - constructor; [cbn; lia | constructor].
Qed.

Lemma regular_later (j : list (invocation V This)) (li time : Z) :
  Forall (fun i => at_time i <= li) j ->
  li <= time ->
  Forall (fun i => at_time i <= time) j.
Proof.
  intros Hall Hle. revert Hall. apply Forall_impl. intros i Hi. lia.
Qed.

Lemma regular_step (s : Throttle.state V This Res) (e : event V This) :
  regular wait s ->
  pressed wait s e = true ->
  match Throttle.step func wait leading trailing s e with
  | Some (s', _) => regular wait s'
  | None => True
  end.
Proof.
  destruct s as [to la lt r lc li q n ck j].
  unfold regular, pressed, Throttle.chronological.
  destruct e as [time this args | h time | | time]; cbn;
    intros (Hap & Hall & Hli & Hlc) Hok; try discriminate;
    apply andb_prop in Hok as [Ht Hok]; try discriminate.
  - destruct lc as [c |]; [destruct Hlc as [Hc Hla] | destruct Hlc as [-> ->]];
      reflect_comparisons;
      unfold_throttle; split_cases; reflect_comparisons;
      try lia;
      repeat match goal with
        | |- _ /\ _ => split
        | |- apart _ (map _ (_ ++ _)) =>
            eapply regular_invoke; [eassumption | eassumption | lia]
        | |- Forall _ (_ ++ _) =>
            eapply regular_stamp; [eassumption | lia]
        | |- Forall _ [_] => constructor; [cbn; lia | constructor]
        | |- Forall _ _ =>
            first [ assumption | eapply regular_later; [eassumption | lia] ]
        | |- apart _ _ => first [ assumption | exact I ]
        | |- _ <= _ => lia
        | |- _ -> _ => intros ?
        end; try solve [congruence | lia | cbn; auto].
  - destruct lc as [c |]; [destruct Hlc as [Hc Hla] | destruct Hlc as [-> ->]];
      reflect_comparisons;
      unfold_throttle; split_cases; try exact I; reflect_comparisons;
      try lia;
      repeat match goal with
        | |- _ /\ _ => split
        | |- apart _ (map _ (_ ++ _)) =>
            eapply regular_invoke; [eassumption | eassumption | ]
        | |- Forall _ (_ ++ _) =>
            eapply regular_stamp; [eassumption | lia]
        | |- Forall _ [_] => constructor; [cbn; lia | constructor]
        | |- Forall _ _ =>
            first [ assumption | eapply regular_later; [eassumption | lia] ]
        | |- apart _ _ => first [ assumption | exact I ]
        | |- _ -> _ => intros ?
        end; try solve [congruence | lia | cbn; auto].
    all: try (assert (li <= c) by (apply Hla; congruence); lia).
Qed.

Lemma regular_run (es : list (event V This)) :
  forall s s' : Throttle.state V This Res,
    regular wait s ->
    Throttle.runWhere func wait leading trailing (pressed wait) s es
    = Some s' ->
    regular wait s'.
Proof.
  induction es as [| e es IH]; intros s s' Hs Hrun;
    cbn [Throttle.runWhere] in Hrun.
  - now injection Hrun as <-.
  - destruct (pressed wait s e) eqn:Hok; [| discriminate].
    pose proof (regular_step s e Hs Hok) as Hstep.
    destruct (Throttle.step func wait leading trailing s e)
      as [[s1 o] |]; [| discriminate].
    exact (IH s1 s' Hstep Hrun).
Qed.

(** X15.  While every call of a throttled wrapper comes less than [wait]
    after the call before it, two successive runs of the callable are at
    least [wait] apart, whatever the edge flags and however late the host
    runs the timers. *)
Theorem throttle_runs_a_window_apart :
  forall (es : list (event V This)) (s : Throttle.state V This Res),
    Throttle.runWhere func wait leading trailing (pressed wait)
      Throttle.initial es = Some s ->
    apart wait (map at_time (Throttle.journal s)).
Proof.
  intros es s Hrun.
  apply (regular_run es Throttle.initial s) in Hrun; [apply Hrun |].
  unfold regular. cbn.
  split; [exact I |]. split; [constructor |]. split; [lia |].
  split; reflexivity.
Qed.

End WindowApart.

(** The callable runs at [0], [100] and [240]. *)
Lemma throttle_runs_a_window_apart_witness :
  exists s : Throttle.state nat unit nat,
    Throttle.runWhere countArgs 100 true true (pressed 100)
      Throttle.initial steadyCalls = Some s
    /\ map at_time (Throttle.journal s) = [0; 100; 240]
    /\ apart 100 (map at_time (Throttle.journal s)).
Proof.
  eexists. split; [vm_compute; reflexivity |].
  split; [reflexivity |].
  apply (throttle_runs_a_window_apart countArgs 100 true true steadyCalls).
  vm_compute. reflexivity.
Defined.

Section ThrottlePaced.

Context {V This Res Exn : Type}.
Variable func : option This -> list V -> Res + Exn.
Variable wait period : Z.
Variable leading : bool.
Hypothesis period_nonneg : 0 <= period.
Hypothesis wait_nonneg : 0 <= wait.

Local Abbreviation step := (Throttle.step func wait leading true).

Ltac open_conditions H :=
  cbv [throttlePeriodic throttlePunctual Throttle.chronological eventTime
       Throttle.clock Throttle.queue Throttle.lastCallTime
       noneOverdue forallb lookupTimer find handle action due] in H;
  repeat match goal with
         | H : _ && _ = true |- _ => apply andb_prop in H as [? ?]
         end.

Ltac throttle_paced_solver :=
  first [ solve [exfalso; lia]
        | solve [congruence]
        | rewrite ?lastInvoked_app; cbn [at_time];
          split; [lia |];
          split; [lia |];
          split; [try exact I; lia |];
          split;
          [ first [ left; split; reflexivity
                  | right; eexists; eexists;
                    split; [reflexivity |]; split; [reflexivity |]; lia ]
          | first [ left; solve [repeat split; first [reflexivity | lia]]
                  | right; solve [repeat split; first [congruence | lia]] ] ] ].

Lemma throttlePaced_bound (s : Throttle.state V This Res) (e : event V This)
  (t : Z) :
  throttlePaced period wait s ->
  throttlePeriodic period s e = true ->
  eventTime e = Some t ->
  t - lastInvoked (Throttle.journal s) <= wait + period.
Proof.
  destruct s as [to la lt r lc li q n ck j].
  unfold throttlePaced. cbn.
  intros (Hran & Hck & Hlc & Hq & Hcases) Hok Ht.
  assert (Hnext : t <= match lc with Some c => c + period | None => 0 end
                  /\ noneOverdue t q = true).
  { destruct e as [time this args | k time | | time]; cbn in Ht;
      try discriminate; injection Ht as ->;
      cbv [throttlePeriodic throttlePunctual Throttle.chronological eventTime
           Throttle.clock Throttle.queue Throttle.lastCallTime] in Hok;
      repeat match goal with
             | H : _ && _ = true |- _ => apply andb_prop in H as [? ?]
             end; reflect_comparisons; split; (lia || assumption). }
  destruct Hnext as [Hnext Hdue].
  destruct Hcases as [(_ & _ & Hserved) | (_ & Hto & _)].
  - destruct lc; lia.
  - destruct Hq as [[-> _] | (h & d & _ & -> & Hd)]; [congruence |].
    cbn in Hdue. rewrite andb_true_r in Hdue. reflect_comparisons. lia.
Qed.

Lemma throttlePaced_step (s : Throttle.state V This Res) (e : event V This) :
  throttlePaced period wait s ->
  throttlePeriodic period s e = true ->
  match step s e with
  | Some (s', _) => throttlePaced period wait s'
  | None => True
  end.
Proof.
  destruct s as [to la lt r lc li q n ck j].
  unfold throttlePaced. cbn.
  intros (Hran & Hck & Hlc & Hq & Hcases) Hok.
  set (ran := last (map at_time j) 0) in *.
  destruct e as [time this args | k time | | time];
    try (cbv [throttlePeriodic] in Hok; rewrite andb_false_r in Hok;
         discriminate);
    (destruct Hq as [[-> ->] | (h & d & -> & -> & Hd)]);
    open_conditions Hok; try discriminate; reflect_comparisons;
    unfold_throttle;
    cbv [lookupTimer clearTimeout setTimeout find filter handle action
         due];
    cbn [app];
    split_cases; reflect_comparisons;
    unfold lastInvoked in *; fold ran;
    try exact I;
    destruct Hcases as [(Hla & Hli & Hserved) | (Hla & Hto & Hli)];
    try discriminate; subst;
    throttle_paced_solver.
Qed.

Lemma throttlePaced_run (es : list (event V This)) :
  forall s s' : Throttle.state V This Res,
    throttlePaced period wait s ->
    Throttle.runWhere func wait leading true (throttlePeriodic period) s es
    = Some s' ->
    throttlePaced period wait s'.
Proof.
  induction es as [| e es IH]; intros s s' Hs Hrun;
    cbn [Throttle.runWhere] in Hrun.
  - now injection Hrun as <-.
  - destruct (throttlePeriodic period s e) eqn:Hok; [| discriminate].
    pose proof (throttlePaced_step s e Hs Hok) as Hstep.
    destruct (step s e) as [[s1 o] |]; [| discriminate].
    exact (IH s1 s' Hstep Hrun).
Qed.

(** X17.  [throttle(func, wait, { trailing: true })] with [wait] not
    negative, called from new every [period] time units, the timers running
    on time: whenever anything happens to the wrapper, the latest
    invocation of the callable (the start, before the first one) is at
    most [wait + period] in the past. *)
Theorem throttle_periodic_calls_bound_the_gap :
  forall (es : list (event V This)) (s : Throttle.state V This Res)
         (e : event V This) (t : Z),
    Throttle.runWhere func wait leading true (throttlePeriodic period)
      Throttle.initial es = Some s ->
    throttlePeriodic period s e = true ->
    eventTime e = Some t ->
    t - lastInvoked (Throttle.journal s) <= wait + period.
Proof.
  intros es s e t Hrun Hok Ht.
  apply (throttlePaced_bound s e t); [| exact Hok | exact Ht].
  apply (throttlePaced_run es Throttle.initial s); [| exact Hrun].
  unfold throttlePaced, lastInvoked. cbn.
  split; [lia |]. split; [lia |]. split; [exact I |].
  split; [left; split; reflexivity |].
  left. repeat split; reflexivity.
Qed.

End ThrottlePaced.

(** [throttle(countArgs, 100, { leading: false })] called every [50]: at
    the call at [200] the latest invocation, at [100], is within
    [100 + 50]. *)
Lemma throttle_periodic_calls_bound_the_gap_witness :
  0 <= 50 /\ 0 <= 100
  /\ exists s,
       Throttle.runWhere countArgs 100 false true (throttlePeriodic 50)
         Throttle.initial throttleEvery50 = Some s
       /\ throttlePeriodic 50 s (Call 200 tt [4%nat]) = true
       /\ lastInvoked (Throttle.journal s) = 100
       /\ 200 - lastInvoked (Throttle.journal s) <= 100 + 50.
Proof.
  assert (Hp : 0 <= 50) by lia.
  assert (Hw : 0 <= 100) by lia.
  split; [exact Hp |]. split; [exact Hw |].
  eexists. split; [vm_compute; reflexivity |].
  split; [vm_compute; reflexivity |].
  split; [vm_compute; reflexivity |].
  apply (throttle_periodic_calls_bound_the_gap countArgs 100 50 false
           Hp Hw throttleEvery50 _ (Call 200 tt [4%nat]) 200);
    vm_compute; reflexivity.
Defined.

(** ** [hash] and [toArray] *)

Section Hash.

Lemma toInt32_mod (x : Z) : toInt32 x mod 2 ^ 32 = x mod 2 ^ 32.
Proof.
  unfold toInt32.
  rewrite Zminus_mod, Z.mod_mod by lia.
  rewrite <- Zminus_mod.
  f_equal. lia.
Qed.

Lemma lxor_mod (x y : Z) :
  Z.lxor x y mod 2 ^ 32 = Z.lxor (x mod 2 ^ 32) (y mod 2 ^ 32).
Proof.
  rewrite <- !Z.land_ones by lia.
  apply Z.bits_inj'. intros n Hn.
  rewrite Z.land_spec, !Z.lxor_spec, !Z.land_spec.
  destruct (Z.testbit x n), (Z.testbit y n), (Z.testbit (Z.ones 32) n);
    reflexivity.
Qed.

Lemma xor32_mod (a b : Z) :
  xor32 a b mod 2 ^ 32 = Z.lxor (a mod 2 ^ 32) (b mod 2 ^ 32).
Proof.
  unfold xor32. now rewrite lxor_mod, !toInt32_mod.
Qed.

Lemma hashLoop_cons (c : Z) (str : list Z) :
  forall (i : nat) (h : Z),
    hashLoop (c :: str) (S i) h = xor32 (hashLoop str i h * 33) c.
Proof.
  induction i as [| i IH]; intros h.
  - reflexivity.
  - change (hashLoop (c :: str) (S (S i)) h)
      with (hashLoop (c :: str) (S i)
              (xor32 (h * 33) (charCodeAt str i))).
    now rewrite IH.
Qed.

Lemma hash_range (str : list Z) : 0 <= hash str < 2 ^ 32.
Proof. unfold hash, toUint32. apply Z.mod_pos_bound. lia. Qed.

Lemma hash_cons (c : Z) (str : list Z) :
  hash (c :: str) = Z.lxor ((hash str * 33) mod 2 ^ 32) (c mod 2 ^ 32).
Proof.
  unfold hash, toUint32. cbn [length].
  rewrite hashLoop_cons, xor32_mod.
  now rewrite Z.mul_mod_idemp_l by lia.
Qed.

(** X12.  The hash of the empty string is the seed [5381], every hash is
    an unsigned 32-bit number, and the hash of a string with one more code
    unit [c] in front is obtained from the hash of the rest alone, as
    [(33 * hash) xor c] modulo [2^32]: the signed wrap-around inside the
    loop never shows. *)
Theorem hash_prepends_code_units :
  hash [] = 5381
  /\ forall (c : Z) (str : list Z),
      0 <= hash str < 2 ^ 32
      /\ hash (c :: str) = Z.lxor (hash str * 33) c mod 2 ^ 32.
Proof.
  split; [reflexivity |].
  intros c str. split; [apply hash_range |].
  now rewrite hash_cons, lxor_mod.
Qed.

Lemma lxor_cancel_l (x a b : Z) : Z.lxor x a = Z.lxor x b -> a = b.
Proof.
  intros H. apply Z.lxor_eq.
  replace (Z.lxor a b) with (Z.lxor (Z.lxor x a) (Z.lxor x b)).
  - rewrite H. apply Z.lxor_nilpotent.
  - rewrite Z.lxor_assoc, <- (Z.lxor_assoc a x b), (Z.lxor_comm a x).
    now rewrite Z.lxor_assoc, <- Z.lxor_assoc, Z.lxor_nilpotent,
      Z.lxor_0_l.
Qed.

Lemma lxor_cancel_r (x a b : Z) : Z.lxor a x = Z.lxor b x -> a = b.
Proof.
  rewrite (Z.lxor_comm a x), (Z.lxor_comm b x). apply lxor_cancel_l.
Qed.

(** Multiplying by [33] loses nothing modulo [2^32]. *)
Lemma times33_injective (h1 h2 : Z) :
  0 <= h1 < 2 ^ 32 -> 0 <= h2 < 2 ^ 32 ->
  (h1 * 33) mod 2 ^ 32 = (h2 * 33) mod 2 ^ 32 ->
  h1 = h2.
Proof.
  intros H1 H2 H.
  assert (Hinv : forall h, 0 <= h < 2 ^ 32 ->
            ((h * 33) mod 2 ^ 32 * 1041204193) mod 2 ^ 32 = h).
  { intros h Hh. rewrite Z.mul_mod_idemp_l by lia.
    replace (h * 33 * 1041204193) with (h + h * 8 * 2 ^ 32) by lia.
    rewrite Z.mod_add by lia. apply Z.mod_small. exact Hh. }
  rewrite <- (Hinv h1 H1), <- (Hinv h2 H2). now rewrite H.
Qed.

Lemma hash_cons_injective (c : Z) (s1 s2 : list Z) :
  hash (c :: s1) = hash (c :: s2) -> hash s1 = hash s2.
Proof.
  rewrite !hash_cons. intros H. apply lxor_cancel_r in H.
  apply times33_injective; [apply hash_range | apply hash_range | exact H].
Qed.

(** X18.  Two strings that differ in exactly one code unit never have the
    same hash. *)
Theorem hash_tells_one_code_unit_apart :
  forall (before after : list Z) (a b : Z),
    0 <= a < 2 ^ 16 -> 0 <= b < 2 ^ 16 -> a <> b ->
    hash (before ++ a :: after) <> hash (before ++ b :: after).
Proof.
  intros before after a b Ha Hb Hab H. apply Hab. clear Hab.
  induction before as [| c before IH].
  - cbn [app] in H. rewrite !hash_cons in H. apply lxor_cancel_l in H.
    rewrite !Z.mod_small in H by lia. exact H.
  - apply IH. cbn [app] in H. exact (hash_cons_injective c _ _ H).
Qed.

End Hash.

(** ['test'] and ['Test']. *)
Lemma hash_tells_one_code_unit_apart_witness :
  0 <= 116 < 2 ^ 16 /\ 0 <= 84 < 2 ^ 16 /\ 116 <> 84
  /\ hash [116; 101; 115; 116] <> hash [84; 101; 115; 116].
Proof.
  assert (Ha : 0 <= 116 < 2 ^ 16) by lia.
  assert (Hb : 0 <= 84 < 2 ^ 16) by lia.
  assert (Hab : 116 <> 84) by lia.
  split; [exact Ha |]. split; [exact Hb |]. split; [exact Hab |].
  exact (hash_tells_one_code_unit_apart [] [101; 115; 116] 116 84 Ha Hb Hab).
Defined.


Section ToArray.

Context {T : Type}.

(** X13.  [toArray] leaves its own results alone, returns the empty
    array exactly for [null], [undefined] and the empty array, and returns
    either the array it was given or an array of at most one element. *)
Theorem toArray_normalises :
  forall v : value T,
    toArray (Array (toArray v)) = toArray v
    /\ (toArray v = [] <-> v = Null \/ v = Undefined \/ v = Array [])
    /\ (v = Array (toArray v) \/ (length (toArray v) <= 1)%nat).
Proof.
  intros v. split; [reflexivity |]. split.
  - destruct v as [| | l | x]; cbn; split; auto.
    + intros ->. auto.
    + intros [H | [H | H]]; try discriminate. now injection H.
    + discriminate.
    + intros [H | [H | H]]; discriminate.
  - destruct v as [| | l | x]; cbn; auto.
Qed.

End ToArray.
